(** * Native value marshalling and array slicing: a shallow embedding

    This development embeds two parts of the repository in Rocq and proves
    properties of them:

    - [ArraySlicing]: the native slicing and broadcasting routines of
      [numbapro/array_slicing.py] ([SliceArray], [IndexAxis], [NewAxis],
      [Broadcast] and the code generator methods that call them);
    - [PythonAPI]: the boxed/native conversion layer of [numba/pythonapi.py]
      ([to_native_value], [from_native_value] and their helpers), together
      with the serialization cache of [serialize_object].
*)

From Stdlib Require Import ZArith Lia Bool.
From stdpp Require Import base option list strings pretty gmap.

Local Open Scope Z_scope.

(** ** Machine integers

    [npy_intp] is a signed two's complement integer of pointer width; the
    arithmetic of the generated code wraps around. *)

Module Intp.

Definition bits : Z := 64.
Definition modulus : Z := 2 ^ bits.
Definition min_signed : Z := - 2 ^ (bits - 1).
Definition max_signed : Z := 2 ^ (bits - 1) - 1.

Definition in_range (z : Z) : Prop := min_signed <= z <= max_signed.

(** Reduction of an unbounded integer to its signed representative. *)
Definition wrap (z : Z) : Z := (z + 2 ^ (bits - 1)) mod modulus - 2 ^ (bits - 1).

Definition add (a b : Z) : Z := wrap (a + b).
Definition sub (a b : Z) : Z := wrap (a - b).
Definition mul (a b : Z) : Z := wrap (a * b).
Definition neg (a : Z) : Z := wrap (- a).

(** Signed division and remainder truncate towards zero; dividing by zero
    and dividing the least integer by [-1] have no defined result. *)
Definition sdiv (a b : Z) : option Z :=
  if decide (b = 0) then None
  else if decide (a = min_signed /\ b = -1) then None
  else Some (Z.quot a b).

Definition srem (a b : Z) : option Z :=
  if decide (b = 0) then None
  else if decide (a = min_signed /\ b = -1) then None
  else Some (Z.rem a b).

(** Addresses are unsigned; indexing a byte pointer adds modulo the
    address space. *)
Definition ptr_add (p off : Z) : Z := (p + off) mod modulus.

End Intp.

(** ** Array slicing and broadcasting ([numbapro/array_slicing.py]) *)

Module ArraySlicing.

(** A C array reached through a pointer: reading or writing outside it has
    no defined behaviour, which the model reports as [None]. *)
Definition ix (l : list Z) (i : Z) : option Z :=
  if decide (0 <= i) then l !! Z.to_nat i else None.

Definition set_ix (l : list Z) (i : Z) (v : Z) : option (list Z) :=
  if decide (0 <= i < Z.of_nat (length l)) then Some (<[Z.to_nat i := v]> l)
  else None.

(** *** [SliceArray] *)

(** [SliceArray.specialize]: one function is generated per combination of
    given bounds. *)
Record SliceArray := {
  have_start : bool;
  have_stop : bool;
  have_step : bool
}.

(** [SliceArray._adjust_given_index]; [index] is updated in place, the
    function returns its final value. *)
Definition _adjust_given_index (extent : Z) (negative_step : bool)
    (index : Z) (is_start : bool) : Z :=
  if decide (index < 0) then
    let index := Intp.add index extent in
    if decide (index < 0) then 0 else index
  else
    if decide (index >= extent) then
      if is_start then
        if negative_step then Intp.sub extent 1 else extent
      else extent
    else index.

(** [SliceArray._set_default_index] *)
Definition _set_default_index (default1 default2 : Z) (negative_step : bool)
    : Z :=
  if negative_step then default1 else default2.

(** [SliceArray.adjust_index] *)
Definition adjust_index (extent : Z) (negative_step : bool) (index : Z)
    (default1 default2 : Z) (is_start have_index : bool) : Z :=
  if have_index then _adjust_given_index extent negative_step index is_start
  else _set_default_index default1 default2 negative_step.

(** What [SliceArray.body] leaves behind: the returned pointer, the three
    arrays it writes through ([stride] is a reference to
    [in_strides[src_dim]], so assigning it stores into [in_strides]), and
    the final values of its local variables. *)
Record slice_result := {
  result : Z;
  in_strides' : list Z;
  out_shape' : list Z;
  out_strides' : list Z;
  l_start : Z;
  l_stop : Z;
  l_step : Z;
  l_new_extent : Z
}.

(** [SliceArray.body] *)
Definition body (self : SliceArray) (data : Z)
    (in_shape in_strides out_shape out_strides : list Z)
    (start stop step : Z) (src_dim dst_dim : Z) : option slice_result :=
  (* stride = in_strides[src_dim]; extent = in_shape[src_dim] *)
  _ ← ix in_strides src_dim;
  extent ← ix in_shape src_dim;
  let step := if have_step self then step else 1 in
  let negative_step := bool_decide (step < 0) in
  let start := adjust_index extent negative_step start
                 (Intp.sub extent 1) 0 true (have_start self) in
  let stop := adjust_index extent negative_step stop
                (Intp.neg 1) extent false (have_stop self) in
  q ← Intp.sdiv (Intp.sub stop start) step;
  r ← Intp.srem (Intp.sub stop start) step;
  let new_extent := q in
  let new_extent := if decide (r ≠ 0) then Intp.add new_extent 1
                    else new_extent in
  let new_extent := if decide (new_extent < 0) then 0 else new_extent in
  (* if extent == 1, set stride to 0 for broadcasting *)
  in_strides ← (if decide (new_extent = 1) then set_ix in_strides src_dim 0
                else Some in_strides);
  stride ← ix in_strides src_dim;
  let result := Intp.ptr_add data (Intp.mul start stride) in
  out_shape ← set_ix out_shape dst_dim new_extent;
  out_strides ← set_ix out_strides dst_dim (Intp.mul stride step);
  Some {| result := result; in_strides' := in_strides;
          out_shape' := out_shape; out_strides' := out_strides;
          l_start := start; l_stop := stop; l_step := step;
          l_new_extent := new_extent |}.

(** [NativeSliceCodegenMixin.visit_SliceSliceNode]: a bound that is absent
    in the source expression selects the specialization without it and is
    passed as the constant 0. *)
Definition visit_SliceSliceNode (data : Z)
    (in_shape in_strides out_shape out_strides : list Z)
    (start stop step : option Z) (src_dim dst_dim : Z) : option slice_result :=
  let slice_func_def := {| have_start := bool_decide (is_Some start);
                           have_stop := bool_decide (is_Some stop);
                           have_step := bool_decide (is_Some step) |} in
  let default := 0 in
  body slice_func_def data in_shape in_strides out_shape out_strides
       (from_option id default start) (from_option id default stop)
       (from_option id default step) src_dim dst_dim.

(** *** [IndexAxis] and [NewAxis] *)

(** [IndexAxis.body] *)
Definition IndexAxis_body (data : Z) (in_shape in_strides : list Z)
    (src_dim index : Z) : option Z :=
  s ← ix in_strides src_dim;
  Some (Intp.ptr_add data (Intp.mul s index)).

(** [NewAxis.body] *)
Definition NewAxis_body (out_shape out_strides : list Z) (dst_dim : Z)
    : option (list Z * list Z) :=
  out_shape ← set_ix out_shape dst_dim 1;
  out_strides ← set_ix out_strides dst_dim 0;
  Some (out_shape, out_strides).

(** *** [Broadcast] *)

(** The loop of [Broadcast.body], [n] iterations from index [i] on.  The
    result is the returned code (0 on a shape mismatch, 1 at the end of the
    loop) with the two arrays the routine writes through.  [src_extent] and
    [dst_extent] name elements of the two arrays, which are loaded where
    they are compared: the destination is not read on an axis where the
    operand's extent is 1. *)
Fixpoint for_range (n : nat) (i : Z) (dim_offset : Z)
    (dst_shape src_shape src_strides : list Z)
    : option (Z * list Z * list Z) :=
  match n with
  | O => Some (1, dst_shape, src_strides)
  | S n' =>
      src_extent ← ix src_shape i;
      if decide (src_extent = 1) then
        (* p_broadcast[0] = True *)
        src_strides ← set_ix src_strides i 0;
        for_range n' (i + 1) dim_offset dst_shape src_shape src_strides
      else
        dst_extent ← ix dst_shape (i + dim_offset);
        if decide (dst_extent = 1) then
          dst_shape ← set_ix dst_shape (i + dim_offset) src_extent;
          for_range n' (i + 1) dim_offset dst_shape src_shape src_strides
        else if decide (src_extent ≠ dst_extent) then
          (* Shape mismatch *)
          Some (0, dst_shape, src_strides)
        else
          for_range n' (i + 1) dim_offset dst_shape src_shape src_strides
  end.

(** [Broadcast.body] *)
Definition Broadcast_body (dst_shape src_shape src_strides : list Z)
    (max_ndim ndim : Z) : option (Z * list Z * list Z) :=
  let dim_offset := max_ndim - ndim in
  for_range (Z.to_nat ndim) 0 dim_offset dst_shape src_shape src_strides.

(** An operand of a [BroadcastNode]: whether its type is an array type, the
    dimensionality of that type, and the shape and strides its array
    descriptor points to. *)
Record operand := {
  is_array : bool;
  op_ndim : Z;
  op_shape : list Z;
  op_strides : list Z
}.

(** A Python exception: its type and its message. *)
Record exception := {
  exc_type : string;
  exc_msg : string
}.

(** Modelled from the spec: [nodes.CheckErrorNode(value, badval, exc_type,
    exc_msg)] of [numba/nodes.py] raises [exc_type(exc_msg)] when the value
    it checks equals [badval]. *)
Definition CheckErrorNode (return_value badval : Z) (exc_type exc_msg : string)
    : option exception :=
  if decide (return_value = badval)
  then Some {| exc_type := exc_type; exc_msg := exc_msg |}
  else None.

(** [BroadcastNode.__init__] creates one check per array operand, on the
    value its call to the broadcast routine returned. *)
Definition check_errors (broadcast_retvals : list Z) : list (option exception) :=
  map (fun return_value =>
         CheckErrorNode return_value 0 "ValueError"
                        "Shape mismatch while broadcasting")
      broadcast_retvals.

(** The calls of [visit_BroadcastNode], one per array operand, in order; all
    of them run before any return value is checked.  The result is the
    destination shape, the operands with their strides as the calls left
    them, and the return values collected. *)
Fixpoint broadcast_operands (ndim : Z) (shape : list Z) (operands : list operand)
    : option (list Z * list operand * list Z) :=
  match operands with
  | [] => Some (shape, [], [])
  | op :: rest =>
      if is_array op then
        '(lresult, shape, strides) ←
           Broadcast_body shape (op_shape op) (op_strides op) ndim (op_ndim op);
        '(shape, rest, retvals) ← broadcast_operands ndim shape rest;
        Some (shape,
              {| is_array := true; op_ndim := op_ndim op;
                 op_shape := op_shape op; op_strides := strides |} :: rest,
              lresult :: retvals)
      else
        '(shape, rest, retvals) ← broadcast_operands ndim shape rest;
        Some (shape, op :: rest, retvals)
  end.

(** How a visit ends: with the exception of the first failing check, or
    with the broadcast shape. *)
Inductive outcome :=
  | Raised (e : exception)
  | Returned (shape : list Z) (operands : list operand).

(** Running the checks in order: the first one that fires raises. *)
Fixpoint visitlist (checks : list (option exception)) : option exception :=
  match checks with
  | [] => None
  | Some e :: _ => Some e
  | None :: rest => visitlist rest
  end.

(** [NativeSliceCodegenMixin.visit_BroadcastNode] *)
Definition visit_BroadcastNode (array_type_ndim : nat) (operands : list operand)
    : option outcome :=
  (* Initialize shape to ones *)
  let shape := replicate array_type_ndim 1 in
  '(shape, operands, retvals) ←
     broadcast_operands (Z.of_nat array_type_ndim) shape operands;
  match visitlist (check_errors retvals) with
  | Some e => Some (Raised e)
  | None => Some (Returned shape operands)
  end.

(** *** The normalization contract, as the specification words it

    [slice_axis] on unbounded integers: each bound is given or absent. *)
Module SliceSpec.

Definition step_of (step : option Z) : Z :=
  match step with Some s => s | None => 1 end.

Definition start_of (extent : Z) (negative_step : bool) (start : option Z) : Z :=
  match start with
  | None => if negative_step then extent - 1 else 0
  | Some s =>
      if decide (s < 0) then
        if decide (s + extent < 0) then 0 else s + extent
      else if decide (s >= extent) then
        if negative_step then extent - 1 else extent
      else s
  end.

Definition stop_of (extent : Z) (negative_step : bool) (stop : option Z) : Z :=
  match stop with
  | None => if negative_step then -1 else extent
  | Some s =>
      if decide (s < 0) then
        if decide (s + extent < 0) then 0 else s + extent
      else if decide (s > extent) then extent
      else s
  end.

Definition new_extent_of (start stop step : Z) : Z :=
  let q := Z.quot (stop - start) step in
  let q := if decide (Z.rem (stop - start) step ≠ 0) then q + 1 else q in
  if decide (q < 0) then 0 else q.

End SliceSpec.

(** A bound that is given fits in [npy_intp]. *)
Definition given_in_range (b : option Z) : Prop :=
  match b with Some z => Intp.in_range z | None => True end.

(** *** Vocabulary for the broadcasting properties *)

(** The extent operand [op] contributes at axis [d] of the destination: its
    own axes are shifted by [max_ndim - ndim]. *)
Definition ext_at (max_ndim : Z) (op : operand) (d : Z) : option Z :=
  ix (op_shape op) (d - (max_ndim - op_ndim op)).

(** Two array operands have different extents, both other than 1, at one
    destination axis. *)
Definition conflict (max_ndim : Z) (operands : list operand) : Prop :=
  exists p q d e1 e2,
    p ∈ operands /\ q ∈ operands /\
    is_array p = true /\ is_array q = true /\
    ext_at max_ndim p d = Some e1 /\ ext_at max_ndim q d = Some e2 /\
    e1 ≠ 1 /\ e2 ≠ 1 /\ e1 ≠ e2.

(** An array operand's descriptor has as many extents and strides as its
    type has dimensions, and no more dimensions than the result. *)
Definition op_wf (max_ndim : Z) (op : operand) : Prop :=
  is_array op = true ->
  0 <= op_ndim op <= max_ndim /\
  Z.of_nat (length (op_shape op)) = op_ndim op /\
  Z.of_nat (length (op_strides op)) = op_ndim op.

(** The invariant of the visit: the destination shape has the result's
    dimensionality; every extent other than 1 of an operand already
    treated is the destination's extent at that axis; and a destination
    extent other than 1 is the extent of such an operand. *)
Definition Inv (max_ndim : Z) (shape : list Z) (seen : list operand) : Prop :=
  Z.of_nat (length shape) = max_ndim /\
  (forall p d e, p ∈ seen -> is_array p = true ->
     ext_at max_ndim p d = Some e -> e ≠ 1 -> ix shape d = Some e) /\
  (forall d de, ix shape d = Some de -> de ≠ 1 ->
     exists p, p ∈ seen /\ is_array p = true /\ ext_at max_ndim p d = Some de).

(** What a successful visit has done to an operand: nothing but zeroing
    the strides of an array operand at its axes of extent 1. *)
Definition strides_zeroed (op op' : operand) : Prop :=
  is_array op' = is_array op /\ op_ndim op' = op_ndim op /\
  op_shape op' = op_shape op /\
  (is_array op = false -> op_strides op' = op_strides op) /\
  (is_array op = true -> forall j e, ix (op_shape op) j = Some e ->
     ix (op_strides op') j
     = if decide (e = 1) then Some 0 else ix (op_strides op) j).

(** The axis and the two extents of a shape mismatch. *)
Record mismatch := {
  mm_axis : Z;
  mm_dst_extent : Z;
  mm_src_extent : Z
}.

(** The first mismatch the loop of [Broadcast.body] meets, if any, with the
    destination shape as the axes before it leave it. *)
Fixpoint first_mismatch (n : nat) (i : Z) (dim_offset : Z)
    (dst_shape src_shape : list Z) : option mismatch :=
  match n with
  | O => None
  | S n' =>
      src_extent ← ix src_shape i;
      if decide (src_extent = 1) then
        first_mismatch n' (i + 1) dim_offset dst_shape src_shape
      else
        dst_extent ← ix dst_shape (i + dim_offset);
        if decide (dst_extent = 1) then
          dst_shape ← set_ix dst_shape (i + dim_offset) src_extent;
          first_mismatch n' (i + 1) dim_offset dst_shape src_shape
        else if decide (src_extent ≠ dst_extent) then
          Some {| mm_axis := i; mm_dst_extent := dst_extent;
                  mm_src_extent := src_extent |}
        else first_mismatch n' (i + 1) dim_offset dst_shape src_shape
  end.

(** The mismatch behind the error of a visit: that of the first operand
    whose call returns 0. *)
Fixpoint visit_mismatch (ndim : Z) (shape : list Z) (operands : list operand)
    : option mismatch :=
  match operands with
  | [] => None
  | op :: rest =>
      if is_array op then
        match first_mismatch (Z.to_nat (op_ndim op)) 0 (ndim - op_ndim op)
                shape (op_shape op) with
        | Some mm => Some mm
        | None =>
            '(_, shape, _) ←
               Broadcast_body shape (op_shape op) (op_strides op) ndim
                              (op_ndim op);
            visit_mismatch ndim shape rest
        end
      else visit_mismatch ndim shape rest
  end.

(** The error a failed visit raises determines the axis and the two extents
    of the mismatch: they can be read back from it. *)
Definition error_carries_mismatch : Prop :=
  exists decode : exception -> mismatch,
    forall (n : nat) operands e mm,
      visit_BroadcastNode n operands = Some (Raised e) ->
      visit_mismatch (Z.of_nat n) (replicate n 1) operands = Some mm ->
      decode e = mm.

(** Example operands: C-contiguous arrays of 8-byte elements. *)
Definition array_1x3 : operand :=
  {| is_array := true; op_ndim := 2; op_shape := [1; 3]; op_strides := [24; 8] |}.
Definition array_4x1 : operand :=
  {| is_array := true; op_ndim := 2; op_shape := [4; 1]; op_strides := [8; 8] |}.
Definition array_of_len (n : Z) : operand :=
  {| is_array := true; op_ndim := 1; op_shape := [n]; op_strides := [8] |}.

(** *** [rewrite_slice] and [visit_NativeSliceNode] *)

(** One dimension of a subscript: a slice, [numpy.newaxis], or an integer
    index (its value already coerced to [npy_intp]). *)
Inductive subslice :=
  | Slice (lower upper step : option Z)
  | Newaxis
  | IntIndex (index : Z).

(** [SliceSliceNode] and [SliceDimNode], with the two axis counters they
    are created with. *)
Inductive slice_dim_node :=
  | SliceSliceNode (start stop step : option Z) (src_dim dst_dim : Z)
  | SliceDimNode (sub : subslice) (src_dim dst_dim : Z).

(** [create_slice_dim_node] *)
Definition create_slice_dim_node (sub : subslice) (src_dim dst_dim : Z)
    : slice_dim_node :=
  match sub with
  | Slice lower upper step => SliceSliceNode lower upper step src_dim dst_dim
  | _ => SliceDimNode sub src_dim dst_dim
  end.

(** The loop of [rewrite_slice] over the dimensions that are left, from the
    current values of its two counters; it returns the nodes it appended
    and the final counters. *)
Fixpoint rewrite_slice_loop (dims : list subslice) (src_dim dst_dim : Z)
    : list slice_dim_node * Z * Z :=
  match dims with
  | [] => ([], src_dim, dst_dim)
  | sub :: rest =>
      let node := create_slice_dim_node sub src_dim dst_dim in
      let '(src_dim, dst_dim) :=
        match sub with
        | Slice _ _ _ => (src_dim + 1, dst_dim + 1)
        | Newaxis => (src_dim, dst_dim + 1)
        | IntIndex _ => (src_dim + 1, dst_dim)
        end in
      let '(slices, src_dim, dst_dim) :=
        rewrite_slice_loop rest src_dim dst_dim in
      (node :: slices, src_dim, dst_dim)
  end.

(** [rewrite_slice]: the subslices of the [NativeSliceNode] it returns. *)
Definition rewrite_slice (dims : list subslice) : list slice_dim_node :=
  (rewrite_slice_loop dims 0 0).1.1.

(** What the visit of a [NativeSliceNode] works on: the data pointer of the
    view copy, the memory behind the source's [strides] pointer (slicing
    writes through it), and the two stack arrays the view copy's [shape]
    and [strides] point to.  The source's shape is only read. *)
Record view := {
  view_data : Z;
  view_in_strides : list Z;
  view_shape : list Z;
  view_strides : list Z
}.

(** [NativeSliceCodegenMixin.visit_SliceDimNode] *)
Definition visit_SliceDimNode (in_shape : list Z) (sub : subslice)
    (src_dim dst_dim : Z) (v : view) : option view :=
  match sub with
  | IntIndex value =>
      result ← IndexAxis_body (view_data v) in_shape (view_in_strides v)
                 src_dim value;
      Some {| view_data := result; view_in_strides := view_in_strides v;
              view_shape := view_shape v; view_strides := view_strides v |}
  | _ =>
      '(shape, strides) ← NewAxis_body (view_shape v) (view_strides v) dst_dim;
      Some {| view_data := view_data v; view_in_strides := view_in_strides v;
              view_shape := shape; view_strides := strides |}
  end.

(** The visit of one subslice, by the class of its node. *)
Definition visit_subslice (in_shape : list Z) (node : slice_dim_node)
    (v : view) : option view :=
  match node with
  | SliceSliceNode start stop step src_dim dst_dim =>
      r ← visit_SliceSliceNode (view_data v) in_shape (view_in_strides v)
            (view_shape v) (view_strides v) start stop step src_dim dst_dim;
      Some {| view_data := result r; view_in_strides := in_strides' r;
              view_shape := out_shape' r; view_strides := out_strides' r |}
  | SliceDimNode sub src_dim dst_dim =>
      visit_SliceDimNode in_shape sub src_dim dst_dim v
  end.

(** [self.visitlist(node.subslices)] *)
Fixpoint visit_subslices (in_shape : list Z) (subslices : list slice_dim_node)
    (v : view) : option view :=
  match subslices with
  | [] => Some v
  | node :: rest =>
      v ← visit_subslice in_shape node v;
      visit_subslices in_shape rest v
  end.

(** [NativeSliceCodegenMixin.visit_NativeSliceNode]; [shape] and [strides]
    are what the two fresh stack arrays happen to hold. *)
Definition visit_NativeSliceNode (data : Z) (in_shape in_strides : list Z)
    (shape strides : list Z) (subslices : list slice_dim_node) : option view :=
  visit_subslices in_shape subslices
    {| view_data := data; view_in_strides := in_strides;
       view_shape := shape; view_strides := strides |}.

(** The source axes and the destination axes a list of dimensions uses up:
    every dimension but a new axis consumes a source axis, every dimension
    but an index produces a destination axis. *)
Fixpoint src_axes (dims : list subslice) : Z :=
  match dims with
  | [] => 0
  | sub :: rest =>
      (match sub with Newaxis => 0 | _ => 1 end) + src_axes rest
  end.
Fixpoint dst_axes (dims : list subslice) : Z :=
  match dims with
  | [] => 0
  | sub :: rest =>
      (match sub with IntIndex _ => 0 | _ => 1 end) + dst_axes rest
  end.

(** The byte offset of an element: the sum of its indices times the
    strides of their axes. *)
Definition element_offset (strides indices : list Z) : Z :=
  foldr Z.add 0 (zip_with Z.mul strides indices).

End ArraySlicing.

(** ** Shared-memory arrays ([numbapro/_cuda/transform.py]) *)

Module CudaTransform.

(** The loop of [CudaSMemArrayCallNode.__init__] over the extents that are
    left: each appends the last stride so far times the extent.
    [tmp_strides[-1]] raises on an empty list. *)
Fixpoint tmp_strides_loop (extents : list Z) (tmp_strides : list Z)
    : option (list Z) :=
  match extents with
  | [] => Some tmp_strides
  | s :: rest =>
      prev ← last tmp_strides;
      tmp_strides_loop rest (tmp_strides ++ [prev * s])
  end.

(** The strides [CudaSMemArrayCallNode.__init__] computes for a shape and
    the size of an element. *)
Definition smem_strides (shape : list Z) (itemsize : Z) : option (list Z) :=
  tmp_strides ← tmp_strides_loop (reverse (drop 1 shape)) [itemsize];
  Some (reverse tmp_strides).

(** The product of a list of extents. *)
Definition product (l : list Z) : Z := foldr Z.mul 1 l.

End CudaTransform.
(** ** The boxed/native bridge ([numba/pythonapi.py])

    [PythonAPI] is a code generator: its methods append instructions to the
    function under construction through [self.builder] and hand back the
    values those instructions define.  The embedding keeps that staging.
    [LLVM] is the fragment of the instruction set the bridge emits, with an
    executable semantics over an arbitrary object runtime; [PythonAPI]
    holds the generator methods, which produce that code. *)

Module LLVM.

#[local] Set Warnings "-register-all".

(** *** Values and instructions *)

Inductive value :=
  | VInt (w : Z) (n : Z)       (* an integer of [w] bits, as its unsigned residue *)
  | VPtr (a : Z)               (* an address outside the frame; 0 is NULL *)
  | VSlot (s : nat)            (* the address of a stack slot of the frame *)
  | VStr (s : string)          (* the address of a constant C string *)
  | VDouble (bits : Z)
  | VFloat (bits : Z)
  | VAgg (fields : list value) (* a structure or an array, by value *)
  | VUndef.

Inductive operand :=
  | Reg (r : nat)              (* the value an instruction defined *)
  | Const (v : value)
  | Global (name : string).    (* the address of a symbol *)

Inductive pred := EQ | NE | SGE | SLE | ULE.

Inductive rhs :=
  | Call (fn : string) (args : list operand)
  | Icmp (p : pred) (a b : operand)
  | IsNull (a : operand)       (* icmp eq a, null-of-its-type *)
  | IsNotNull (a : operand)    (* icmp ne null-of-its-type, a *)
  | Trunc (a : operand) (w : Z)
  | Zext (a : operand) (w : Z)
  | Sext (a : operand) (w : Z)
  | FPTrunc (a : operand)
  | FPExt (a : operand)
  | Bitcast (a : operand)
  | Or (a b : operand)
  | And (a b : operand)
  | Not (a : operand)
  | Load (ptr : operand)
  | ExtractValue (agg : operand) (i : nat)
  | InsertValue (agg v : operand) (i : nat)
  | GeneratorState (obj : operand)
  | CountUntilNull (ptr : operand) (fullsize : Z).

(** Structured code: the bridge only branches through the [if]/[else]
    context managers of [cgutils]. *)
Inductive code :=
  | Skip
  | Seq (c1 c2 : code)
  | Let (dst : nat) (r : rhs)
  | Store (v ptr : operand)
  | IfElse (cond : operand) (c1 c2 : code).

(** *** The object runtime

    What the generated code runs against: the state of the interpreter, the
    functions it exports (which may also write through the stack addresses
    they are handed), the addresses of its symbols, what its memory holds,
    and the two floating-point conversions. *)
Record runtime := {
  world : Type;
  extcall : string -> list value -> world -> gmap nat value
            -> value * world * gmap nat value;
  symbol : string -> Z;
  peek : world -> Z -> value;
  fpext : Z -> Z;
  fptrunc : Z -> Z
}.

Record machine (rt : runtime) := {
  regs : gmap nat value;
  mem : gmap nat value;
  state : world rt;
  trace : list (string * list value)
}.
Arguments regs {rt} _.
Arguments mem {rt} _.
Arguments state {rt} _.
Arguments trace {rt} _.

Definition b2v (b : bool) : value := VInt 1 (if b then 1 else 0).

Definition to_signed (w n : Z) : Z :=
  if decide (n < 2 ^ (w - 1)) then n else n - 2 ^ w.

Definition icmp (p : pred) (a b : value) : value :=
  match a, b with
  | VInt w x, VInt w' y =>
      if decide (w = w') then
        match p with
        | EQ => b2v (bool_decide (x = y))
        | NE => b2v (bool_decide (x ≠ y))
        | SGE => b2v (bool_decide (to_signed w x >= to_signed w y))
        | SLE => b2v (bool_decide (to_signed w x <= to_signed w y))
        | ULE => b2v (bool_decide (x <= y))
        end
      else VUndef
  | VPtr x, VPtr y =>
      match p with
      | EQ => b2v (bool_decide (x = y))
      | NE => b2v (bool_decide (x ≠ y))
      | _ => VUndef
      end
  | VSlot x, VSlot y =>
      match p with
      | EQ => b2v (bool_decide (x = y))
      | NE => b2v (bool_decide (x ≠ y))
      | _ => VUndef
      end
  | VPtr _, VSlot _ | VSlot _, VPtr _ =>
      match p with
      | EQ => b2v false
      | NE => b2v true
      | _ => VUndef
      end
  | _, _ => VUndef
  end.

(** Comparison with the null constant of the value's own type. *)
Definition is_zero (v : value) : option bool :=
  match v with
  | VInt _ n => Some (bool_decide (n = 0))
  | VPtr a => Some (bool_decide (a = 0))
  | VSlot _ | VStr _ => Some false
  | _ => None
  end.

Definition truthy (v : value) : bool :=
  match v with
  | VInt 1 1 => true
  | _ => false
  end.

Definition bitop (f : bool -> bool -> bool) (a b : value) : value :=
  match a, b with
  | VInt 1 x, VInt 1 y => b2v (f (bool_decide (x = 1)) (bool_decide (y = 1)))
  | _, _ => VUndef
  end.

Definition is_nul_char (v : value) : bool :=
  match v with
  | VInt 8 0 => true
  | _ => false
  end.

Fixpoint find_nul (i : Z) (chars : list value) : option Z :=
  match chars with
  | [] => None
  | c :: rest => if is_nul_char c then Some i else find_nul (i + 1) rest
  end.

Definition count_until_null (v : value) (fullsize : Z) : value :=
  match v with
  | VAgg chars =>
      match find_nul 0 (take (Z.to_nat fullsize) chars) with
      | Some i => VInt 64 i
      | None => VInt 64 fullsize
      end
  | _ => VUndef
  end.

Section Exec.
Context {rt : runtime}.

Definition eval (m : machine rt) (o : operand) : value :=
  match o with
  | Reg r => default VUndef (regs m !! r)
  | Const v => v
  | Global name => VPtr (symbol rt name)
  end.

Definition load (m : machine rt) (p : value) : value :=
  match p with
  | VSlot s => default VUndef (mem m !! s)
  | VPtr a => peek rt (state m) a
  | _ => VUndef
  end.

(** Instructions other than calls compute a value from the machine. *)
Definition pure_rhs (m : machine rt) (r : rhs) : value :=
  match r with
  | Call _ _ => VUndef
  | Icmp p a b => icmp p (eval m a) (eval m b)
  | IsNull a => from_option b2v VUndef (is_zero (eval m a))
  | IsNotNull a => from_option (fun b => b2v (negb b)) VUndef (is_zero (eval m a))
  | Trunc a w =>
      match eval m a with VInt _ n => VInt w (n mod 2 ^ w) | _ => VUndef end
  | Zext a w =>
      match eval m a with VInt _ n => VInt w n | _ => VUndef end
  | Sext a w =>
      match eval m a with
      | VInt w0 n => VInt w (to_signed w0 n mod 2 ^ w)
      | _ => VUndef
      end
  | FPTrunc a =>
      match eval m a with VDouble d => VFloat (fptrunc rt d) | _ => VUndef end
  | FPExt a =>
      match eval m a with VFloat f => VDouble (fpext rt f) | _ => VUndef end
  | Bitcast a => eval m a
  | Or a b => bitop orb (eval m a) (eval m b)
  | And a b => bitop andb (eval m a) (eval m b)
  | Not a => bitop (fun x _ => negb x) (eval m a) (eval m a)
  | Load p => load m (eval m p)
  | ExtractValue agg i =>
      match eval m agg with
      | VAgg fields => default VUndef (fields !! i)
      | _ => VUndef
      end
  | InsertValue agg v i =>
      match eval m agg with
      | VAgg fields => VAgg (<[i := eval m v]> fields)
      | _ => VUndef
      end
  | GeneratorState obj =>
      match eval m obj with
      | VPtr a => peek rt (state m) a
      | _ => VUndef
      end
  | CountUntilNull p fullsize => count_until_null (load m (eval m p)) fullsize
  end.

Definition set_reg (m : machine rt) (dst : nat) (v : value) : machine rt :=
  {| regs := <[dst := v]> (regs m); mem := mem m; state := state m;
     trace := trace m |}.

Fixpoint exec (c : code) (m : machine rt) : machine rt :=
  match c with
  | Skip => m
  | Seq c1 c2 => exec c2 (exec c1 m)
  | Let dst (Call fn args) =>
      let argv := eval m <$> args in
      let '(r, w, mem') := extcall rt fn argv (state m) (mem m) in
      {| regs := <[dst := r]> (regs m); mem := mem'; state := w;
         trace := trace m ++ [(fn, argv)] |}
  | Let dst r => set_reg m dst (pure_rhs m r)
  | Store v p =>
      match eval m p with
      | VSlot s =>
          {| regs := regs m; mem := <[s := eval m v]> (mem m);
             state := state m; trace := trace m |}
      | _ => m
      end
  | IfElse cond c1 c2 =>
      if truthy (eval m cond) then exec c1 m else exec c2 m
  end.

End Exec.

(** The values a piece of code defines are all named in [lo, hi): what the
    builder guarantees by naming every value afresh. *)
Fixpoint dsts_in (lo hi : nat) (c : code) : Prop :=
  match c with
  | Skip => True
  | Seq c1 c2 => dsts_in lo hi c1 /\ dsts_in lo hi c2
  | Let dst _ => (lo <= dst < hi)%nat
  | Store _ _ => True
  | IfElse _ c1 c2 => dsts_in lo hi c1 /\ dsts_in lo hi c2
  end.

(** An operand is available below [n]: a constant, or a value named
    before. *)
Definition op_lt (n : nat) (o : operand) : Prop :=
  match o with
  | Reg r => (r < n)%nat
  | _ => True
  end.

End LLVM.

Module PythonAPI.
Import LLVM.

#[local] Set Warnings "-register-all".

(** *** Semantic types ([numba.types]) *)

(** A Python object that exists while the function is compiled: its
    identity, its hash (absent when hashing it raises), the identities of
    the objects it compares equal to, what [pickle.dumps] makes of it
    (absent when pickling it raises), and the exceptions that hashing and
    pickling it raise when they do: which ones is up to the object.  Two
    things are left out: a comparison that raises, and a hash that raises
    [KeyError] itself. *)
Record pyconst := {
  py_id : Z;
  py_hash : option Z;
  py_eq : Z -> bool;
  py_pickle : option (list Z);
  py_hash_error : string;
  py_pickle_error : string
}.

Inductive type :=
  | Object (cls : string)
  | pyobject
  | boolean
  | Integer (bitwidth : Z) (signed : bool)
  | float32
  | float64
  | complex64
  | complex128
  | NPDatetime (unit_code : Z)
  | NPTimedelta (unit_code : Z)
  | Record_ (size : Z) (dtype : Z)
  | Array (ndim : nat)
  | Buffer (ndim : nat)
  | Optional (type_ : type)
  | Tuple (types : list type)
  | UniTuple (dtype : type) (count : nat)
  | Generator (state_size : Z) (has_finalizer : bool)
              (llvm_cpython_wrapper_name llvm_finalizer_name : string)
  | ExternalFunctionPointer (get_pointer : option pyconst)
  | none
  | CharSeq (count : Z).

(** [types.signed_domain] and [types.unsigned_domain] *)
Definition in_signed_domain (typ : type) : bool :=
  match typ with
  | Integer w true =>
      bool_decide (w = 8 \/ w = 16 \/ w = 32 \/ w = 64)
  | _ => false
  end.

Definition in_unsigned_domain (typ : type) : bool :=
  match typ with
  | Integer w false =>
      bool_decide (w = 8 \/ w = 16 \/ w = 32 \/ w = 64)
  | _ => false
  end.

(** Iterating over a tuple type yields its element types. *)
Definition iter_types (typ : type) : list type :=
  match typ with
  | Tuple ts => ts
  | UniTuple t n => replicate n t
  | _ => []
  end.

(** *** The builder

    Generating code is a computation over the next fresh value name and
    the module under construction; it appends code and may raise. *)

Inductive pyresult (A : Type) :=
  | Ok (a : A)
  | Raise (exc : string) (msg : string).
Arguments Ok {A} _.
Arguments Raise {A} _ _.

(** A global of the module: a byte array or a literal structure. *)
Inductive ginit :=
  | GBytes (data : list Z)
  | GStruct (fields : list operand).

(** The module: its globals in order of insertion, and the mapping of
    serialized objects [module.__serialized], a dictionary in insertion
    order. *)
Record llmodule := {
  globals : list (string * ginit);
  __serialized : list (pyconst * operand)
}.

Record genstate := {
  fresh : nat;
  module : llmodule
}.

Definition Gen (A : Type) : Type := genstate -> pyresult (A * code * genstate).

#[global] Instance gen_ret : MRet Gen :=
  fun A a st => Ok (a, Skip, st).

#[global] Instance gen_bind : MBind Gen :=
  fun A B f g st =>
    match g st with
    | Ok (a, c1, st1) =>
        match f a st1 with
        | Ok (b, c2, st2) => Ok (b, Seq c1 c2, st2)
        | Raise e msg => Raise e msg
        end
    | Raise e msg => Raise e msg
    end.

Definition raise {A} (exc msg : string) : Gen A := fun _ => Raise exc msg.

(** A builder method: the instruction is appended and its result named. *)
Definition emit (r : rhs) : Gen operand :=
  fun st => Ok (Reg (fresh st), Let (fresh st) r,
                {| fresh := S (fresh st); module := module st |}).

Definition store (v ptr : operand) : Gen unit :=
  fun st => Ok (tt, Store v ptr, st).

(** Modelled from the spec: [cgutils.alloca_once] reserves a slot in the
    entry block of the function, so the slot exists wherever the code that
    follows is placed; nothing is emitted at the current position. *)
Definition alloca_once : Gen operand :=
  fun st => Ok (Const (VSlot (fresh st)), Skip,
                {| fresh := S (fresh st); module := module st |}).

(** Modelled from the spec: [cgutils.alloca_once_value] is [alloca_once]
    followed, at the current position, by a store of the initial value. *)
Definition alloca_once_value (v : operand) : Gen operand :=
  ptr ← alloca_once; store v ptr;; mret ptr.

(** Modelled from the spec: [cgutils.ifelse] places what its two blocks
    emit on the two arms of a branch on [cond]; both blocks are generated,
    and what they computed at generation time stays in scope afterwards. *)
Definition ifelse {A B} (cond : operand) (then_ : Gen A) (orelse : Gen B)
    : Gen (A * B) :=
  fun st =>
    match then_ st with
    | Ok (a, c1, st1) =>
        match orelse st1 with
        | Ok (b, c2, st2) => Ok ((a, b), IfElse cond c1 c2, st2)
        | Raise e msg => Raise e msg
        end
    | Raise e msg => Raise e msg
    end.

(** Modelled from the spec: [cgutils.ifthen], [cgutils.if_likely] and
    [cgutils.if_unlikely] are one-armed branches (the last two only add a
    branch weight). *)
Definition ifthen {A} (cond : operand) (body : Gen A) : Gen A :=
  '(a, _) ← ifelse cond body (mret tt); mret a.
Definition if_likely {A} := @ifthen A.
Definition if_unlikely {A} := @ifthen A.

(** Modelled from the spec: [cgutils.is_null], [cgutils.is_not_null] and
    [cgutils.is_false] compare with the null constant of the value's
    type. *)
Definition is_null (val : operand) : Gen operand := emit (IsNull val).
Definition is_not_null (val : operand) : Gen operand := emit (IsNotNull val).
Definition is_false (val : operand) : Gen operand := emit (IsNull val).

Definition false_bit : operand := Const (VInt 1 0).

(** Modelled from the spec: [cgutils.pack_array] and
    [cgutils.make_anonymous_struct] build an aggregate by inserting the
    values one by one into an undefined aggregate of the right size.  An
    array has the type of its first value: without a value,
    [pack_array] raises [IndexError]. *)
Fixpoint insert_values (agg : operand) (i : nat) (values : list operand)
    : Gen operand :=
  match values with
  | [] => mret agg
  | v :: rest =>
      agg ← emit (InsertValue agg v i);
      insert_values agg (S i) rest
  end.

Definition undef_agg (n : nat) : operand := Const (VAgg (replicate n VUndef)).

Definition pack_array (values : list operand) : Gen operand :=
  match values with
  | [] => raise "IndexError" "list index out of range"
  | _ => insert_values (undef_agg (length values)) 0 values
  end.
Definition make_anonymous_struct (values : list operand) : Gen operand :=
  insert_values (undef_agg (length values)) 0 values.

(** Modelled from the spec: a [cgutils.Structure] proxy lives in a stack
    slot; reading a field loads it, writing a field stores it, [_getvalue]
    loads the whole structure and [_getpointer] is the slot's address. *)
Definition Structure (nfields : nat) (value : option operand) : Gen operand :=
  match value with
  | Some v => alloca_once_value v
  | None => alloca_once_value (undef_agg nfields)
  end.
Definition getfield (ref : operand) (i : nat) : Gen operand :=
  s ← emit (Load ref); emit (ExtractValue s i).
Definition setfield (ref : operand) (i : nat) (v : operand) : Gen unit :=
  s ← emit (Load ref); s ← emit (InsertValue s v i); store s ref.
Definition _getvalue (ref : operand) : Gen operand := emit (Load ref).

(** Modelled from the spec: the optional of [context.make_optional_none] is
    the "absent" value of the two-field layout (data, valid), and that of
    [context.make_optional_value] the "present" one around its data. *)
Definition make_optional_none : Gen operand :=
  mret (Const (VAgg [VUndef; VInt 1 0])).
Definition make_optional_value (value : operand) : Gen operand :=
  agg ← emit (InsertValue (Const (VAgg [VUndef; VInt 1 0])) value 0);
  emit (InsertValue agg (Const (VInt 1 1)) 1).

(** *** [NativeValue] *)

Record NativeValue := {
  value : operand;
  is_error : operand;
  cleanup : option (Gen unit)
}.

(** [NativeValue.__init__] *)
Definition mkNativeValue (value : operand) (is_error : option operand)
    (cleanup : option (Gen unit)) : NativeValue :=
  {| value := value;
     is_error := match is_error with Some e => e | None => false_bit end;
     cleanup := cleanup |}.

(** *** The C API wrappers *)

Definition incref (obj : operand) : Gen unit :=
  emit (Call "Py_IncRef" [obj]);; mret tt.
Definition decref (obj : operand) : Gen unit :=
  emit (Call "Py_DecRef" [obj]);; mret tt.

Definition err_occurred : Gen operand := emit (Call "PyErr_Occurred" []).

(** [get_c_object]: the address of a symbol of the runtime. *)
Definition get_c_object (name : string) : operand := Global name.

(** [err_set_string] with both arguments given as Python strings. *)
Definition err_set_string (exctype msg : string) : Gen unit :=
  emit (Call "PyErr_SetString" [get_c_object exctype; Const (VStr msg)]);;
  mret tt.

Definition float_from_double (fval : operand) : Gen operand :=
  emit (Call "PyFloat_FromDouble" [fval]).
Definition number_long (numobj : operand) : Gen operand :=
  emit (Call "PyNumber_Long" [numobj]).
Definition long_as_ulonglong (numobj : operand) : Gen operand :=
  emit (Call "PyLong_AsUnsignedLongLong" [numobj]).
Definition long_as_longlong (numobj : operand) : Gen operand :=
  emit (Call "PyLong_AsLongLong" [numobj]).
Definition long_as_voidptr (numobj : operand) : Gen operand :=
  emit (Call "PyLong_AsVoidPtr" [numobj]).
Definition number_float (val : operand) : Gen operand :=
  emit (Call "PyNumber_Float" [val]).
Definition float_as_double (fobj : operand) : Gen operand :=
  emit (Call "PyFloat_AsDouble" [fobj]).
Definition bool_from_long (ival : operand) : Gen operand :=
  emit (Call "PyBool_FromLong" [ival]).
Definition complex_from_doubles (realval imagval : operand) : Gen operand :=
  emit (Call "PyComplex_FromDoubles" [realval; imagval]).
Definition object_istrue (obj : operand) : Gen operand :=
  emit (Call "PyObject_IsTrue" [obj]).

Definition intp_const (i : Z) : operand := Const (VInt 64 i).
Definition int32_const (i : Z) : operand := Const (VInt 32 i).

Definition tuple_getitem (tup : operand) (idx : nat) : Gen operand :=
  emit (Call "PyTuple_GetItem" [tup; intp_const (Z.of_nat idx)]).
Definition tuple_new (count : nat) : Gen operand :=
  emit (Call "PyTuple_New" [int32_const (Z.of_nat count)]).
Definition tuple_setitem (tuple_val : operand) (index : nat) (item : operand)
    : Gen unit :=
  emit (Call "PyTuple_SetItem" [tuple_val; int32_const (Z.of_nat index); item]);;
  mret tt.

Definition get_null_object : operand := Const (VPtr 0).

Definition call_function_objargs (callee : operand) (objargs : list operand)
    : Gen operand :=
  emit (Call "PyObject_CallFunctionObjArgs"
             (callee :: objargs ++ [Const (VPtr 0)])).

Definition make_none : Gen operand :=
  let obj := get_c_object "Py_None" in
  incref obj;; mret obj.
Definition borrow_none : operand := get_c_object "Py_None".

Definition alloca_buffer : Gen operand :=
  alloca_once_value (Const (VAgg [])).

Definition if_object_ok {A} (obj : operand) (body : Gen A) : Gen A :=
  ok ← is_not_null obj; if_likely ok body.

Definition list_new (szval : operand) : Gen operand :=
  emit (Call "PyList_New" [szval]).
Definition list_setitem (seq idx val : operand) : Gen operand :=
  emit (Call "PyList_SetItem" [seq; idx; val]).

(** The loop of [PythonAPI.list_pack] from index [i] on. *)
Fixpoint list_pack_loop (seq : operand) (i : nat) (items : list operand)
    : Gen unit :=
  match items with
  | [] => mret tt
  | item :: rest =>
      let idx := intp_const (Z.of_nat i) in
      incref item;;
      list_setitem seq idx item;;
      list_pack_loop seq (S i) rest
  end.

(** [PythonAPI.list_pack] *)
Definition list_pack (items : list operand) : Gen operand :=
  let n := length items in
  seq ← list_new (intp_const (Z.of_nat n));
  if_object_ok seq (list_pack_loop seq 0 items);;
  mret seq.

Definition numba_array_adaptor (ary ptr : operand) : Gen operand :=
  emit (Call "numba_adapt_ndarray" [ary; ptr]).
Definition numba_buffer_adaptor (buf ptr : operand) : Gen operand :=
  emit (Call "numba_adapt_buffer" [buf; ptr]).
Definition complex_adaptor (cobj cmplx : operand) : Gen operand :=
  emit (Call "numba_complex_adaptor" [cobj; cmplx]).
Definition extract_record_data (obj pbuf : operand) : Gen operand :=
  emit (Call "numba_extract_record_data" [obj; pbuf]).
Definition get_buffer (obj pbuf : operand) : Gen operand :=
  emit (Call "numba_get_buffer" [obj; pbuf]).
Definition release_buffer (pbuf : operand) : Gen unit :=
  emit (Call "numba_release_buffer" [pbuf]);; mret tt.
Definition extract_np_datetime (obj : operand) : Gen operand :=
  emit (Call "numba_extract_np_datetime" [obj]).
Definition extract_np_timedelta (obj : operand) : Gen operand :=
  emit (Call "numba_extract_np_timedelta" [obj]).
Definition create_np_datetime (val : operand) (unit_code : Z) : Gen operand :=
  emit (Call "numba_create_np_datetime" [val; int32_const unit_code]).
Definition create_np_timedelta (val : operand) (unit_code : Z) : Gen operand :=
  emit (Call "numba_create_np_timedelta" [val; int32_const unit_code]).
Definition recreate_record (pdata size dtypeaddr : operand) : Gen operand :=
  emit (Call "numba_recreate_record" [pdata; size; dtypeaddr]).

(** *** Serialization ([serialize_object], [unserialize]) *)

(** Looking a key up in a Python dictionary: when hashing the key raises,
    the lookup raises what the hashing raised; otherwise the first entry
    whose key is the same object, or has the same hash and compares equal,
    is the match; without one the lookup raises [KeyError]. *)
Inductive lookup_result (A : Type) :=
  | Found (a : A)
  | KeyError
  | HashRaised.
Arguments Found {A} _.
Arguments KeyError {A}.
Arguments HashRaised {A}.

Definition key_matches (h : Z) (obj key : pyconst) : bool :=
  bool_decide (py_id key = py_id obj)
  || (bool_decide (py_hash key = Some h) && py_eq key (py_id obj)).

Fixpoint dict_find {A} (h : Z) (obj : pyconst) (d : list (pyconst * A))
    : lookup_result A :=
  match d with
  | [] => KeyError
  | (key, a) :: rest =>
      if key_matches h obj key then Found a else dict_find h obj rest
  end.

Definition dict_getitem {A} (d : list (pyconst * A)) (obj : pyconst)
    : lookup_result A :=
  match py_hash obj with
  | None => HashRaised
  | Some h => dict_find h obj d
  end.

(** [d[obj] = a] on a dictionary that has no entry matching [obj]. *)
Definition dict_setitem_new {A} (d : list (pyconst * A)) (obj : pyconst) (a : A)
    : list (pyconst * A) :=
  d ++ [(obj, a)].

(** Modelled from the spec: [context.insert_unique_const] adds a constant
    global of the given name to the module, unless the module has a global
    of that name already, and returns the global. *)
Definition insert_unique_const (name : string) (val : ginit) : Gen operand :=
  fun st =>
    let m := module st in
    let gs := if bool_decide (name ∈ (globals m).*1) then globals m
              else globals m ++ [(name, val)] in
    Ok (Global name, Skip,
        {| fresh := fresh st;
           module := {| globals := gs; __serialized := __serialized m |} |}).

Definition get_serialized : Gen (list (pyconst * operand)) :=
  fun st => Ok (__serialized (module st), Skip, st).

Definition set_serialized (d : list (pyconst * operand)) : Gen unit :=
  fun st =>
    Ok (tt, Skip,
        {| fresh := fresh st;
           module := {| globals := globals (module st); __serialized := d |} |}).

(** [pickle.dumps(obj, protocol=-1)]: the bytes, or the exception pickling
    the object raises, which goes on to the caller. *)
Definition pickle_dumps (obj : pyconst) : Gen (list Z) :=
  match py_pickle obj with
  | Some data => mret data
  | None => raise (py_pickle_error obj) "raised while pickling the object"
  end.

(** [PythonAPI.serialize_object] *)
Definition serialize_object (obj : pyconst) : Gen operand :=
  d ← get_serialized;
  match dict_getitem d obj with
  | Found gv => mret gv
  | HashRaised =>
      (* only KeyError is caught: any other exception of the lookup goes on
         to the caller *)
      raise (py_hash_error obj) "raised while hashing the object"
  | KeyError =>
      (* First make the array constant *)
      data ← pickle_dumps obj;
      let name := ".const.pickledata." +:+ pretty (py_id obj) in
      let bdata := GBytes data in
      arr ← insert_unique_const name bdata;
      (* Then populate the structure constant *)
      let struct := GStruct [arr; Const (VInt 32 (Z.of_nat (length data)))] in
      let name := ".const.picklebuf." +:+ pretty (py_id obj) in
      gv ← insert_unique_const name struct;
      (* Make the id() (and hence the name) unique while populating the module. *)
      d ← get_serialized;
      set_serialized (dict_setitem_new d obj gv);;
      mret gv
  end.

(** [PythonAPI.unserialize] *)
Definition unserialize (structptr : operand) : Gen operand :=
  s ← emit (Load structptr);
  ptr ← emit (ExtractValue s 0);
  s ← emit (Load structptr);
  n ← emit (ExtractValue s 1);
  emit (Call "numba_unpickle" [ptr; n]).

(** *** Boxed to native *)

(** [c_api_error], local to [to_native_value] *)
Definition c_api_error : Gen operand :=
  e ← err_occurred; is_not_null e.

(** [PythonAPI.to_native_int] *)
Definition to_native_int (obj : operand) (bitwidth : Z) (signed : bool)
    : Gen operand :=
  val ← alloca_once;
  longobj ← number_long obj;
  if_object_ok longobj (
    llval ← (if signed then long_as_longlong longobj
             else long_as_ulonglong longobj);
    decref longobj;;
    t ← emit (Trunc llval bitwidth);
    store t val);;
  emit (Load val).

(** [PythonAPI.to_native_buffer] *)
Definition to_native_buffer (obj : operand) : Gen NativeValue :=
  buf ← alloca_buffer;
  res ← get_buffer obj buf;
  is_error ← is_not_null res;
  aryptr ← Structure 4 None;
  ok ← emit (Not is_error);
  if_likely ok (
    ptr ← emit (Bitcast aryptr);
    numba_buffer_adaptor buf ptr);;
  let cleanup := release_buffer buf in
  v ← emit (Load aryptr);
  mret (mkNativeValue v (Some is_error) (Some cleanup)).

(** [PythonAPI.to_native_array] *)
Definition to_native_array (ary : operand) : Gen (operand * operand) :=
  aryptr ← Structure 4 None;
  ptr ← emit (Bitcast aryptr);
  errcode ← numba_array_adaptor ary ptr;
  failed ← is_not_null errcode;
  v ← emit (Load aryptr);
  mret (v, failed).

(** [PythonAPI.to_native_optional]; [to_native_value] stands for the
    method of that name, applied to the optional's underlying type. *)
Definition to_native_optional (to_native_value : operand -> Gen NativeValue)
    (obj : operand) : Gen NativeValue :=
  noneval ← make_optional_none;
  is_not_none ← emit (Icmp NE obj borrow_none);
  retptr ← alloca_once;
  errptr ← alloca_once_value false_bit;
  '(native, _) ← ifelse is_not_none
      (native ← to_native_value obj;
       just ← make_optional_value (value native);
       store just retptr;;
       store (is_error native) errptr;;
       mret native)
      (store (Const VUndef) retptr;;
       store noneval retptr);
  let cleanup :=
    match cleanup native with
    | Some native_cleanup => Some (ifthen is_not_none native_cleanup)
    | None => None
    end in
  ret ← emit (Load retptr);
  err ← emit (Load errptr);
  mret (mkNativeValue ret (Some err) cleanup).

(** The loop of [PythonAPI.to_native_tuple] over the element types from
    index [i] on, with its three accumulators. *)
Fixpoint to_native_tuple_loop
    (convs : list (operand -> Gen NativeValue)) (obj : operand) (i : nat)
    (values : list operand) (cleanups : list (Gen unit)) (is_error' : operand)
    : Gen (list operand * list (Gen unit) * operand) :=
  match convs with
  | [] => mret (values, cleanups, is_error')
  | to_native_value :: rest =>
      elem ← tuple_getitem obj i;
      native ← to_native_value elem;
      let values := values ++ [value native] in
      is_error' ← emit (Or is_error' (is_error native));
      let cleanups :=
        match cleanup native with
        | Some c => cleanups ++ [c]
        | None => cleanups
        end in
      to_native_tuple_loop rest obj (S i) values cleanups is_error'
  end.

(** Calling the functions of a list in order. *)
Fixpoint call_all (funcs : list (Gen unit)) : Gen unit :=
  match funcs with
  | [] => mret tt
  | func :: rest => func;; call_all rest
  end.

(** [PythonAPI.to_native_tuple]; [convs] holds, per element type, the
    method [to_native_value] applied to it. *)
Definition to_native_tuple (convs : list (operand -> Gen NativeValue))
    (is_unituple : bool) (obj : operand) : Gen NativeValue :=
  '(values, cleanups, is_error') ←
     to_native_tuple_loop convs obj 0 [] [] false_bit;
  let cleanup :=
    match cleanups with
    | [] => None
    | _ => Some (call_all (reverse cleanups))
    end in
  value ← (if is_unituple then pack_array values
           else make_anonymous_struct values);
  mret (mkNativeValue value (Some is_error') cleanup).

(** [PythonAPI.to_native_generator] *)
Definition to_native_generator (obj : operand) : Gen NativeValue :=
  value ← emit (GeneratorState obj);
  mret (mkNativeValue value None None).

(** [PythonAPI.to_native_value] *)
Fixpoint to_native_value (obj : operand) (typ : type) {struct typ}
    : Gen NativeValue :=
  match typ with
  | Object _ | pyobject => mret (mkNativeValue obj None None)
  | boolean =>
      istrue ← object_istrue obj;
      val ← emit (IsNotNull istrue);
      err ← c_api_error;
      mret (mkNativeValue val (Some err) None)
  | Integer bitwidth signed =>
      val ← to_native_int obj bitwidth signed;
      err ← c_api_error;
      mret (mkNativeValue val (Some err) None)
  | float32 =>
      fobj ← number_float obj;
      fval ← float_as_double fobj;
      decref fobj;;
      val ← emit (FPTrunc fval);
      err ← c_api_error;
      mret (mkNativeValue val (Some err) None)
  | float64 =>
      fobj ← number_float obj;
      val ← float_as_double fobj;
      decref fobj;;
      err ← c_api_error;
      mret (mkNativeValue val (Some err) None)
  | complex128 | complex64 =>
      cplx ← Structure 2 None;
      ok ← complex_adaptor obj cplx;
      failed ← is_false ok;
      if_unlikely failed
        (err_set_string "PyExc_TypeError"
           (match typ with
            | complex64 => "conversion to complex64 failed"
            | _ => "conversion to complex128 failed"
            end));;
      match typ with
      | complex64 =>
          c64 ← Structure 2 None;
          re ← getfield cplx 0;
          freal ← emit (FPTrunc re);
          im ← getfield cplx 1;
          fimag ← emit (FPTrunc im);
          setfield c64 0 freal;;
          setfield c64 1 fimag;;
          v ← _getvalue c64;
          mret (mkNativeValue v (Some failed) None)
      | _ =>
          v ← _getvalue cplx;
          mret (mkNativeValue v (Some failed) None)
      end
  | NPDatetime _ =>
      val ← extract_np_datetime obj;
      err ← c_api_error;
      mret (mkNativeValue val (Some err) None)
  | NPTimedelta _ =>
      val ← extract_np_timedelta obj;
      err ← c_api_error;
      mret (mkNativeValue val (Some err) None)
  | Record_ _ _ =>
      buf ← alloca_buffer;
      ptr ← extract_record_data obj buf;
      is_error ← is_null ptr;
      val ← emit (Bitcast ptr);
      let cleanup := release_buffer buf in
      mret (mkNativeValue val (Some is_error) (Some cleanup))
  | Array _ =>
      '(val, failed) ← to_native_array obj;
      mret (mkNativeValue val (Some failed) None)
  | Buffer _ => to_native_buffer obj
  | Optional type_ =>
      to_native_optional (fun obj => to_native_value obj type_) obj
  | Tuple types =>
      to_native_tuple
        (List.map (fun eltype obj => to_native_value obj eltype) types)
        false obj
  | UniTuple dtype count =>
      to_native_tuple
        (replicate count (fun obj => to_native_value obj dtype))
        true obj
  | Generator _ _ _ _ => to_native_generator obj
  | ExternalFunctionPointer (Some get_pointer) =>
      (* Call get_pointer() on the object to get the raw pointer value *)
      ret ← alloca_once_value (Const (VPtr 0));
      ser ← serialize_object get_pointer;
      get_pointer ← unserialize ser;
      ok ← is_not_null get_pointer;
      if_likely ok (
        intobj ← call_function_objargs get_pointer [obj];
        decref get_pointer;;
        ok ← is_not_null intobj;
        if_likely ok (
          ptr ← long_as_voidptr intobj;
          decref intobj;;
          p ← emit (Bitcast ptr);
          store p ret));;
      v ← emit (Load ret);
      err ← c_api_error;
      mret (mkNativeValue v (Some err) None)
  | ExternalFunctionPointer None | none | CharSeq _ =>
      raise "NotImplementedError" "cannot convert to native value"
  end.

(** *** Native to boxed *)

(** What the bridge reads from its environment: the version of the
    interpreter ([numba.config.PYVERSION]) and the width of a C [long]. *)
Record config := {
  PYVERSION : nat * nat;
  long_bits : Z
}.

Section FromNative.
Context (cfg : config).

(** [_helperlib.long_max] and [_helperlib.long_min] *)
Definition long_max : Z := 2 ^ (long_bits cfg - 1) - 1.
Definition long_min : Z := - 2 ^ (long_bits cfg - 1).

Definition python2 : bool := bool_decide (fst (PYVERSION cfg) < 3)%nat.

(** [Constant.int(ty, n)]: the constant [n] in a type of [w] bits. *)
Definition const_int (w n : Z) : operand := Const (VInt w (n mod 2 ^ w)).

(** [PythonAPI._long_from_native_int] *)
Definition _long_from_native_int (ival : operand) (func_name : string)
    (native_int_bits : Z) (signed : bool) : Gen operand :=
  resptr ← alloca_once;
  (if python2 then
     (* Under Python 2, we try to return a PyInt object whenever
        the given number fits in a C long. *)
     let long_max := const_int native_int_bits long_max in
     use_pyint ←
       (if signed then
          let long_min := const_int native_int_bits long_min in
          ge ← emit (Icmp SGE ival long_min);
          le ← emit (Icmp SLE ival long_max);
          emit (And ge le)
        else emit (Icmp ULE ival long_max));
     ifelse use_pyint
       (downcast_ival ← emit (Trunc ival (long_bits cfg));
        res ← emit (Call "PyInt_FromLong" [downcast_ival]);
        store res resptr)
       (res ← emit (Call func_name [ival]);
        store res resptr);;
     mret tt
   else
     res ← emit (Call func_name [ival]);
     store res resptr);;
  emit (Load resptr).

Definition long_from_longlong (ival : operand) : Gen operand :=
  _long_from_native_int ival "PyLong_FromLongLong" 64 true.
Definition long_from_ulonglong (ival : operand) : Gen operand :=
  _long_from_native_int ival "PyLong_FromUnsignedLongLong" 64 false.

Definition bytes_from_string_and_size (string size : operand) : Gen operand :=
  emit (Call (if python2 then "PyString_FromStringAndSize"
              else "PyBytes_FromStringAndSize") [string; size]).

(** Modelled from the spec: the array structure of [context.make_array]
    keeps the boxed object the view came from in its first field,
    [parent]. *)
Definition array_parent_field : nat := 0.

(** [PythonAPI.from_native_array] *)
Definition from_native_array (ary : operand) : Gen operand :=
  nativeary ← Structure 4 (Some ary);
  parent ← getfield nativeary array_parent_field;
  incref parent;;
  mret parent.

(** The loop of [PythonAPI.from_native_tuple] from index [i] on;
    [convs] holds, per element type, [from_native_value] applied to it. *)
Fixpoint from_native_tuple_loop (convs : list (operand -> Gen operand))
    (val tuple_val : operand) (i : nat) : Gen unit :=
  match convs with
  | [] => mret tt
  | from_native_value :: rest =>
      item ← emit (ExtractValue val i);
      obj ← from_native_value item;
      tuple_setitem tuple_val i obj;;
      from_native_tuple_loop rest val tuple_val (S i)
  end.

(** [PythonAPI.from_native_tuple] *)
Definition from_native_tuple (convs : list (operand -> Gen operand))
    (val : operand) : Gen operand :=
  tuple_val ← tuple_new (length convs);
  from_native_tuple_loop convs val tuple_val 0;;
  mret tuple_val.

(** [PythonAPI.from_native_generator], with [env] left at its default *)
Definition from_native_generator (val : operand) (state_size : Z)
    (has_finalizer : bool) (wrapper_name finalizer_name : string)
    : Gen operand :=
  let genfn := Global wrapper_name in
  let finalizer := if has_finalizer then Global finalizer_name
                   else Const (VPtr 0) in
  let state_size := intp_const state_size in
  initial_state ← emit (Bitcast val);
  let env := get_null_object in
  env ← emit (Bitcast env);
  emit (Call "numba_make_generator"
             [state_size; initial_state; genfn; finalizer; env]).

(** [PythonAPI.from_native_charseq]; the loop that looks for the first
    null byte is the one instruction [CountUntilNull]. *)
Definition from_native_charseq (val : operand) (count : Z) : Gen operand :=
  rawptr ← alloca_once_value val;
  strptr ← emit (Bitcast rawptr);
  strlen ← emit (CountUntilNull strptr count);
  bytes_from_string_and_size strptr strlen.

(** [PythonAPI.from_native_value] *)
Fixpoint from_native_value (val : operand) (typ : type) {struct typ}
    : Gen operand :=
  match typ with
  | pyobject => mret val
  | boolean =>
      longval ← emit (Zext val (long_bits cfg));
      bool_from_long longval
  | Integer _ _ =>
      if in_unsigned_domain typ then
        ullval ← emit (Zext val 64);
        long_from_ulonglong ullval
      else if in_signed_domain typ then
        ival ← emit (Sext val 64);
        long_from_longlong ival
      else raise "NotImplementedError" "from_native_value"
  | float32 =>
      dbval ← emit (FPExt val);
      float_from_double dbval
  | float64 => float_from_double val
  | complex128 =>
      cval ← Structure 2 (Some val);
      re ← getfield cval 0;
      im ← getfield cval 1;
      complex_from_doubles re im
  | complex64 =>
      cval ← Structure 2 (Some val);
      re ← getfield cval 0;
      freal ← emit (FPExt re);
      im ← getfield cval 1;
      fimag ← emit (FPExt im);
      complex_from_doubles freal fimag
  | NPDatetime unit_code => create_np_datetime val unit_code
  | NPTimedelta unit_code => create_np_timedelta val unit_code
  | none => make_none
  | Optional type_ => from_native_value val type_
  | Array _ => from_native_array val
  | Record_ size dtype =>
      (* Note we will create a copy of the record
         This is the only safe way. *)
      let size := int32_const size in
      ptr ← emit (Bitcast val);
      let dtypeobj := Const (VPtr dtype) in
      recreate_record ptr size dtypeobj
  | Tuple types =>
      from_native_tuple
        (List.map (fun dtype item => from_native_value item dtype) types) val
  | UniTuple dtype count =>
      from_native_tuple
        (replicate count (fun item => from_native_value item dtype)) val
  | Generator state_size has_finalizer wrapper_name finalizer_name =>
      from_native_generator val state_size has_finalizer wrapper_name
                            finalizer_name
  | CharSeq count => from_native_charseq val count
  | Object _ | Buffer _ | ExternalFunctionPointer _ =>
      raise "NotImplementedError" "from_native_value"
  end.

(** [PythonAPI.from_native_return] *)
Definition from_native_return (val : operand) (typ : type) : Gen operand :=
  from_native_value val typ.

(** [ops.index(opstr)], for the list [ops] of [object_richcompare] *)
Definition richcompare_ops : list string :=
  ["<"; "<="; "=="; "!="; ">"; ">="].

Fixpoint index_from (i : nat) (x : string) (l : list string) : option nat :=
  match l with
  | [] => None
  | y :: rest => if String.eqb x y then Some i else index_from (S i) x rest
  end.

(** [PythonAPI.object_richcompare] *)
Definition object_richcompare (lhs rhs : operand) (opstr : string)
    : Gen operand :=
  match index_from 0 opstr richcompare_ops with
  | Some opid =>
      let lopid := int32_const (Z.of_nat opid) in
      emit (Call "PyObject_RichCompare" [lhs; rhs; lopid])
  | None =>
      if String.eqb opstr "is" then
        bitflag ← emit (Icmp EQ lhs rhs);
        from_native_value bitflag boolean
      else if String.eqb opstr "is not" then
        bitflag ← emit (Icmp NE lhs rhs);
        from_native_value bitflag boolean
      else raise "NotImplementedError" "Unknown operator"
  end.

End FromNative.

(** *** Running generated code *)

(** The start of a compilation: no value named yet, an empty module. *)
Definition genstate0 : genstate :=
  {| fresh := 0; module := {| globals := []; __serialized := [] |} |}.

(** The code a generator emits from a given state. *)
Definition code_of {A} (g : Gen A) (st : genstate) : code :=
  match g st with
  | Ok (_, c, _) => c
  | Raise _ _ => Skip
  end.

(** *** Vocabulary for the properties *)

(** The types that contain no other type. *)
Definition is_leaf (typ : type) : Prop :=
  match typ with
  | Optional _ | Tuple _ | UniTuple _ _ => False
  | _ => True
  end.

(** The identities of the objects an encoding was made for, one per
    encoding, in order. *)
Definition encoded_ids (st : genstate) : list Z :=
  (fun entry => py_id entry.1) <$> __serialized (module st).

(** An example of a compile-time object: a callback with identity 4242
    whose pickle is three bytes long. *)
Definition example_callback : pyconst :=
  {| py_id := 4242; py_hash := Some 265; py_eq := fun _ => false;
     py_pickle := Some [128; 4; 46];
     py_hash_error := "TypeError"; py_pickle_error := "PicklingError" |}.

Definition is_tuple (typ : type) : Prop :=
  match typ with
  | Tuple _ | UniTuple _ _ => True
  | _ => False
  end.

(** The element conversions of a tuple, in order: element [i] is fetched
    into a fresh value and converted, and one more value (the accumulated
    flag) is named before the next element. *)
Inductive tuple_elements (obj : operand)
    : nat -> genstate -> list (operand -> Gen NativeValue)
      -> list NativeValue -> Prop :=
  | tuple_elements_nil i st : tuple_elements obj i st [] []
  | tuple_elements_cons i st conv rest native c stn natives :
      conv (Reg (fresh st)) {| fresh := S (fresh st); module := module st |}
        = Ok (native, c, stn) ->
      tuple_elements obj (S i)
        {| fresh := S (fresh stn); module := module stn |} rest natives ->
      tuple_elements obj i st (conv :: rest) (native :: natives).

(** The code each function of a list emits when they are called in
    order. *)
Fixpoint codes_of (funcs : list (Gen unit)) (st : genstate) : list code :=
  match funcs with
  | [] => []
  | func :: rest =>
      match func st with
      | Ok (_, c, st1) => c :: codes_of rest st1
      | Raise _ _ => []
      end
  end.

(** Running pieces of code one after the other. *)
Definition exec_all {rt : runtime} (cs : list code) (m : machine rt)
    : machine rt :=
  foldl (fun m c => exec c m) m cs.

(** A conversion is well scoped: the code it emits only defines values it
    named itself, and the value and the flag it hands back are constants or
    values named by then. *)
Definition conv_wf (conv : operand -> Gen NativeValue) : Prop :=
  forall obj st nv c st',
    conv obj st = Ok (nv, c, st') ->
    (fresh st <= fresh st')%nat /\
    dsts_in (fresh st) (fresh st') c /\
    (op_lt (fresh st) obj ->
     op_lt (fresh st') (value nv) /\ op_lt (fresh st') (is_error nv)).

(** A boxing conversion is well scoped: the code it emits only defines
    values it named itself, and the object it hands back is a constant or a
    value named by then. *)
Definition box_wf (conv : operand -> Gen operand) : Prop :=
  forall val st obj c st',
    conv val st = Ok (obj, c, st') ->
    (fresh st <= fresh st')%nat /\
    dsts_in (fresh st) (fresh st') c /\
    (op_lt (fresh st) val -> op_lt (fresh st') obj).

(** What [insert_unique_const] makes of the module's globals: a global is
    added under a name the module does not have yet. *)
Definition add_global (name : string) (val : ginit)
    (gs : list (string * ginit)) : list (string * ginit) :=
  if bool_decide (name ∈ gs.*1) then gs else gs ++ [(name, val)].

(** The name of the structure constant made for an object. *)
Definition picklebuf_name (obj : pyconst) : string :=
  ".const.picklebuf." +:+ pretty (py_id obj).

(** The module is well formed: no two globals have the same name, no two
    entries of the cache are for the same object, and each entry holds the
    structure constant named after its object. *)
Definition module_wf (st : genstate) : Prop :=
  NoDup (globals (module st)).*1 /\
  NoDup (encoded_ids st) /\
  Forall (fun entry : pyconst * operand =>
            entry.2 = Global (picklebuf_name entry.1))
         (__serialized (module st)).

(** An object is the same dictionary key as a key of the cache: it is that
    object, or has its hash and compares equal to it. *)
Definition same_key (obj key : pyconst) : Prop :=
  exists h, py_hash obj = Some h /\ key_matches h obj key = true.

(** The calls a list of items is packed with: each item's reference count
    is raised, then the item is stored at its index. *)
Fixpoint pack_calls (seq : LLVM.value) (i : nat) (items : list LLVM.value)
    : list (string * list LLVM.value) :=
  match items with
  | [] => []
  | item :: rest =>
      ("Py_IncRef", [item])
      :: ("PyList_SetItem", [seq; VInt 64 (Z.of_nat i); item])
      :: pack_calls seq (S i) rest
  end.

(** The types [to_native_value] has a conversion for: all but [none],
    character sequences, function pointers without a getter and
    homogeneous tuples of no elements (which cannot be packed), on their
    own or inside an optional or a tuple. *)
Fixpoint can_unbox (typ : type) : bool :=
  match typ with
  | ExternalFunctionPointer None | none | CharSeq _ => false
  | Optional type_ => can_unbox type_
  | Tuple types => forallb can_unbox types
  | UniTuple dtype count =>
      match count with O => false | S _ => can_unbox dtype end
  | _ => true
  end.

(** The types [from_native_value] has a conversion for: all but objects of
    a given class, buffers, function pointers and the integers that are in
    neither domain. *)
Fixpoint can_box (typ : type) : bool :=
  match typ with
  | Object _ | Buffer _ | ExternalFunctionPointer _ => false
  | Integer _ _ => in_unsigned_domain typ || in_signed_domain typ
  | Optional type_ => can_box type_
  | Tuple types => forallb can_box types
  | UniTuple dtype count =>
      match count with O => true | S _ => can_box dtype end
  | _ => true
  end.

(** What generating code comes to: it succeeds, which [b] tells in
    advance, or raises [NotImplementedError], or raises one of the
    exceptions [other]. *)
Definition outcome {A} (other : string -> Prop) (b : bool) (g : Gen A)
    : Prop :=
  forall st,
    match g st with
    | Ok _ => b = true
    | Raise e _ => (b = false /\ e = "NotImplementedError") \/ other e
    end.

(** No other exception, and any other exception. *)
Definition no_other (e : string) : Prop := False.
Definition any_other (e : string) : Prop := True.

End PythonAPI.

(** ** A model of the object runtime

    The functions of the interpreter that the conversions of booleans,
    integers, tuples and records call, over a heap of objects.  Reference
    counts are not modelled: [Py_IncRef] and [Py_DecRef] leave the heap as
    it is. *)

Module CPython.
Import LLVM.

Inductive pyobj :=
  | PyNone
  | PyBool (b : bool)
  | PyInt (z : Z)                (* the machine-word integer of Python 2 *)
  | PyLong (z : Z)
  | PyTuple (items : list Z)     (* the addresses of the items, 0 for NULL *)
  | PyRecord (data : Z)          (* a record scalar and where its bytes are *)
  | PyOther.

Record interp := {
  heap : gmap Z pyobj;
  next : Z;                      (* the address of the next allocation *)
  err : bool                     (* the error indicator *)
}.

Definition none_addr : Z := 8.
Definition true_addr : Z := 16.
Definition false_addr : Z := 24.
Definition exc_addr : Z := 32.
Definition empty_tuple_addr : Z := 40.

Definition symbol (name : string) : Z :=
  if String.eqb name "Py_None" then none_addr else 0.

Definition interp0 : interp :=
  {| heap := {[ none_addr := PyNone; true_addr := PyBool true;
                false_addr := PyBool false; exc_addr := PyOther;
                empty_tuple_addr := PyTuple [] ]};
     next := 64; err := false |}.

Definition alloc (o : pyobj) (w : interp) : Z * interp :=
  (next w, {| heap := <[next w := o]> (heap w); next := next w + 8;
              err := err w |}).

Definition set_err (w : interp) : interp :=
  {| heap := heap w; next := next w; err := true |}.

(** The integer an object stands for, when it is a number. *)
Definition as_integer (o : option pyobj) : option Z :=
  match o with
  | Some (PyLong z) | Some (PyInt z) => Some z
  | Some (PyBool b) => Some (if b then 1 else 0)
  | _ => None
  end.

Definition istrue (o : pyobj) : bool :=
  match o with
  | PyNone => false
  | PyBool b => b
  | PyInt z | PyLong z => bool_decide (z ≠ 0)
  | PyTuple items => bool_decide (items ≠ [])
  | _ => true
  end.

Definition minus_one (w : Z) : value := VInt w (2 ^ w - 1).

Definition extcall (fn : string) (args : list value) (w : interp)
    (mem : gmap nat value) : value * interp * gmap nat value :=
  if String.eqb fn "Py_IncRef" then (VUndef, w, mem)
  else if String.eqb fn "Py_DecRef" then (VUndef, w, mem)
  else if String.eqb fn "PyErr_Occurred" then
    (VPtr (if err w then exc_addr else 0), w, mem)
  else if String.eqb fn "PyObject_IsTrue" then
    match args with
    | [VPtr a] =>
        match heap w !! a with
        | Some o => (VInt 32 (if istrue o then 1 else 0), w, mem)
        | None => (minus_one 32, set_err w, mem)
        end
    | _ => (minus_one 32, set_err w, mem)
    end
  else if String.eqb fn "PyBool_FromLong" then
    match args with
    | [VInt _ n] =>
        (VPtr (if decide (n = 0) then false_addr else true_addr), w, mem)
    | _ => (VPtr 0, set_err w, mem)
    end
  else if String.eqb fn "PyInt_FromLong" then
    match args with
    | [VInt bits n] =>
        let '(a, w) := alloc (PyInt (to_signed bits n)) w in (VPtr a, w, mem)
    | _ => (VPtr 0, set_err w, mem)
    end
  else if String.eqb fn "PyLong_FromLongLong" then
    match args with
    | [VInt bits n] =>
        let '(a, w) := alloc (PyLong (to_signed bits n)) w in (VPtr a, w, mem)
    | _ => (VPtr 0, set_err w, mem)
    end
  else if String.eqb fn "PyLong_FromUnsignedLongLong" then
    match args with
    | [VInt bits n] =>
        let '(a, w) := alloc (PyLong n) w in (VPtr a, w, mem)
    | _ => (VPtr 0, set_err w, mem)
    end
  else if String.eqb fn "PyNumber_Long" then
    match args with
    | [VPtr a] =>
        match heap w !! a with
        | Some (PyLong _) => (VPtr a, w, mem)
        | o =>
            match as_integer o with
            | Some z => let '(a, w) := alloc (PyLong z) w in (VPtr a, w, mem)
            | None => (VPtr 0, set_err w, mem)
            end
        end
    | _ => (VPtr 0, set_err w, mem)
    end
  else if String.eqb fn "PyLong_AsLongLong" then
    match args with
    | [VPtr a] =>
        match as_integer (heap w !! a) with
        | Some z =>
            if decide (- 2 ^ 63 <= z < 2 ^ 63)
            then (VInt 64 (z mod 2 ^ 64), w, mem)
            else (minus_one 64, set_err w, mem)
        | None => (minus_one 64, set_err w, mem)
        end
    | _ => (minus_one 64, set_err w, mem)
    end
  else if String.eqb fn "PyLong_AsUnsignedLongLong" then
    match args with
    | [VPtr a] =>
        match as_integer (heap w !! a) with
        | Some z =>
            if decide (0 <= z < 2 ^ 64)
            then (VInt 64 z, w, mem)
            else (minus_one 64, set_err w, mem)
        | None => (minus_one 64, set_err w, mem)
        end
    | _ => (minus_one 64, set_err w, mem)
    end
  else if String.eqb fn "PyTuple_New" then
    match args with
    | [VInt _ n] =>
        (* there is one empty tuple, which every request for a tuple of
           size 0 is given *)
        if decide (n = 0) then (VPtr empty_tuple_addr, w, mem)
        else
          let '(a, w) := alloc (PyTuple (replicate (Z.to_nat n) 0)) w in
          (VPtr a, w, mem)
    | _ => (VPtr 0, set_err w, mem)
    end
  else if String.eqb fn "PyTuple_SetItem" then
    match args with
    | [VPtr t; VInt _ i; VPtr o] =>
        match heap w !! t with
        | Some (PyTuple items) =>
            if decide (0 <= i < Z.of_nat (length items)) then
              (VInt 32 0,
               {| heap := <[t := PyTuple (<[Z.to_nat i := o]> items)]> (heap w);
                  next := next w; err := err w |}, mem)
            else (minus_one 32, set_err w, mem)
        | _ => (minus_one 32, set_err w, mem)
        end
    | _ => (minus_one 32, set_err w, mem)
    end
  else if String.eqb fn "PyTuple_GetItem" then
    match args with
    | [VPtr t; VInt _ i] =>
        match heap w !! t with
        | Some (PyTuple items) =>
            match items !! Z.to_nat i with
            | Some o => (VPtr o, w, mem)
            | None => (VPtr 0, set_err w, mem)
            end
        | _ => (VPtr 0, set_err w, mem)
        end
    | _ => (VPtr 0, set_err w, mem)
    end
  else if String.eqb fn "numba_extract_record_data" then
    match args with
    | [VPtr a; VSlot buf] =>
        match heap w !! a with
        | Some (PyRecord data) => (VPtr data, w, <[buf := VPtr a]> mem)
        | _ => (VPtr 0, set_err w, mem)
        end
    | _ => (VPtr 0, set_err w, mem)
    end
  else if String.eqb fn "numba_release_buffer" then
    match args with
    | [VSlot buf] => (VUndef, w, <[buf := VAgg []]> mem)
    | _ => (VUndef, w, mem)
    end
  else (VUndef, w, mem).

Definition rt : runtime :=
  {| world := interp;
     LLVM.extcall := extcall;
     LLVM.symbol := symbol;
     peek := fun _ _ => VUndef;
     fpext := fun x => x;
     fptrunc := fun x => x |}.

(** A runtime without a state, each of whose functions returns the same
    value: with NULL, one in which every call fails. *)
Definition always (r : value) : runtime :=
  {| world := unit;
     LLVM.extcall := fun _ _ w mem => (r, w, mem);
     LLVM.symbol := fun _ => 0;
     peek := fun _ _ => VUndef;
     fpext := fun x => x;
     fptrunc := fun x => x |}.

(** A machine at the start of a function, over a given interpreter. *)
Definition machine_of (w : interp) : machine rt :=
  Build_machine rt ∅ ∅ w [].

(** Example conversions, generated at the start of a compilation: the
    object at a given address to an optional 64-bit integer. *)
Definition optional_int64_of (a : Z)
    : PythonAPI.pyresult (PythonAPI.NativeValue * code * PythonAPI.genstate) :=
  PythonAPI.to_native_value (Const (VPtr a))
    (PythonAPI.Optional (PythonAPI.Integer 64 true)) PythonAPI.genstate0.

(** A tuple of two records and an integer, and an interpreter that holds
    two records (at 64 and 72) and a tuple (at 80) of those two and the
    none singleton, which is no integer: converting the tuple fails on its
    last element. *)
Definition two_records_and_int64 : PythonAPI.type :=
  PythonAPI.Tuple [PythonAPI.Record_ 16 900; PythonAPI.Record_ 16 900;
                   PythonAPI.Integer 64 true].

Definition interp_with_tuple : interp :=
  let '(r0, w) := alloc (PyRecord 1000) interp0 in
  let '(r1, w) := alloc (PyRecord 2000) w in
  (alloc (PyTuple [r0; r1; none_addr]) w).2.

(** A tuple of three records: on [interp_with_tuple] the conversion of the
    last element fails, the none singleton being no record. *)
Definition three_records : PythonAPI.type :=
  PythonAPI.Tuple [PythonAPI.Record_ 16 900; PythonAPI.Record_ 16 900;
                   PythonAPI.Record_ 16 900].

(** An interpreter with the integer 5 at address 64. *)
Definition interp_with_5 : interp := (alloc (PyLong 5) interp0).2.

(** What asking a tuple with items [ps] for item [j] gives: the item, or
    NULL past the end of the tuple. *)
Definition item_or_null (ps : list Z) (j : nat) : value :=
  VPtr (default 0 (ps !! j)).

(** The interpreter after the first [count] items of a tuple with items
    [ps] have been asked for: asking past the end sets the error
    indicator. *)
Definition after_getitems (count : nat) (ps : list Z) (w : interp) : interp :=
  if decide (count <= length ps)%nat then w else set_err w.

(** The kinds of value, and their native values, for which boxing and
    unboxing are followed through the model: a boxed object, a bit, an
    integer of one of the widths of the two domains, and a homogeneous
    tuple of one or more boxed objects. *)
Definition round_trip_value (typ : PythonAPI.type) (v : value) : Prop :=
  match typ with
  | PythonAPI.pyobject => exists a, v = VPtr a
  | PythonAPI.boolean => v = VInt 1 0 \/ v = VInt 1 1
  | PythonAPI.Integer w _ =>
      (w = 8 \/ w = 16 \/ w = 32 \/ w = 64) /\
      exists n, v = VInt w n /\ 0 <= n < 2 ^ w
  | PythonAPI.UniTuple PythonAPI.pyobject count =>
      exists ps, v = VAgg (VPtr <$> ps) /\ length ps = count /\ (0 < count)%nat
  | _ => False
  end.

(** An interpreter in which a conversion may start: the two booleans are
    where they belong, objects are allocated above the singletons, and no
    error is pending. *)
Definition interp_ready (w : interp) : Prop :=
  heap w !! true_addr = Some (PyBool true) /\
  heap w !! false_addr = Some (PyBool false) /\
  empty_tuple_addr < next w /\
  err w = false.

(** A configuration: Python 3.4 with a 64-bit [long]. *)
Definition python34 : PythonAPI.config :=
  {| PythonAPI.PYVERSION := (3, 4)%nat; PythonAPI.long_bits := 64 |}.

End CPython.
(** * Properties *)

Module IntpFacts.
Import Intp.

Lemma wrap_in_range z : in_range z -> wrap z = z.
Proof.
  unfold in_range, wrap, min_signed, max_signed, modulus, bits.
  intros H. rewrite Z.mod_small; lia.
Qed.

Lemma wrap_range z : in_range (wrap z).
Proof.
  unfold in_range, wrap, min_signed, max_signed, modulus, bits.
  pose proof (Z.mod_pos_bound (z + 2 ^ (64 - 1)) (2 ^ 64) ltac:(lia)). lia.
Qed.

Lemma max_signed_eq : max_signed = 9223372036854775807.
Proof. reflexivity. Qed.

Lemma min_signed_eq : min_signed = -9223372036854775808.
Proof. reflexivity. Qed.

End IntpFacts.

Module ArraySlicingFacts.
Import Intp IntpFacts ArraySlicing.

Lemma ix_Some l i v : ix l i = Some v -> 0 <= i < Z.of_nat (length l).
Proof.
  unfold ix. case_decide; [|done]. intros Hl%lookup_lt_Some. lia.
Qed.

Lemma ix_set_ix_eq l i v l' :
  set_ix l i v = Some l' -> ix l' i = Some v.
Proof.
  unfold set_ix, ix. case_decide; [|done]. intros [= <-].
  rewrite decide_True by lia. apply list_lookup_insert_eq. lia.
Qed.

Lemma ix_set_ix_ne l i j v l' :
  set_ix l i v = Some l' -> i ≠ j -> ix l' j = ix l j.
Proof.
  unfold set_ix, ix. case_decide; [|done]. intros [= <-] Hne.
  case_decide; [|done]. apply list_lookup_insert_ne. lia.
Qed.

Lemma set_ix_length l i v l' : set_ix l i v = Some l' -> length l' = length l.
Proof.
  unfold set_ix. case_decide; [|done]. intros [= <-]. apply length_insert.
Qed.

Lemma set_ix_is_Some l i v :
  0 <= i < Z.of_nat (length l) -> exists l', set_ix l i v = Some l'.
Proof. intros Hi. unfold set_ix. rewrite decide_True by done. eauto. Qed.

End ArraySlicingFacts.

Module SliceFacts.
Import Intp IntpFacts ArraySlicing ArraySlicingFacts.

Ltac unwrap :=
  repeat match goal with
  | |- context [wrap ?z] => rewrite (wrap_in_range z)
      by (unfold in_range in *; rewrite ?min_signed_eq, ?max_signed_eq in *; lia)
  end.

Lemma adjust_start extent neg start :
  0 <= extent <= max_signed -> given_in_range start ->
  adjust_index extent neg (from_option id 0 start) (Intp.sub extent 1) 0
    true (bool_decide (is_Some start))
  = SliceSpec.start_of extent neg start.
Proof.
  intros He Hs. destruct start as [s|]; unfold given_in_range in Hs.
  - rewrite bool_decide_eq_true_2 by eauto.
    unfold adjust_index, _adjust_given_index, SliceSpec.start_of, add, sub.
    simpl from_option.
    destruct (decide (s < 0)).
    + unwrap. done.
    + case_decide; [|done]. destruct neg; unwrap; done.
  - rewrite bool_decide_eq_false_2 by (intros [? ?]; done).
    unfold adjust_index, _set_default_index, SliceSpec.start_of, sub.
    destruct neg; unwrap; done.
Qed.

Lemma adjust_stop extent neg stop :
  0 <= extent <= max_signed -> given_in_range stop ->
  adjust_index extent neg (from_option id 0 stop) (Intp.neg 1) extent
    false (bool_decide (is_Some stop))
  = SliceSpec.stop_of extent neg stop.
Proof.
  intros He Hs. destruct stop as [s|]; unfold given_in_range in Hs.
  - rewrite bool_decide_eq_true_2 by eauto.
    unfold adjust_index, _adjust_given_index, SliceSpec.stop_of, add.
    simpl from_option.
    destruct (decide (s < 0)).
    + unwrap. done.
    + repeat case_decide; lia.
  - rewrite bool_decide_eq_false_2 by (intros [? ?]; done).
    unfold adjust_index, _set_default_index, SliceSpec.stop_of, Intp.neg.
    destruct neg; unwrap; done.
Qed.

(** Normalized bounds stay within one step of the axis, and a start of
    [extent] or a stop of [-1] only arises for the matching step sign. *)
Lemma start_of_bounds extent neg start :
  0 <= extent ->
  -1 <= SliceSpec.start_of extent neg start <= extent /\
  (neg = true -> SliceSpec.start_of extent neg start <= Z.max 0 (extent - 1)) /\
  (neg = false \/ 0 < extent -> 0 <= SliceSpec.start_of extent neg start).
Proof.
  intros He. unfold SliceSpec.start_of.
  destruct start as [s|], neg; repeat case_decide; lia.
Qed.

Lemma stop_of_bounds extent neg stop :
  0 <= extent ->
  -1 <= SliceSpec.stop_of extent neg stop <= extent /\
  (neg = false -> 0 <= SliceSpec.stop_of extent neg stop).
Proof.
  intros He. unfold SliceSpec.stop_of.
  destruct stop as [s|], neg; repeat case_decide; lia.
Qed.

End SliceFacts.

Module SliceClaims.
Import Intp IntpFacts ArraySlicing ArraySlicingFacts SliceFacts.

Lemma new_extent_step (d step : Z) :
  in_range d -> in_range step -> step ≠ 0 -> d ≠ min_signed ->
  Intp.sdiv d step = Some (Z.quot d step) /\
  Intp.srem d step = Some (Z.rem d step) /\
  (Z.rem d step ≠ 0 -> in_range (Z.quot d step + 1)).
Proof.
  intros Hd Hs Hz Hm. unfold sdiv, srem.
  rewrite !decide_False by tauto. split; [done|]. split; [done|].
  unfold in_range in *. rewrite min_signed_eq, max_signed_eq in *.
  intros Hr. Z.quot_rem_to_equations. nia.
Qed.

Lemma slice_normalized data in_shape in_strides out_shape out_strides
    start stop step src_dim dst_dim extent :
  ix in_shape src_dim = Some extent ->
  is_Some (ix in_strides src_dim) ->
  0 <= dst_dim < Z.of_nat (length out_shape) ->
  0 <= dst_dim < Z.of_nat (length out_strides) ->
  0 <= extent <= max_signed ->
  given_in_range start -> given_in_range stop -> given_in_range step ->
  step ≠ Some 0 ->
  exists r,
    visit_SliceSliceNode data in_shape in_strides out_shape out_strides
                         start stop step src_dim dst_dim = Some r /\
    l_step r = SliceSpec.step_of step /\
    l_start r
      = SliceSpec.start_of extent (bool_decide (SliceSpec.step_of step < 0)) start /\
    l_stop r
      = SliceSpec.stop_of extent (bool_decide (SliceSpec.step_of step < 0)) stop /\
    l_new_extent r
      = SliceSpec.new_extent_of (l_start r) (l_stop r) (l_step r) /\
    ix (out_shape' r) dst_dim = Some (l_new_extent r).
Proof.
  intros Hext [stride Hstr] Hd1 Hd2 He Hstart Hstop Hstep Hnz.
  unfold visit_SliceSliceNode, body. cbn [have_start have_stop have_step].
  rewrite Hstr, Hext. cbn [mbind option_bind].
  assert (Hst : (if bool_decide (is_Some step) then from_option id 0 step else 1)
                = SliceSpec.step_of step).
  { destruct step; [rewrite bool_decide_eq_true_2 by eauto; done|].
    rewrite bool_decide_eq_false_2 by (intros [? ?]; done). done. }
  rewrite Hst. set (st := SliceSpec.step_of step) in *.
  assert (Hsr : in_range st /\ st ≠ 0).
  { subst st. destruct step as [s|]; simpl in *.
    - split; [done|]. congruence.
    - unfold in_range. rewrite min_signed_eq, max_signed_eq. lia. }
  destruct Hsr as [Hsr Hs0].
  set (neg := bool_decide (st < 0)).
  rewrite adjust_start, adjust_stop by done.
  pose proof (start_of_bounds extent neg start ltac:(lia)) as (Ha1 & Ha2 & Ha3).
  pose proof (stop_of_bounds extent neg stop ltac:(lia)) as (Hb1 & Hb2).
  set (a := SliceSpec.start_of extent neg start) in *.
  set (b := SliceSpec.stop_of extent neg stop) in *.
  assert (Hab : in_range (b - a) /\ b - a ≠ min_signed).
  { unfold in_range. rewrite min_signed_eq, max_signed_eq in *.
    destruct neg; [specialize (Ha2 eq_refl)|specialize (Ha3 (or_introl eq_refl));
                                             specialize (Hb2 eq_refl)]; lia. }
  destruct Hab as [Hab Habm].
  unfold Intp.sub at 1 2. rewrite !(wrap_in_range (b - a)) by done.
  destruct (new_extent_step (b - a) st Hab Hsr Hs0 Habm) as (-> & -> & Hq).
  cbn [mbind option_bind].
  set (ne := if decide (_ < 0) then 0 else _).
  assert (Hne : ne = SliceSpec.new_extent_of a b st).
  { subst ne. unfold SliceSpec.new_extent_of, Intp.add.
    destruct (decide (Z.rem (b - a) st ≠ 0)) as [Hr|Hr]; [|done].
    rewrite wrap_in_range by auto. done. }
  destruct (set_ix_is_Some out_shape dst_dim ne Hd1) as [os Hos].
  assert (Hin : exists is' s', (if decide (ne = 1) then set_ix in_strides src_dim 0
                             else Some in_strides) = Some is' /\
                            ix is' src_dim = Some s').
  { case_decide.
    - pose proof (ix_Some _ _ _ Hstr) as Hr.
      destruct (set_ix_is_Some in_strides src_dim 0 Hr) as [is' His].
      exists is', 0. split; [done|]. eapply ix_set_ix_eq; done.
    - exists in_strides, stride. done. }
  destruct Hin as (is' & s' & -> & His'). cbn [mbind option_bind].
  rewrite His'. cbn [mbind option_bind]. rewrite Hos. cbn [mbind option_bind].
  destruct (set_ix_is_Some out_strides dst_dim (Intp.mul s' st) Hd2) as [ot ->].
  cbn [mbind option_bind]. eexists. split; [reflexivity|].
  cbn [l_step l_start l_stop l_new_extent out_shape'].
  repeat split; try done. eapply ix_set_ix_eq; done.
Qed.

(** C3: a single-axis slice normalizes its bounds as the contract words it
    ([SliceSpec], on unbounded integers): an absent step is 1; an absent
    start is [extent-1] for a negative step and 0 otherwise; a given
    negative start has the extent added and is clamped to 0; a given start
    at or beyond the extent becomes [extent-1] for a negative step and
    [extent] otherwise; stop likewise (absent: [-1] or [extent]; negative:
    add the extent, clamp to 0; beyond the extent: [extent]); the new extent
    is the truncated quotient [(stop-start)/step], plus one when the
    remainder is not zero, clamped to 0 when negative, and it is what the
    routine stores in the destination shape.  In particular extent 10 with
    start -3 and step 1 gives start 7 and extent 3, and extent 5 with start
    0, stop 5 and step -1 gives extent 0. *)
Theorem slice_normalization_contract :
  (forall data in_shape in_strides out_shape out_strides
          start stop step src_dim dst_dim extent,
     ix in_shape src_dim = Some extent ->
     is_Some (ix in_strides src_dim) ->
     0 <= dst_dim < Z.of_nat (length out_shape) ->
     0 <= dst_dim < Z.of_nat (length out_strides) ->
     0 <= extent <= max_signed ->
     given_in_range start -> given_in_range stop -> given_in_range step ->
     step ≠ Some 0 ->
     exists r,
       visit_SliceSliceNode data in_shape in_strides out_shape out_strides
                            start stop step src_dim dst_dim = Some r /\
       l_step r = SliceSpec.step_of step /\
       l_start r
         = SliceSpec.start_of extent
             (bool_decide (SliceSpec.step_of step < 0)) start /\
       l_stop r
         = SliceSpec.stop_of extent
             (bool_decide (SliceSpec.step_of step < 0)) stop /\
       l_new_extent r
         = SliceSpec.new_extent_of (l_start r) (l_stop r) (l_step r) /\
       ix (out_shape' r) dst_dim = Some (l_new_extent r)) /\
  (forall data stride,
     (fun r => (l_start r, l_new_extent r)) <$>
       visit_SliceSliceNode data [10] [stride] [0] [0]
                            (Some (-3)) None (Some 1) 0 0
     = Some (7, 3)) /\
  (forall data stride,
     l_new_extent <$>
       visit_SliceSliceNode data [5] [stride] [0] [0]
                            (Some 0) (Some 5) (Some (-1)) 0 0
     = Some 0).
Proof.
  split; [|split].
  - intros. eapply slice_normalized; eassumption.
  - intros. reflexivity.
  - intros. reflexivity.
Qed.

(** The contract at work on the second axis of a 4 x 10 array. *)
Lemma slice_normalization_contract_witness :
  exists r,
    visit_SliceSliceNode 4096 [4; 10] [80; 8] [0; 0] [0; 0]
                         (Some (-3)) None (Some 1) 1 1 = Some r /\
    l_step r = 1 /\ l_start r = 7 /\ l_stop r = 10 /\ l_new_extent r = 3 /\
    ix (out_shape' r) 1 = Some 3.
Proof.
  destruct (proj1 slice_normalization_contract
              4096 [4; 10] [80; 8] [0; 0] [0; 0]
              (Some (-3)) None (Some 1) 1 1 10)
    as (r & Hr & H1 & H2 & H3 & H4 & H5).
  - reflexivity.
  - eexists; reflexivity.
  - simpl; lia.
  - simpl; lia.
  - rewrite max_signed_eq; lia.
  - unfold given_in_range, in_range; rewrite min_signed_eq, max_signed_eq; lia.
  - exact I.
  - unfold given_in_range, in_range; rewrite min_signed_eq, max_signed_eq; lia.
  - discriminate.
  - exists r. rewrite H5, H4, H3, H2, H1. split; [exact Hr|].
    repeat split; reflexivity.
Defined.

(** What [SliceArray.body] returns and stores, in terms of the stride the
    source axis had on entry: off an extent of 1 the pointer is advanced by
    [start * stride] and the stored stride is [stride * step]; at an extent
    of 1 the stride is zeroed before either is computed. *)
Lemma body_pointer_and_stride self data in_shape in_strides out_shape
    out_strides start stop step src_dim dst_dim stride r :
  body self data in_shape in_strides out_shape out_strides
       start stop step src_dim dst_dim = Some r ->
  ix in_strides src_dim = Some stride ->
  (l_new_extent r ≠ 1 ->
     result r = Intp.ptr_add data (Intp.mul (l_start r) stride) /\
     ix (out_strides' r) dst_dim = Some (Intp.mul stride (l_step r)) /\
     in_strides' r = in_strides) /\
  (l_new_extent r = 1 ->
     result r = Intp.ptr_add data 0 /\
     ix (out_strides' r) dst_dim = Some 0 /\
     ix (in_strides' r) src_dim = Some 0).
Proof.
  unfold body. intros Hb Hstr. rewrite Hstr in Hb. cbn [mbind option_bind] in Hb.
  destruct (ix in_shape src_dim) as [extent|]; [|done].
  cbn [mbind option_bind] in Hb.
  destruct (Intp.sdiv _ _) as [q|]; [|done]. cbn [mbind option_bind] in Hb.
  destruct (Intp.srem _ _) as [rm|]; [|done]. cbn [mbind option_bind] in Hb.
  set (ne := if decide (_ < 0) then 0 else _) in *.
  destruct (decide (ne = 1)) as [H1|H1].
  - destruct (set_ix in_strides src_dim 0) as [is'|] eqn:His; [|done].
    cbn [mbind option_bind] in Hb.
    rewrite (ix_set_ix_eq _ _ _ _ His) in Hb. cbn [mbind option_bind] in Hb.
    destruct (set_ix out_shape dst_dim ne) as [os|]; [|done].
    cbn [mbind option_bind] in Hb.
    destruct (set_ix out_strides dst_dim _) as [ot|] eqn:Hot; [|done].
    cbn [mbind option_bind] in Hb. injection Hb as <-.
    cbn [l_new_extent result out_strides' in_strides' l_start l_step].
    split; [done|]. intros _.
    assert (Hm : forall x, Intp.mul x 0 = 0).
    { intros x. unfold Intp.mul. rewrite Z.mul_0_r. reflexivity. }
    assert (Hm' : forall x, Intp.mul 0 x = 0) by reflexivity.
    rewrite Hm in *. rewrite Hm' in Hot.
    repeat split; [|eapply ix_set_ix_eq; done]. eapply ix_set_ix_eq; done.
  - cbn [mbind option_bind] in Hb. rewrite Hstr in Hb.
    cbn [mbind option_bind] in Hb.
    destruct (set_ix out_shape dst_dim ne) as [os|]; [|done].
    cbn [mbind option_bind] in Hb.
    destruct (set_ix out_strides dst_dim _) as [ot|] eqn:Hot; [|done].
    cbn [mbind option_bind] in Hb. injection Hb as <-.
    cbn [l_new_extent result out_strides' in_strides' l_start l_step].
    split; [|done]. intros _.
    repeat split. eapply ix_set_ix_eq; done.
Qed.

(** C2, at the slice [3:4] of an axis of extent 10 and stride 8 whose data
    starts at address 4096: the new extent is 1, so the routine zeroes the
    stride before it computes the pointer and returns 4096, where advancing
    by start times the stride of the source axis gives 4120. *)
Theorem slice_extent_one_pointer :
  (fun r => (result r, l_start r, l_new_extent r, out_strides' r)) <$>
    visit_SliceSliceNode 4096 [10] [8] [0] [0] (Some 3) (Some 4) None 0 0
  = Some (4096, 3, 1, [0]) /\
  Intp.ptr_add 4096 (Intp.mul 3 8) = 4120.
Proof. split; reflexivity. Qed.

End SliceClaims.

Module BroadcastFacts.
Import Intp IntpFacts ArraySlicing ArraySlicingFacts.

Ltac obind H :=
  cbn [mbind option_bind] in H;
  match type of H with
  | context [mbind _ ?o] =>
      let E := fresh "E" in destruct o eqn:E; [|discriminate H];
      cbn [mbind option_bind] in H
  | context [option_bind _ _ _ ?o] =>
      let E := fresh "E" in destruct o eqn:E; [|discriminate H];
      cbn [mbind option_bind] in H
  end.

(** The loop returns 0 or 1 and keeps the lengths of the arrays. *)
Lemma for_range_ret n : forall i off dst src str ret dst' str',
  for_range n i off dst src str = Some (ret, dst', str') ->
  (ret = 0 \/ ret = 1) /\ length dst' = length dst /\ length str' = length str.
Proof.
  induction n as [|n IH]; intros i off dst src str ret dst' str' H; simpl in H.
  - injection H as <- <- <-. auto.
  - obind H. case_decide.
    + obind H. apply IH in H as (? & ? & ->).
      repeat split; try done. eapply set_ix_length; done.
    + obind H. repeat case_decide.
      * obind H. apply IH in H as (? & -> & ?).
        repeat split; try done. eapply set_ix_length; done.
      * injection H as <- <- <-. auto.
      * apply IH in H. done.
Qed.

(** A run that ends with 1 has treated every axis by the rule: an extent
    of 1 zeroes the operand's stride and leaves the destination alone; any
    other extent leaves the stride alone and is the destination's extent
    afterwards, the destination having held 1 or that same extent. *)
Lemma for_range_ok n : forall i off dst src str dst' str',
  for_range n i off dst src str = Some (1, dst', str') ->
  0 <= i ->
  (forall j e, i <= j < i + Z.of_nat n -> ix src j = Some e ->
     (e = 1 -> ix str' j = Some 0 /\ ix dst' (j + off) = ix dst (j + off)) /\
     (e ≠ 1 -> ix str' j = ix str j /\ ix dst' (j + off) = Some e /\
               (ix dst (j + off) = Some 1 \/ ix dst (j + off) = Some e))) /\
  (forall j, ~ i <= j < i + Z.of_nat n -> ix str' j = ix str j) /\
  (forall d, ~ i + off <= d < i + off + Z.of_nat n -> ix dst' d = ix dst d).
Proof.
  induction n as [|n IH]; intros i off dst src str dst' str' H Hi; simpl in H.
  - injection H as <- <-. split; [intros; lia|]. done.
  - obind H. rename z into se.
    case_decide; [subst; obind H; rename l into str1
                 |obind H; rename z into de; repeat case_decide; subst].
    + destruct (IH _ _ _ _ _ _ _ H ltac:(lia)) as (A & B & C).
      split; [|split].
      * intros j e Hj Hsj. destruct (decide (j = i)) as [->|Hne].
        -- rewrite E in Hsj. injection Hsj as <-. split; [|done]. intros _.
           rewrite B by lia. rewrite C by lia.
           split; [eapply ix_set_ix_eq; done|done].
        -- destruct (A j e ltac:(lia) Hsj) as [A1 A2].
           split; [done|]. intros Hne1. destruct (A2 Hne1) as (-> & ? & ?).
           split; [|done]. eapply ix_set_ix_ne; done.
      * intros j Hj. rewrite B by lia. eapply ix_set_ix_ne; [done|lia].
      * intros d Hd. apply C. lia.
    + obind H. rename l into dst1.
      destruct (IH _ _ _ _ _ _ _ H ltac:(lia)) as (A & B & C).
      split; [|split].
      * intros j e Hj Hsj. destruct (decide (j = i)) as [->|Hne].
        -- rewrite E in Hsj. injection Hsj as <-. split; [done|]. intros _.
           rewrite B by lia. rewrite C by lia.
           split; [done|]. split; [eapply ix_set_ix_eq; done|]. left. done.
        -- destruct (A j e ltac:(lia) Hsj) as [A1 A2].
           assert (Hd : ix dst1 (j + off) = ix dst (j + off))
             by (eapply ix_set_ix_ne; [done|lia]).
           rewrite Hd in *. done.
      * intros j Hj. apply B. lia.
      * intros d Hd. rewrite C by lia. eapply ix_set_ix_ne; [done|lia].
    + discriminate.
    + destruct (IH _ _ _ _ _ _ _ H ltac:(lia)) as (A & B & C).
      split; [|split].
      * intros j e Hj Hsj. destruct (decide (j = i)) as [->|Hne].
        -- rewrite E in Hsj. injection Hsj as <-. split; [done|]. intros _.
           rewrite B by lia. rewrite C by lia. auto.
        -- apply A; [lia|done].
      * intros j Hj. apply B. lia.
      * intros d Hd. apply C. lia.
Qed.

(** A run that ends with 0 is the run over the axes before the mismatch:
    what those axes stored is the state on return. *)
Lemma for_range_fail n : forall i off dst src str dst' str',
  for_range n i off dst src str = Some (0, dst', str') ->
  exists m : nat,
    (m < n)%nat /\
    for_range m i off dst src str = Some (1, dst', str') /\
    exists e de,
      ix src (i + Z.of_nat m) = Some e /\
      ix dst' (i + Z.of_nat m + off) = Some de /\
      e ≠ 1 /\ de ≠ 1 /\ e ≠ de.
Proof.
  induction n as [|n IH]; intros i off dst src str dst' str' H; simpl in H.
  - discriminate.
  - obind H. rename z into se.
    case_decide; [subst; obind H
                 |obind H; rename z into de; repeat case_decide; subst].
    + destruct (IH _ _ _ _ _ _ _ H) as (m & Hm & Hr & e & d & R).
      exists (S m). split; [lia|]. split.
      * simpl. rewrite E. cbn [mbind option_bind].
        rewrite decide_True by done. rewrite E0. done.
      * exists e, d. replace (i + Z.of_nat (S m)) with (i + 1 + Z.of_nat m) by lia.
        done.
    + obind H. destruct (IH _ _ _ _ _ _ _ H) as (m & Hm & Hr & e & d & R).
      exists (S m). split; [lia|]. split.
      * simpl. rewrite E. cbn [mbind option_bind].
        rewrite decide_False by done. rewrite E0. cbn [mbind option_bind].
        rewrite decide_True by done. rewrite E1. done.
      * exists e, d. replace (i + Z.of_nat (S m)) with (i + 1 + Z.of_nat m) by lia.
        done.
    + injection H as <- <-. exists O. split; [lia|]. split; [done|].
      exists se, de. rewrite Z.add_0_r. done.
    + destruct (IH _ _ _ _ _ _ _ H) as (m & Hm & Hr & e & d & R).
      exists (S m). split; [lia|]. split.
      * simpl. rewrite E. cbn [mbind option_bind].
        rewrite decide_False by done. rewrite E0. cbn [mbind option_bind].
        rewrite decide_False by done.
        rewrite decide_False by (intros Hx; apply Hx; reflexivity). done.
      * exists e, d. replace (i + Z.of_nat (S m)) with (i + 1 + Z.of_nat m) by lia.
        done.
Qed.

(** Within the bounds of its arrays the loop always returns. *)
Lemma for_range_total n : forall i off dst src str,
  0 <= i -> 0 <= off ->
  i + Z.of_nat n <= Z.of_nat (length src) ->
  i + Z.of_nat n <= Z.of_nat (length str) ->
  i + off + Z.of_nat n <= Z.of_nat (length dst) ->
  exists ret dst' str', for_range n i off dst src str = Some (ret, dst', str').
Proof.
  induction n as [|n IH]; intros i off dst src str Hi Hoff Hs Ht Hd; simpl.
  - eauto.
  - assert (Hse : exists se, ix src i = Some se).
    { unfold ix. rewrite decide_True by lia.
      apply lookup_lt_is_Some_2. lia. }
    assert (Hde : exists de, ix dst (i + off) = Some de).
    { unfold ix. rewrite decide_True by lia.
      apply lookup_lt_is_Some_2. lia. }
    destruct Hse as [se ->], Hde as [de Hde]. cbn [mbind option_bind].
    case_decide; [|rewrite Hde; cbn [mbind option_bind]; repeat case_decide].
    + destruct (set_ix_is_Some str i 0 ltac:(lia)) as [str1 Hstr1].
      rewrite Hstr1. cbn [mbind option_bind].
      apply IH; try lia. rewrite (set_ix_length _ _ _ _ Hstr1). lia.
    + destruct (set_ix_is_Some dst (i + off) se ltac:(lia)) as [dst1 Hdst1].
      rewrite Hdst1. cbn [mbind option_bind].
      apply IH; try lia. rewrite (set_ix_length _ _ _ _ Hdst1). lia.
    + eauto.
    + apply IH; lia.
Qed.

(** The loop fails only on an axis whose two extents differ and are both
    other than 1. *)
Lemma for_range_compat n i off dst src str ret dst' str' :
  for_range n i off dst src str = Some (ret, dst', str') ->
  0 <= i ->
  (forall j e de, i <= j < i + Z.of_nat n ->
     ix src j = Some e -> ix dst (j + off) = Some de ->
     e = 1 \/ de = 1 \/ e = de) ->
  ret = 1.
Proof.
  intros H Hi Hc. destruct (for_range_ret _ _ _ _ _ _ _ _ _ H) as ([->| ->] & _).
  2: done.
  destruct (for_range_fail _ _ _ _ _ _ _ _ H) as (m & Hm & Hr & e & de & R).
  destruct R as (R1 & R2 & R3 & R4 & R5).
  destruct (for_range_ok _ _ _ _ _ _ _ _ Hr Hi) as (_ & _ & C).
  rewrite C in R2 by lia.
  destruct (Hc (i + Z.of_nat m) e de ltac:(lia) R1 R2) as [?|[?|?]]; done.
Qed.

Lemma Inv_no_conflict max_ndim shape seen :
  Inv max_ndim shape seen -> ~ conflict max_ndim seen.
Proof.
  intros (_ & I2 & _) (p & q & d & e1 & e2 & Hp & Hq & Ap & Aq & E1 & E2 & N1 & N2 & N).
  pose proof (I2 _ _ _ Hp Ap E1 N1) as H1.
  pose proof (I2 _ _ _ Hq Aq E2 N2) as H2. congruence.
Qed.

Lemma Inv_skip max_ndim shape seen op :
  is_array op = false -> Inv max_ndim shape seen ->
  Inv max_ndim shape (seen ++ [op]).
Proof.
  intros Hop (I1 & I2 & I3). split; [done|]. split.
  - intros p d e Hp Ap. apply elem_of_app in Hp as [Hp|Hp]; [eauto|].
    apply list_elem_of_singleton in Hp as ->. congruence.
  - intros d de Hd Hne. destruct (I3 _ _ Hd Hne) as (p & Hp & ?).
    exists p. split; [|done]. apply elem_of_app. auto.
Qed.

Lemma Inv_step max_ndim shape seen op shape' str' :
  Inv max_ndim shape seen -> is_array op = true -> op_wf max_ndim op ->
  Broadcast_body shape (op_shape op) (op_strides op) max_ndim (op_ndim op)
    = Some (1, shape', str') ->
  Inv max_ndim shape' (seen ++ [op]).
Proof.
  intros (I1 & I2 & I3) Hop Hwf Hb. destruct (Hwf Hop) as (Hn & Hl1 & Hl2).
  unfold Broadcast_body in Hb.
  destruct (for_range_ret _ _ _ _ _ _ _ _ _ Hb) as (_ & Hlen & _).
  destruct (for_range_ok _ _ _ _ _ _ _ _ Hb ltac:(lia)) as (A & _ & C).
  rewrite Z2Nat.id in A, C by lia.
  set (off := max_ndim - op_ndim op) in *.
  assert (Hsrc : forall d, off <= d < off + op_ndim op ->
                 exists es, ix (op_shape op) (d - off) = Some es).
  { intros d Hd. unfold ix. rewrite decide_True by lia.
    apply lookup_lt_is_Some_2. lia. }
  split; [lia|]. split.
  - intros p d e Hp Ap Hext Hne.
    apply elem_of_app in Hp as [Hp|Hp].
    + pose proof (I2 _ _ _ Hp Ap Hext Hne) as Hs.
      destruct (decide (0 + off <= d < 0 + off + op_ndim op)) as [Hd|Hd].
      * destruct (Hsrc d ltac:(lia)) as [es Hes].
        destruct (A (d - off) es ltac:(lia) Hes) as [A1 A2].
        replace (d - off + off) with d in * by lia.
        destruct (decide (es = 1)) as [->|Hes1].
        -- destruct (A1 eq_refl) as [_ ->]. done.
        -- destruct (A2 Hes1) as (_ & -> & [Hx|Hx]); congruence.
      * rewrite C by done. done.
    + apply list_elem_of_singleton in Hp as ->. unfold ext_at in Hext.
      fold off in Hext. pose proof (ix_Some _ _ _ Hext) as Hr.
      destruct (A (d - off) e ltac:(lia) Hext) as [_ A2].
      destruct (A2 Hne) as (_ & Hx & _).
      replace (d - off + off) with d in * by lia. done.
  - intros d de Hd Hne.
    destruct (decide (0 + off <= d < 0 + off + op_ndim op)) as [Hr|Hr].
    + destruct (Hsrc d ltac:(lia)) as [es Hes].
      destruct (A (d - off) es ltac:(lia) Hes) as [A1 A2].
      replace (d - off + off) with d in * by lia.
      destruct (decide (es = 1)) as [->|Hes1].
      * destruct (A1 eq_refl) as [_ Hx]. rewrite Hx in Hd.
        destruct (I3 _ _ Hd Hne) as (p & Hp & ?).
        exists p. split; [|done]. apply elem_of_app. auto.
      * destruct (A2 Hes1) as (_ & Hx & _). rewrite Hx in Hd.
        injection Hd as <-. exists op. split; [|done].
        apply elem_of_app. right. apply list_elem_of_singleton. done.
    + rewrite C in Hd by done.
      destruct (I3 _ _ Hd Hne) as (p & Hp & ?).
      exists p. split; [|done]. apply elem_of_app. auto.
Qed.

Lemma fail_conflict max_ndim shape seen op rest shape' str' :
  Inv max_ndim shape seen -> is_array op = true -> op_wf max_ndim op ->
  Broadcast_body shape (op_shape op) (op_strides op) max_ndim (op_ndim op)
    = Some (0, shape', str') ->
  conflict max_ndim (seen ++ op :: rest).
Proof.
  intros (I1 & I2 & I3) Hop Hwf Hb. destruct (Hwf Hop) as (Hn & Hl1 & Hl2).
  unfold Broadcast_body in Hb.
  destruct (for_range_fail _ _ _ _ _ _ _ _ Hb) as (m & Hm & Hr & e & de & R).
  destruct R as (R1 & R2 & R3 & R4 & R5).
  destruct (for_range_ok _ _ _ _ _ _ _ _ Hr ltac:(lia)) as (_ & _ & C).
  rewrite C in R2 by lia.
  destruct (I3 _ _ R2 R4) as (p & Hp & Ap & Ep).
  exists op, p, (0 + Z.of_nat m + (max_ndim - op_ndim op)), e, de.
  repeat split; try done.
  - apply elem_of_app. right. left.
  - apply elem_of_app. auto.
  - unfold ext_at.
    replace (0 + Z.of_nat m + (max_ndim - op_ndim op) - (max_ndim - op_ndim op))
      with (0 + Z.of_nat m) by lia. done.
Qed.

Lemma broadcast_operands_total max_ndim : forall operands shape,
  Forall (op_wf max_ndim) operands ->
  Z.of_nat (length shape) = max_ndim ->
  exists shape' operands' retvals,
    broadcast_operands max_ndim shape operands
      = Some (shape', operands', retvals).
Proof.
  induction operands as [|op rest IH]; intros shape Hwf Hlen; simpl.
  - eauto.
  - apply Forall_cons in Hwf as [Hop Hrest].
    destruct (is_array op) eqn:Ha.
    + destruct (Hop Ha) as (Hn & Hl1 & Hl2).
      destruct (for_range_total (Z.to_nat (op_ndim op)) 0
                  (max_ndim - op_ndim op) shape (op_shape op) (op_strides op))
        as (ret & dst' & str' & Hb); try lia.
      unfold Broadcast_body. rewrite Hb. cbn [mbind option_bind].
      destruct (for_range_ret _ _ _ _ _ _ _ _ _ Hb) as (_ & Hl & _).
      destruct (IH dst' Hrest ltac:(lia)) as (s' & o' & r' & ->).
      cbn [mbind option_bind]. eauto.
    + destruct (IH shape Hrest Hlen) as (s' & o' & r' & ->).
      cbn [mbind option_bind]. eauto.
Qed.

Lemma conflict_app_cons max_ndim seen op rest :
  conflict max_ndim ((seen ++ [op]) ++ rest)
  <-> conflict max_ndim (seen ++ op :: rest).
Proof. rewrite <- app_assoc. done. Qed.

Lemma broadcast_operands_rets max_ndim : forall rest shape shape' ops' retvals,
  broadcast_operands max_ndim shape rest = Some (shape', ops', retvals) ->
  Forall (fun r => r = 0 \/ r = 1) retvals.
Proof.
  induction rest as [|op rest IH]; intros shape shape' ops' retvals H;
    simpl in H.
  - injection H as <- <- <-. constructor.
  - destruct (is_array op).
    + obind H. destruct p as [[ret shape1] str1]. obind H.
      destruct p as [[shape2 rest2] retvals2]. injection H as <- <- <-.
      unfold Broadcast_body in E.
      destruct (for_range_ret _ _ _ _ _ _ _ _ _ E) as (Hret & _).
      constructor; [done|]. eapply IH; done.
    + obind H. destruct p as [[shape2 rest2] retvals2]. injection H as <- <- <-.
      eapply IH; done.
Qed.

Lemma body_strides_zeroed max_ndim op shape shape' str' :
  is_array op = true -> op_wf max_ndim op ->
  Broadcast_body shape (op_shape op) (op_strides op) max_ndim (op_ndim op)
    = Some (1, shape', str') ->
  strides_zeroed op {| is_array := true; op_ndim := op_ndim op;
                       op_shape := op_shape op; op_strides := str' |}.
Proof.
  intros Ha Hwf Hb. destruct (Hwf Ha) as (Hn & Hl1 & Hl2).
  unfold Broadcast_body in Hb.
  destruct (for_range_ok _ _ _ _ _ _ _ _ Hb ltac:(lia)) as (A & _ & _).
  rewrite Z2Nat.id in A by lia.
  unfold strides_zeroed. cbn [is_array op_ndim op_shape op_strides].
  repeat split; try done; [congruence|]. intros _ j e Hj.
  pose proof (ix_Some _ _ _ Hj) as Hr.
  destruct (A j e ltac:(lia) Hj) as [A1 A2]. case_decide.
  - apply A1. done.
  - apply A2. done.
Qed.

Lemma broadcast_operands_iff max_ndim : forall rest seen shape shape' ops' retvals,
  Forall (op_wf max_ndim) rest ->
  Inv max_ndim shape seen ->
  broadcast_operands max_ndim shape rest = Some (shape', ops', retvals) ->
  (Forall (eq 1) retvals <-> ~ conflict max_ndim (seen ++ rest)) /\
  (Forall (eq 1) retvals ->
     Inv max_ndim shape' (seen ++ rest) /\ Forall2 strides_zeroed rest ops').
Proof.
  induction rest as [|op rest IH]; intros seen shape shape' ops' retvals Hwf HI H;
    simpl in H.
  - injection H as <- <- <-. rewrite app_nil_r. split.
    + split; [intros _; eapply Inv_no_conflict; done|constructor].
    + intros _. split; [done|constructor].
  - apply Forall_cons in Hwf as [Hop Hrest].
    destruct (is_array op) eqn:Ha.
    + obind H. destruct p as [[ret shape1] str1]. obind H.
      destruct p as [[shape2 rest2] retvals2]. injection H as <- <- <-.
      pose proof E as Hb. unfold Broadcast_body in Hb.
      destruct (for_range_ret _ _ _ _ _ _ _ _ _ Hb) as (Hret & _).
      destruct Hret as [->| ->].
      * (* this operand fails *)
        assert (Hc : conflict max_ndim (seen ++ op :: rest))
          by (eapply fail_conflict; done).
        assert (Hno : ~ Forall (eq 1) (0 :: retvals2)).
        { intros Hf. apply Forall_cons in Hf as [? _]. done. }
        split; [tauto|]. intros Hf. done.
      * pose proof (Inv_step _ _ _ _ _ _ HI Ha Hop E) as HI1.
        destruct (IH _ _ _ _ _ Hrest HI1 E0) as [IH1 IH2].
        rewrite conflict_app_cons in IH1. rewrite <- app_assoc in IH2.
        split.
        -- rewrite <- IH1. split; [intros Hf; apply Forall_cons in Hf; tauto|].
           intros Hf. constructor; done.
        -- intros Hf. apply Forall_cons in Hf as [_ Hf].
           destruct (IH2 Hf) as [? ?]. split; [done|].
           constructor; [|done]. eapply body_strides_zeroed; done.
    + obind H. destruct p as [[shape2 rest2] retvals2]. injection H as <- <- <-.
      pose proof (Inv_skip _ _ _ _ Ha HI) as HI1.
      destruct (IH _ _ _ _ _ Hrest HI1 E) as [IH1 IH2].
      rewrite conflict_app_cons in IH1. rewrite <- app_assoc in IH2.
      split; [done|]. intros Hf. destruct (IH2 Hf) as [? ?]. split; [done|].
      constructor; [|done]. unfold strides_zeroed.
      repeat split; try done. congruence.
Qed.

(** The checks fire on the first return value that is 0, with the one
    exception they were built with. *)
Lemma visitlist_check_errors retvals :
  Forall (fun r => r = 0 \/ r = 1) retvals ->
  (Forall (eq 1) retvals /\ visitlist (check_errors retvals) = None) \/
  (0 ∈ retvals /\
   visitlist (check_errors retvals)
   = Some {| exc_type := "ValueError";
             exc_msg := "Shape mismatch while broadcasting" |}).
Proof.
  induction 1 as [|r retvals [->| ->] _ IH]; simpl.
  - left. split; [constructor|done].
  - right. split; [left|done].
  - change (CheckErrorNode 1 0 _ _) with (@None exception).
    destruct IH as [[? ?]|[? ?]]; [left|right].
    + split; [constructor; done|done].
    + split; [right; done|done].
Qed.

End BroadcastFacts.

Module BroadcastClaims.
Import Intp IntpFacts ArraySlicing ArraySlicingFacts BroadcastFacts.

Lemma Inv_init (n : nat) : Inv (Z.of_nat n) (replicate n 1) [].
Proof.
  split; [rewrite length_replicate; done|]. split.
  - intros p d e Hp. apply elem_of_nil in Hp. done.
  - intros d de Hd Hne. unfold ix in Hd. case_decide; [|done].
    apply lookup_replicate in Hd as [-> _]. done.
Qed.

Lemma for_range_first_mismatch n : forall i off dst src str ret dst' str',
  for_range n i off dst src str = Some (ret, dst', str') ->
  (ret = 0 <-> is_Some (first_mismatch n i off dst src)).
Proof.
  induction n as [|n IH]; intros i off dst src str ret dst' str' H; simpl in *.
  - injection H as <- <- <-. split; [done|]. intros [? ?]. done.
  - obind H. cbn [mbind option_bind].
    destruct (decide (z = 1)); [obind H; eapply IH; done|].
    obind H. cbn [mbind option_bind].
    destruct (decide (z0 = 1)); [obind H; eapply IH; done|].
    destruct (decide (z ≠ z0)); [|eapply IH; done].
    injection H as <- <- <-. split; [eauto|done].
Qed.

(** C4: one call of the broadcast routine treats the operand's axis [j] at
    the destination axis [j + (max_ndim - ndim)]; when it returns 1, an
    extent of 1 has zeroed the operand's stride and left the destination
    alone, and any other extent has left the stride alone and is the
    destination's extent afterwards, the destination having held 1 or that
    extent; when it does not return 1 it returns 0 and some axis has two
    different extents other than 1.  A visit over a destination shape of
    ones and well-formed operands always ends, and it ends without an error
    exactly when no destination axis sees two different extents other than
    1; the operands then only had strides zeroed at their axes of extent 1.
    In particular shapes (1,3) and (4,1) give the shape (4,3), with the
    strides of the two axes of extent 1 zeroed. *)
Theorem broadcast_rule_and_success :
  (forall dst src str max_ndim ndim ret dst' str',
     Broadcast_body dst src str max_ndim ndim = Some (ret, dst', str') ->
     0 <= ndim ->
     (ret = 1 ->
        forall j e, 0 <= j < ndim -> ix src j = Some e ->
          (e = 1 ->
             ix str' j = Some 0 /\
             ix dst' (j + (max_ndim - ndim)) = ix dst (j + (max_ndim - ndim))) /\
          (e ≠ 1 ->
             ix str' j = ix str j /\
             ix dst' (j + (max_ndim - ndim)) = Some e /\
             (ix dst (j + (max_ndim - ndim)) = Some 1 \/
              ix dst (j + (max_ndim - ndim)) = Some e))) /\
     (ret ≠ 1 ->
        ret = 0 /\
        exists j e de,
          0 <= j < ndim /\ ix src j = Some e /\
          ix dst (j + (max_ndim - ndim)) = Some de /\
          e ≠ 1 /\ de ≠ 1 /\ e ≠ de)) /\
  (forall (n : nat) operands,
     Forall (op_wf (Z.of_nat n)) operands ->
     exists out,
       visit_BroadcastNode n operands = Some out /\
       ((exists shape operands', out = Returned shape operands')
        <-> ~ conflict (Z.of_nat n) operands) /\
       (forall shape operands', out = Returned shape operands' ->
          Inv (Z.of_nat n) shape operands /\
          Forall2 strides_zeroed operands operands')) /\
  visit_BroadcastNode 2 [array_1x3; array_4x1]
  = Some (Returned [4; 3]
            [ {| is_array := true; op_ndim := 2; op_shape := [1; 3];
                 op_strides := [0; 8] |};
              {| is_array := true; op_ndim := 2; op_shape := [4; 1];
                 op_strides := [8; 0] |} ]).
Proof.
  split; [|split].
  - intros dst src str max_ndim ndim ret dst' str' Hb Hn. unfold Broadcast_body in Hb.
    split.
    + intros ->.
      destruct (for_range_ok _ _ _ _ _ _ _ _ Hb ltac:(lia)) as (A & _ & _).
      rewrite Z2Nat.id in A by lia. intros j e Hj Hs. apply A; [lia|done].
    + intros Hne. destruct (for_range_ret _ _ _ _ _ _ _ _ _ Hb) as ([-> | ->] & _);
        [|done]. split; [done|].
      destruct (for_range_fail _ _ _ _ _ _ _ _ Hb) as (m & Hm & Hr & e & de & R).
      destruct R as (R1 & R2 & R3 & R4 & R5).
      destruct (for_range_ok _ _ _ _ _ _ _ _ Hr ltac:(lia)) as (_ & _ & C).
      rewrite C in R2 by lia.
      exists (0 + Z.of_nat m), e, de. repeat split; try done; lia.
  - intros n operands Hwf. unfold visit_BroadcastNode.
    destruct (broadcast_operands_total _ operands (replicate n 1) Hwf)
      as (shape & ops' & retvals & Hbo); [rewrite length_replicate; done|].
    rewrite Hbo. cbn [mbind option_bind].
    pose proof (broadcast_operands_rets _ _ _ _ _ _ Hbo) as Hrets.
    destruct (broadcast_operands_iff _ _ [] _ _ _ _ Hwf (Inv_init n) Hbo)
      as [Hiff Hinv]. rewrite app_nil_l in *.
    destruct (visitlist_check_errors retvals Hrets) as [[Hall ->]|[H0 ->]].
    + eexists. split; [done|]. split.
      * split; [intros _; apply Hiff; done|eauto].
      * intros ? ? [= <- <-]. apply Hinv. done.
    + assert (Hno : ~ Forall (eq 1) retvals).
      { intros Hf. rewrite Forall_forall in Hf. specialize (Hf _ H0). done. }
      eexists. split; [done|]. split.
      * split; [intros (? & ? & ?); done|]. intros Hc. tauto.
      * intros ? ? [=].
  - reflexivity.
Qed.

(** Two 2 x 3 arrays broadcast to themselves. *)
Lemma broadcast_rule_and_success_witness :
  exists out,
    visit_BroadcastNode 2 [array_1x3; array_1x3] = Some out /\
    ((exists shape operands', out = Returned shape operands')
     <-> ~ conflict 2 [array_1x3; array_1x3]).
Proof.
  destruct (proj1 (proj2 broadcast_rule_and_success) 2%nat [array_1x3; array_1x3])
    as (out & Hout & Hiff & _).
  - apply Forall_cons_2; [|apply Forall_cons_2; [|apply Forall_nil_2]];
      intros _; repeat split; simpl; lia.
  - exists out. split; [exact Hout|exact Hiff].
Defined.

(** C9: a call of the broadcast routine that returns 0 has met a mismatch
    at some axis [k] (two different extents, both other than 1) and
    returned from there; the arrays are as the run over the axes before [k]
    left them: the operand's strides zeroed at its axes of extent 1, the
    destination's extents of 1 overwritten with the operand's, and nothing
    at or after axis [k] touched.  Nothing is rolled back. *)
Theorem broadcast_failure_keeps_updates dst src str max_ndim ndim dst' str' :
  Broadcast_body dst src str max_ndim ndim = Some (0, dst', str') ->
  exists k,
    0 <= k < ndim /\
    (exists e de,
       ix src k = Some e /\ ix dst (k + (max_ndim - ndim)) = Some de /\
       e ≠ 1 /\ de ≠ 1 /\ e ≠ de) /\
    for_range (Z.to_nat k) 0 (max_ndim - ndim) dst src str
      = Some (1, dst', str') /\
    (forall j e, 0 <= j < k -> ix src j = Some e ->
       (e = 1 -> ix str' j = Some 0) /\
       (e ≠ 1 -> ix dst (j + (max_ndim - ndim)) = Some 1 ->
          ix dst' (j + (max_ndim - ndim)) = Some e)) /\
    (forall j, k <= j -> ix str' j = ix str j) /\
    (forall d, k + (max_ndim - ndim) <= d -> ix dst' d = ix dst d).
Proof.
  unfold Broadcast_body. intros Hb.
  destruct (for_range_fail _ _ _ _ _ _ _ _ Hb) as (m & Hm & Hr & e & de & R).
  destruct R as (R1 & R2 & R3 & R4 & R5).
  destruct (for_range_ok _ _ _ _ _ _ _ _ Hr ltac:(lia)) as (A & B & C).
  rewrite C in R2 by lia. rewrite Z.add_0_l in *.
  exists (Z.of_nat m). split; [lia|]. split; [eauto 10|].
  rewrite Nat2Z.id. split; [done|]. split; [|split].
  - intros j e' Hj Hs. destruct (A j e' ltac:(lia) Hs) as [A1 A2]. split.
    + intros He. apply A1. done.
    + intros He _. apply A2. done.
  - intros j Hj. apply B. lia.
  - intros d Hd. apply C. lia.
Qed.

(** A 4 x 3 operand against a destination already at (1, 5): the first
    axis is adopted, the second one fails, and the 4 stays. *)
Lemma broadcast_failure_keeps_updates_witness :
  Broadcast_body [1; 5] [4; 3] [24; 8] 2 2 = Some (0, [4; 5], [24; 8]) /\
  exists k,
    0 <= k < 2 /\
    (exists e de,
       ix [4; 3] k = Some e /\ ix [1; 5] (k + (2 - 2)) = Some de /\
       e ≠ 1 /\ de ≠ 1 /\ e ≠ de) /\
    for_range (Z.to_nat k) 0 (2 - 2) [1; 5] [4; 3] [24; 8]
      = Some (1, [4; 5], [24; 8]) /\
    (forall j e, 0 <= j < k -> ix [4; 3] j = Some e ->
       (e = 1 -> ix [24; 8] j = Some 0) /\
       (e ≠ 1 -> ix [1; 5] (j + (2 - 2)) = Some 1 ->
          ix [4; 5] (j + (2 - 2)) = Some e)) /\
    (forall j, k <= j -> ix [24; 8] j = ix [24; 8] j) /\
    (forall d, k + (2 - 2) <= d -> ix [4; 5] d = ix [1; 5] d).
Proof.
  split; [reflexivity|].
  apply (broadcast_failure_keeps_updates [1; 5] [4; 3] [24; 8] 2 2).
  reflexivity.
Defined.

(** C5 as worded fails: the error of a failed visit is the same whatever
    the mismatch was, so neither the axis nor the extents can be read back
    from it.  Lengths 3 against 4 and lengths 5 against 6 raise the same
    exception. *)
Lemma error_does_not_carry_mismatch : ~ error_carries_mismatch.
Proof.
  intros [decode Hd].
  pose proof (Hd 1%nat [array_of_len 3; array_of_len 4] _ _ eq_refl eq_refl) as H1.
  pose proof (Hd 1%nat [array_of_len 5; array_of_len 6] _ _ eq_refl eq_refl) as H2.
  rewrite H1 in H2. discriminate H2.
Qed.

(** C5, amended: a call of the broadcast routine returns 0 exactly when it
    meets a mismatch; a visit over well-formed operands raises as soon as
    one call returned 0, and what it raises is always
    [ValueError("Shape mismatch while broadcasting")], a fixed message that
    names neither the axis nor the extents; otherwise it returns the shape.
    In particular lengths 3 and 4 raise that error, the mismatch being at
    axis 0 between the extents 3 and 4. *)
Theorem broadcast_failure_error :
  (forall dst src str max_ndim ndim ret dst' str',
     Broadcast_body dst src str max_ndim ndim = Some (ret, dst', str') ->
     (ret = 0 <->
      is_Some (first_mismatch (Z.to_nat ndim) 0 (max_ndim - ndim) dst src))) /\
  (forall (n : nat) operands,
     Forall (op_wf (Z.of_nat n)) operands ->
     exists shape operands' retvals,
       broadcast_operands (Z.of_nat n) (replicate n 1) operands
         = Some (shape, operands', retvals) /\
       (0 ∈ retvals ->
          visit_BroadcastNode n operands
          = Some (Raised {| exc_type := "ValueError";
                            exc_msg := "Shape mismatch while broadcasting" |})) /\
       (0 ∉ retvals ->
          visit_BroadcastNode n operands = Some (Returned shape operands'))) /\
  visit_BroadcastNode 1 [array_of_len 3; array_of_len 4]
    = Some (Raised {| exc_type := "ValueError";
                      exc_msg := "Shape mismatch while broadcasting" |}) /\
  visit_mismatch 1 [1] [array_of_len 3; array_of_len 4]
    = Some {| mm_axis := 0; mm_dst_extent := 3; mm_src_extent := 4 |}.
Proof.
  split; [|split; [|split]].
  - intros dst src str max_ndim ndim ret dst' str' Hb.
    eapply for_range_first_mismatch. exact Hb.
  - intros n operands Hwf. unfold visit_BroadcastNode.
    destruct (broadcast_operands_total _ operands (replicate n 1) Hwf)
      as (shape & ops' & retvals & Hbo); [rewrite length_replicate; done|].
    rewrite Hbo. cbn [mbind option_bind]. exists shape, ops', retvals.
    split; [done|].
    pose proof (broadcast_operands_rets _ _ _ _ _ _ Hbo) as Hrets.
    destruct (visitlist_check_errors retvals Hrets) as [[Hall ->]|[H0 ->]].
    + split; [|done]. intros H0. rewrite Forall_forall in Hall.
      specialize (Hall _ H0). done.
    + split; [done|]. intros Hn. done.
  - reflexivity.
  - reflexivity.
Qed.

(** Lengths 3 and 4, through the general statement. *)
Lemma broadcast_failure_error_witness :
  exists shape operands' retvals,
    broadcast_operands 1 [1] [array_of_len 3; array_of_len 4]
      = Some (shape, operands', retvals) /\
    (0 ∈ retvals ->
       visit_BroadcastNode 1 [array_of_len 3; array_of_len 4]
       = Some (Raised {| exc_type := "ValueError";
                         exc_msg := "Shape mismatch while broadcasting" |})).
Proof.
  destruct (proj1 (proj2 broadcast_failure_error) 1%nat
              [array_of_len 3; array_of_len 4])
    as (shape & ops' & retvals & Hbo & Hraise & _).
  - apply Forall_cons_2; [|apply Forall_cons_2; [|apply Forall_nil_2]];
      intros _; repeat split; simpl; lia.
  - exists shape, ops', retvals. split; [exact Hbo|exact Hraise].
Defined.

End BroadcastClaims.

(** ** Subscripts: axis bookkeeping and element addresses *)

Module SubscriptFacts.
Import Intp ArraySlicing IntpFacts ArraySlicingFacts.

Lemma rewrite_slice_loop_spec dims : forall s d,
  exists slices,
    rewrite_slice_loop dims s d
    = (slices, s + src_axes dims, d + dst_axes dims) /\
    length slices = length dims /\
    forall (k : nat) sub, dims !! k = Some sub ->
      slices !! k
      = Some (create_slice_dim_node sub (s + src_axes (take k dims))
                                    (d + dst_axes (take k dims))).
Proof.
  induction dims as [|sub rest IH]; intros s d.
  - exists []. simpl. rewrite !Z.add_0_r. repeat split; done.
  - cbn [rewrite_slice_loop].
    set (sd := match sub with
               | Slice _ _ _ => (s + 1, d + 1)
               | Newaxis => (s, d + 1)
               | IntIndex _ => (s + 1, d)
               end).
    assert (Hsd : sd = (s + match sub with Newaxis => 0 | _ => 1 end,
                        d + match sub with IntIndex _ => 0 | _ => 1 end)).
    { subst sd. destruct sub; f_equal; lia. }
    rewrite Hsd. clear sd Hsd.
    destruct (IH (s + match sub with Newaxis => 0 | _ => 1 end)
                 (d + match sub with IntIndex _ => 0 | _ => 1 end))
      as (slices & -> & Hlen & Hk).
    exists (create_slice_dim_node sub s d :: slices). split; [|split].
    + cbn [src_axes dst_axes]. rewrite !Z.add_assoc. reflexivity.
    + simpl. lia.
    + intros [|k] sub' Hsub; simpl in Hsub.
      * injection Hsub as <-. simpl. rewrite !Z.add_0_r. done.
      * rewrite lookup_cons_ne_0 by done. cbn [Nat.pred take src_axes dst_axes].
        rewrite (Hk k sub' Hsub). do 2 f_equal; lia.
Qed.

(** The counters [rewrite_slice] hands out: the node made for dimension [k]
    carries the number of source axes and the number of destination axes
    the dimensions before it use up, so the slices and new axes are given
    the destination axes 0, 1, 2, ... in order and the slices and indices
    the source axes 0, 1, 2, ...; there is one node per dimension. *)
Theorem rewrite_slice_axes dims :
  length (rewrite_slice dims) = length dims /\
  (rewrite_slice_loop dims 0 0).1.2 = src_axes dims /\
  (rewrite_slice_loop dims 0 0).2 = dst_axes dims /\
  forall (k : nat) sub, dims !! k = Some sub ->
    rewrite_slice dims !! k
    = Some (create_slice_dim_node sub (src_axes (take k dims))
                                  (dst_axes (take k dims))).
Proof.
  unfold rewrite_slice.
  destruct (rewrite_slice_loop_spec dims 0 0) as (slices & -> & Hlen & Hk).
  cbn [fst snd]. repeat split; try done.
Qed.

Lemma wrap_mod z : wrap z mod modulus = z mod modulus.
Proof.
  unfold wrap, modulus, bits.
  change (2 ^ (64 - 1)) with 9223372036854775808.
  change (2 ^ 64) with 18446744073709551616.
  Z.div_mod_to_equations. lia.
Qed.

Lemma ptr_add_mul_mod p a b :
  ptr_add p (Intp.mul a b) = (p + a * b) mod modulus.
Proof.
  unfold ptr_add, Intp.mul.
  rewrite <- Z.add_mod_idemp_r by (unfold modulus, bits; lia).
  rewrite wrap_mod.
  rewrite Z.add_mod_idemp_r by (unfold modulus, bits; lia). done.
Qed.

Lemma index_nodes_address idxs : forall s d data in_shape in_strides shape strides,
  0 <= s ->
  s + Z.of_nat (length idxs) <= Z.of_nat (length in_strides) ->
  exists p,
    visit_subslices in_shape (rewrite_slice_loop (IntIndex <$> idxs) s d).1.1
      {| view_data := data; view_in_strides := in_strides;
         view_shape := shape; view_strides := strides |}
    = Some {| view_data := p; view_in_strides := in_strides;
              view_shape := shape; view_strides := strides |} /\
    (idxs = [] -> p = data) /\
    p mod modulus
    = (data + element_offset (drop (Z.to_nat s) in_strides) idxs) mod modulus /\
    (idxs ≠ [] -> 0 <= p < modulus).
Proof.
  induction idxs as [|i rest IH]; intros s d data in_shape in_strides shape strides Hs Hlen.
  - exists data. simpl. repeat split; try done.
    unfold element_offset. rewrite zip_with_nil_r. simpl. f_equal. lia.
  - cbn [fmap list_fmap rewrite_slice_loop create_slice_dim_node].
    simpl length in Hlen.
    destruct (IH (s + 1) d (ptr_add data (Intp.mul
                  (default 0 (in_strides !! Z.to_nat s)) i))
                 in_shape in_strides shape strides ltac:(lia) ltac:(lia))
      as (p & Hv & _ & Hp & Hr).
    destruct (rewrite_slice_loop (IntIndex <$> rest) (s + 1) d)
      as [[slices s'] d'] eqn:E.
    cbn [fst snd] in *.
    destruct (in_strides !! Z.to_nat s) as [st|] eqn:Est.
    2: { apply lookup_ge_None in Est. lia. }
    exists p. cbn [visit_subslices visit_subslice visit_SliceDimNode].
    unfold IndexAxis_body, ix. cbn [view_data view_in_strides view_shape view_strides].
    rewrite decide_True by lia. rewrite Est. cbn [mbind option_bind default] in *.
    split; [exact Hv|]. split; [done|]. split.
    + rewrite Hp. rewrite ptr_add_mul_mod.
      rewrite (drop_S _ st (Z.to_nat s)) by done.
      unfold element_offset. cbn [zip_with foldr].
      replace (Z.to_nat (s + 1)) with (S (Z.to_nat s)) by lia.
      rewrite Z.add_mod_idemp_l by (unfold modulus, bits; lia).
      unfold id.
      match goal with
      | |- ?a mod _ = ?b mod _ => replace a with b by lia
      end.
      reflexivity.
    + intros _. destruct rest as [|j rest'].
      * simpl in E. injection E as <- <- <-.
        simpl in Hv. injection Hv as <-. unfold ptr_add.
        apply Z.mod_pos_bound. unfold modulus, bits. lia.
      * apply Hr. done.
Qed.

(** A subscript made of integer indices only, one for each of the first
    axes of the array: the visit only moves the data pointer, to the
    array's data address plus the sum of the indices times the strides of
    their axes, modulo the address space; it writes nothing. *)
Theorem index_subscript_address data in_shape in_strides shape strides idxs :
  0 <= data < modulus ->
  (length idxs <= length in_strides)%nat ->
  visit_NativeSliceNode data in_shape in_strides shape strides
    (rewrite_slice (IntIndex <$> idxs))
  = Some {| view_data := (data + element_offset in_strides idxs) mod modulus;
            view_in_strides := in_strides;
            view_shape := shape; view_strides := strides |}.
Proof.
  intros Hdata Hlen. unfold visit_NativeSliceNode, rewrite_slice.
  destruct (index_nodes_address idxs 0 0 data in_shape in_strides shape strides
              ltac:(lia) ltac:(lia)) as (p & -> & Hnil & Hp & Hr).
  do 2 f_equal. change (Z.to_nat 0) with 0%nat in Hp. rewrite drop_0 in Hp.
  rewrite <- Hp. destruct idxs as [|i rest].
  - rewrite Hnil by done. rewrite Z.mod_small; done.
  - rewrite Z.mod_small; [done|]. apply Hr. done.
Qed.

Lemma index_subscript_address_witness :
  visit_NativeSliceNode 4096 [4; 10] [80; 8] [0] [0]
    (rewrite_slice (IntIndex <$> [2; 3]))
  = Some {| view_data := (4096 + element_offset [80; 8] [2; 3]) mod modulus;
            view_in_strides := [80; 8];
            view_shape := [0]; view_strides := [0] |}.
Proof.
  apply (index_subscript_address 4096 [4; 10] [80; 8] [0] [0] [2; 3]).
  - unfold modulus, bits. lia.
  - simpl. lia.
Defined.

End SubscriptFacts.

(** ** Single-axis slices: what is written, and which elements are selected *)

Module SliceExtra.
Import Intp ArraySlicing IntpFacts ArraySlicingFacts SliceFacts SubscriptFacts.

Lemma set_ix_Some_inv l i v l' :
  set_ix l i v = Some l' -> 0 <= i < Z.of_nat (length l).
Proof. unfold set_ix. case_decide; done. Qed.

Lemma NewAxis_body_frame out_shape out_strides dst_dim shape strides :
  NewAxis_body out_shape out_strides dst_dim = Some (shape, strides) ->
  length shape = length out_shape /\
  length strides = length out_strides /\
  forall j, j ≠ dst_dim ->
    ix shape j = ix out_shape j /\ ix strides j = ix out_strides j.
Proof.
  unfold NewAxis_body. intros H.
  destruct (set_ix out_shape dst_dim 1) as [s'|] eqn:E1; [|done].
  cbn [mbind option_bind] in H.
  destruct (set_ix out_strides dst_dim 0) as [t'|] eqn:E2; [|done].
  cbn [mbind option_bind] in H. injection H as <- <-.
  split; [eapply set_ix_length; done|].
  split; [eapply set_ix_length; done|].
  intros j Hj. split; (eapply ix_set_ix_ne; [done|congruence]).
Qed.

(** A new axis has extent 1 and stride 0; the routine is defined exactly
    when the destination axis lies within both arrays, and it leaves their
    other entries as they are. *)
Theorem newaxis_sets_unit_axis out_shape out_strides dst_dim :
  (is_Some (NewAxis_body out_shape out_strides dst_dim) <->
   0 <= dst_dim < Z.of_nat (length out_shape) /\
   dst_dim < Z.of_nat (length out_strides)) /\
  (forall shape strides,
     NewAxis_body out_shape out_strides dst_dim = Some (shape, strides) ->
     ix shape dst_dim = Some 1 /\ ix strides dst_dim = Some 0 /\
     length shape = length out_shape /\
     length strides = length out_strides /\
     forall j, j ≠ dst_dim ->
       ix shape j = ix out_shape j /\ ix strides j = ix out_strides j).
Proof.
  unfold NewAxis_body. split.
  - split.
    + intros [[s t] H].
      destruct (set_ix out_shape dst_dim 1) as [s'|] eqn:E1; [|done].
      cbn [mbind option_bind] in H.
      destruct (set_ix out_strides dst_dim 0) as [t'|] eqn:E2; [|done].
      apply set_ix_Some_inv in E1, E2. lia.
    + intros [H1 H2].
      destruct (set_ix_is_Some out_shape dst_dim 1 H1) as [s' ->].
      destruct (set_ix_is_Some out_strides dst_dim 0 ltac:(lia)) as [t' ->].
      eexists. reflexivity.
  - intros shape strides H.
    destruct (set_ix out_shape dst_dim 1) as [s'|] eqn:E1; [|done].
    cbn [mbind option_bind] in H.
    destruct (set_ix out_strides dst_dim 0) as [t'|] eqn:E2; [|done].
    cbn [mbind option_bind] in H. injection H as <- <-.
    repeat split.
    + eapply ix_set_ix_eq; done.
    + eapply ix_set_ix_eq; done.
    + eapply set_ix_length; done.
    + eapply set_ix_length; done.
    + eapply ix_set_ix_ne; [done|]. congruence.
    + eapply ix_set_ix_ne; [done|]. congruence.
Qed.

Lemma step_zero_None data in_shape in_strides out_shape
    out_strides start stop src_dim dst_dim :
  visit_SliceSliceNode data in_shape in_strides out_shape out_strides
                       start stop (Some 0) src_dim dst_dim = None.
Proof.
  unfold visit_SliceSliceNode, body. cbn [have_start have_stop have_step].
  rewrite (bool_decide_eq_true_2 (is_Some (Some 0))) by eauto.
  destruct (ix in_strides src_dim); [|done]. cbn [mbind option_bind].
  destruct (ix in_shape src_dim); [|done]. cbn [mbind option_bind from_option id].
  unfold Intp.sdiv at 1. rewrite decide_True by done. done.
Qed.

(** Slicing with a step given as 0 has no defined result: the routine
    divides by the step without testing it. *)
Theorem slice_step_zero_undefined data in_shape in_strides out_shape
    out_strides start stop src_dim dst_dim :
  visit_SliceSliceNode data in_shape in_strides out_shape out_strides
                       start stop (Some 0) src_dim dst_dim = None.
Proof. apply step_zero_None. Qed.

Lemma slice_defined data in_shape in_strides out_shape out_strides
    start stop step src_dim dst_dim r :
  visit_SliceSliceNode data in_shape in_strides out_shape out_strides
                       start stop step src_dim dst_dim = Some r ->
  is_Some (ix in_strides src_dim) /\
  0 <= dst_dim < Z.of_nat (length out_shape) /\
  0 <= dst_dim < Z.of_nat (length out_strides) /\
  step ≠ Some 0.
Proof.
  intros H. split; [|split; [|split]].
  4: { intros ->. rewrite step_zero_None in H. done. }
  all: unfold visit_SliceSliceNode, body in H.
  all: destruct (ix in_strides src_dim); [|done]; cbn [mbind option_bind] in H.
  all: destruct (ix in_shape src_dim); [|done]; cbn [mbind option_bind] in H.
  all: destruct (Intp.sdiv _ _); [|done]; cbn [mbind option_bind] in H.
  all: destruct (Intp.srem _ _); [|done]; cbn [mbind option_bind] in H.
  all: match type of H with
       | context [mbind _ ?o] => destruct o; [|done]
       end; cbn [mbind option_bind] in H.
  all: match type of H with
       | context [mbind _ ?o] => destruct o; [|done]
       end; cbn [mbind option_bind] in H.
  all: destruct (set_ix out_shape dst_dim _) eqn:E1; [|done];
       cbn [mbind option_bind] in H.
  all: destruct (set_ix out_strides dst_dim _) eqn:E2; [|done].
  - eauto.
  - eapply set_ix_Some_inv; done.
  - eapply set_ix_Some_inv; done.
Qed.

(** The locals of a slice that has a result are the normalized bounds. *)
Lemma slice_locals data in_shape in_strides out_shape out_strides
    start stop step src_dim dst_dim extent r :
  visit_SliceSliceNode data in_shape in_strides out_shape out_strides
                       start stop step src_dim dst_dim = Some r ->
  ix in_shape src_dim = Some extent ->
  0 <= extent <= max_signed ->
  given_in_range start -> given_in_range stop -> given_in_range step ->
  l_step r = SliceSpec.step_of step /\ l_step r ≠ 0 /\
  l_start r
    = SliceSpec.start_of extent (bool_decide (l_step r < 0)) start /\
  l_stop r
    = SliceSpec.stop_of extent (bool_decide (l_step r < 0)) stop /\
  l_new_extent r = SliceSpec.new_extent_of (l_start r) (l_stop r) (l_step r) /\
  ix (out_shape' r) dst_dim = Some (l_new_extent r).
Proof.
  intros H Hext He Hstart Hstop Hstep.
  destruct (slice_defined _ _ _ _ _ _ _ _ _ _ _ H) as (Hs & Hd1 & Hd2 & Hnz).
  destruct (SliceClaims.slice_normalized data in_shape in_strides out_shape
              out_strides start stop step src_dim dst_dim extent
              Hext Hs Hd1 Hd2 He Hstart Hstop Hstep Hnz)
    as (r' & Hr' & H1 & H2 & H3 & H4 & H5).
  rewrite H in Hr'. injection Hr' as <-.
  rewrite <- H1 in H2, H3. repeat split; try done.
  rewrite H1. destruct step as [s|]; simpl; [congruence|lia].
Qed.

Lemma body_frame self data in_shape in_strides out_shape
    out_strides start stop step src_dim dst_dim r :
  body self data in_shape in_strides out_shape out_strides
       start stop step src_dim dst_dim = Some r ->
  length (out_shape' r) = length out_shape /\
  length (out_strides' r) = length out_strides /\
  length (in_strides' r) = length in_strides /\
  (forall j, j ≠ dst_dim ->
     ix (out_shape' r) j = ix out_shape j /\
     ix (out_strides' r) j = ix out_strides j) /\
  (forall j, j ≠ src_dim -> ix (in_strides' r) j = ix in_strides j).
Proof.
  unfold body. intros H.
  destruct (ix in_strides src_dim); [|done]. cbn [mbind option_bind] in H.
  destruct (ix in_shape src_dim); [|done]. cbn [mbind option_bind] in H.
  destruct (Intp.sdiv _ _); [|done]. cbn [mbind option_bind] in H.
  destruct (Intp.srem _ _); [|done]. cbn [mbind option_bind] in H.
  set (ne := if decide (_ < 0) then 0 else _) in *.
  assert (Hin : forall is',
            (if decide (ne = 1) then set_ix in_strides src_dim 0
             else Some in_strides) = Some is' ->
            length is' = length in_strides /\
            forall j, j ≠ src_dim -> ix is' j = ix in_strides j).
  { intros is' Hi. case_decide.
    - split; [eapply set_ix_length; done|].
      intros j Hj. eapply ix_set_ix_ne; [done|congruence].
    - injection Hi as <-. done. }
  destruct (if decide (ne = 1) then _ else _) as [is'|]; [|done].
  specialize (Hin is' eq_refl) as [Hl Hj].
  cbn [mbind option_bind] in H.
  destruct (ix is' src_dim); [|done]. cbn [mbind option_bind] in H.
  destruct (set_ix out_shape dst_dim ne) as [os|] eqn:E1; [|done].
  cbn [mbind option_bind] in H.
  destruct (set_ix out_strides dst_dim _) as [ot|] eqn:E2; [|done].
  cbn [mbind option_bind] in H. injection H as <-.
  cbn [out_shape' out_strides' in_strides'].
  repeat split; try done.
  - eapply set_ix_length; done.
  - eapply set_ix_length; done.
  - eapply ix_set_ix_ne; [done|congruence].
  - eapply ix_set_ix_ne; [done|congruence].
Qed.

(** The routine writes one entry of each array it is handed, and nothing
    else.  It stores the new extent at the destination axis of the output
    shape; when the new extent is 1 it stores 0 at the source axis of the
    input strides, which it leaves alone otherwise; and from the stride it
    then finds there it stores stride * step at the destination axis of
    the output strides and returns data + start * stride.  Every other
    entry, and the number of entries, is as before. *)
Theorem slice_writes_its_axes_only self data in_shape in_strides out_shape
    out_strides start stop step src_dim dst_dim r :
  body self data in_shape in_strides out_shape out_strides
       start stop step src_dim dst_dim = Some r ->
  (ix (out_shape' r) dst_dim = Some (l_new_extent r) /\
   ix (in_strides' r) src_dim
   = (if decide (l_new_extent r = 1) then Some 0
      else ix in_strides src_dim) /\
   exists stride,
     ix (in_strides' r) src_dim = Some stride /\
     ix (out_strides' r) dst_dim = Some (Intp.mul stride (l_step r)) /\
     result r = Intp.ptr_add data (Intp.mul (l_start r) stride)) /\
  length (out_shape' r) = length out_shape /\
  length (out_strides' r) = length out_strides /\
  length (in_strides' r) = length in_strides /\
  (forall j, j ≠ dst_dim ->
     ix (out_shape' r) j = ix out_shape j /\
     ix (out_strides' r) j = ix out_strides j) /\
  (forall j, j ≠ src_dim -> ix (in_strides' r) j = ix in_strides j).
Proof.
  intros H. split; [|eapply body_frame; exact H].
  unfold body in H.
  destruct (ix in_strides src_dim) as [s0|] eqn:E0; [|done].
  cbn [mbind option_bind] in H.
  destruct (ix in_shape src_dim); [|done]. cbn [mbind option_bind] in H.
  destruct (Intp.sdiv _ _); [|done]. cbn [mbind option_bind] in H.
  destruct (Intp.srem _ _); [|done]. cbn [mbind option_bind] in H.
  set (ne := if decide (_ < 0) then 0 else _) in *.
  assert (Hin : forall is',
            (if decide (ne = 1) then set_ix in_strides src_dim 0
             else Some in_strides) = Some is' ->
            ix is' src_dim = if decide (ne = 1) then Some 0 else Some s0).
  { intros is' Hi. case_decide.
    - eapply ix_set_ix_eq; done.
    - injection Hi as <-. done. }
  destruct (if decide (ne = 1) then _ else _) as [is'|]; [|done].
  specialize (Hin is' eq_refl).
  cbn [mbind option_bind] in H.
  destruct (ix is' src_dim) as [stride|] eqn:Es; [|done].
  cbn [mbind option_bind] in H.
  destruct (set_ix out_shape dst_dim ne) as [os|] eqn:E1; [|done].
  cbn [mbind option_bind] in H.
  destruct (set_ix out_strides dst_dim _) as [ot|] eqn:E2; [|done].
  cbn [mbind option_bind] in H. injection H as <-.
  cbn [out_shape' out_strides' in_strides' l_new_extent l_step l_start result].
  split; [eapply ix_set_ix_eq; done|]. split; [rewrite Es; exact Hin|].
  exists stride. split; [exact Es|]. split; [|done].
  eapply ix_set_ix_eq; done.
Qed.

Lemma slice_writes_its_axes_only_witness :
  exists r,
    body {| have_start := true; have_stop := true; have_step := false |}
         4096 [4; 10] [80; 8] [7; 7] [9; 9] 3 4 0 1 0 = Some r /\
    ix (out_shape' r) 0 = Some 1 /\ ix (in_strides' r) 1 = Some 0 /\
    ix (out_shape' r) 1 = Some 7 /\ ix (out_strides' r) 1 = Some 9 /\
    ix (in_strides' r) 0 = Some 80.
Proof.
  eexists. split; [reflexivity|].
  destruct (slice_writes_its_axes_only
              {| have_start := true; have_stop := true; have_step := false |}
              4096 [4; 10] [80; 8] [7; 7] [9; 9] 3 4 0 1 0 _ eq_refl)
    as ((Hw1 & Hw2 & _) & _ & _ & _ & Hd & Hs).
  destruct (Hd 1 ltac:(lia)) as [H1 H2]. specialize (Hs 0 ltac:(lia)).
  split; [exact Hw1|]. split; [exact Hw2|].
  split; [|split]; [rewrite H1|rewrite H2|rewrite Hs]; reflexivity.
Defined.

(** A slice that runs from its start towards its stop (forwards for a
    positive step, backwards for a negative one, then on a non-empty axis)
    selects elements of the source axis only: the new extent is at most
    the extent, each selected index lies within the axis and strictly
    before the stop, and the index after the last one is at or beyond the
    stop. *)
Theorem slice_selects_within_bounds data in_shape in_strides out_shape
    out_strides start stop step src_dim dst_dim extent r :
  visit_SliceSliceNode data in_shape in_strides out_shape out_strides
                       start stop step src_dim dst_dim = Some r ->
  ix in_shape src_dim = Some extent ->
  0 <= extent <= max_signed ->
  given_in_range start -> given_in_range stop -> given_in_range step ->
  (0 < l_step r -> l_start r <= l_stop r) ->
  (l_step r < 0 -> l_stop r <= l_start r /\ 0 < extent) ->
  0 <= l_new_extent r <= extent /\
  (forall k, 0 <= k < l_new_extent r ->
     0 <= l_start r + k * l_step r < extent /\
     (0 < l_step r -> l_start r + k * l_step r < l_stop r) /\
     (l_step r < 0 -> l_stop r < l_start r + k * l_step r)) /\
  (0 < l_step r -> l_stop r <= l_start r + l_new_extent r * l_step r) /\
  (l_step r < 0 -> l_start r + l_new_extent r * l_step r <= l_stop r).
Proof.
  intros H Hext He Hstart Hstop Hstep Hfw Hbw.
  destruct (slice_locals _ _ _ _ _ _ _ _ _ _ _ _ H Hext He Hstart Hstop Hstep)
    as (_ & Hnz & Ha & Hb & Hn & _).
  pose proof (start_of_bounds extent (bool_decide (l_step r < 0)) start
                ltac:(lia)) as (Ha1 & Ha2 & Ha3).
  pose proof (stop_of_bounds extent (bool_decide (l_step r < 0)) stop
                ltac:(lia)) as (Hb1 & Hb2).
  rewrite <- Ha in Ha1, Ha2, Ha3. rewrite <- Hb in Hb1, Hb2.
  clear Ha Hb H Hstart Hstop Hstep.
  revert Hn Hfw Hbw Ha1 Ha2 Ha3 Hb1 Hb2 Hnz.
  generalize (l_start r) (l_stop r) (l_step r) (l_new_extent r).
  intros a b st n -> Hfw Hbw Ha1 Ha2 Ha3 Hb1 Hb2 Hnz.
  unfold SliceSpec.new_extent_of.
  pose proof (Z.quot_rem' (b - a) st) as Hqr.
  destruct (decide (0 < st)) as [Hpos|Hneg].
  - specialize (Hfw Hpos).
    rewrite bool_decide_eq_false_2 in Ha3, Hb2 by lia.
    specialize (Ha3 (or_introl eq_refl)). specialize (Hb2 eq_refl).
    pose proof (Z.rem_bound_pos (b - a) st ltac:(lia) Hpos) as Hrb.
    assert (Hq : 0 <= Z.quot (b - a) st) by (apply Z.quot_pos; lia).
    repeat case_decide; repeat split; intros; try nia.
  - assert (Hst : st < 0) by lia. destruct (Hbw Hst) as [Hba Hex].
    rewrite bool_decide_eq_true_2 in Ha2 by lia.
    specialize (Ha2 eq_refl). specialize (Ha3 (or_intror Hex)).
    pose proof (Z.rem_bound_neg_neg (b - a) st) as Hrb.
    pose proof (Z.rem_bound_neg_pos (b - a) st) as Hrb'.
    assert (Hq : 0 <= Z.quot (b - a) st).
    { rewrite <- Z.quot_opp_opp by lia. apply Z.quot_pos; lia. }
    assert (Hr : st < Z.rem (b - a) st <= 0).
    { destruct (decide (b - a = 0)) as [->|Hne]; [rewrite Z.rem_0_l; lia|].
      apply Hrb; lia. }
    repeat case_decide; repeat split; intros; try nia.
Qed.

Lemma slice_selects_within_bounds_witness :
  exists r,
    visit_SliceSliceNode 4096 [10] [8] [0] [0] (Some 1) (Some 8) (Some 3) 0 0
    = Some r /\
    0 <= l_new_extent r <= 10 /\
    forall k, 0 <= k < l_new_extent r -> 0 <= l_start r + k * l_step r < 10.
Proof.
  eexists. split; [reflexivity|].
  destruct (slice_selects_within_bounds 4096 [10] [8] [0] [0]
              (Some 1) (Some 8) (Some 3) 0 0 10 _ eq_refl eq_refl)
    as (Hn & Hk & _).
  - rewrite max_signed_eq. lia.
  - simpl. unfold in_range. rewrite min_signed_eq, max_signed_eq. lia.
  - simpl. unfold in_range. rewrite min_signed_eq, max_signed_eq. lia.
  - simpl. unfold in_range. rewrite min_signed_eq, max_signed_eq. lia.
  - intros _. vm_compute. discriminate.
  - vm_compute. discriminate.
  - split; [exact Hn|]. intros k Hk'. apply (Hk k Hk').
Defined.

(** A slice whose stop lies on the wrong side of its start, by less than
    one step, gets the new extent 1 (and not 0): the quotient truncates to
    zero and the remainder is not zero. *)
Theorem slice_short_backward_extent_one data in_shape in_strides out_shape
    out_strides start stop step src_dim dst_dim extent r :
  visit_SliceSliceNode data in_shape in_strides out_shape out_strides
                       start stop step src_dim dst_dim = Some r ->
  ix in_shape src_dim = Some extent ->
  0 <= extent <= max_signed ->
  given_in_range start -> given_in_range stop -> given_in_range step ->
  (0 < l_step r /\ l_stop r < l_start r < l_stop r + l_step r) \/
  (l_step r < 0 /\ l_stop r + l_step r < l_start r < l_stop r) ->
  l_new_extent r = 1 /\ ix (out_shape' r) dst_dim = Some 1.
Proof.
  intros H Hext He Hstart Hstop Hstep Hdir.
  destruct (slice_locals _ _ _ _ _ _ _ _ _ _ _ _ H Hext He Hstart Hstop Hstep)
    as (_ & Hnz & _ & _ & Hn & Hos).
  assert (Hone : l_new_extent r = 1); [|rewrite Hos, Hone; done].
  rewrite Hn. unfold SliceSpec.new_extent_of.
  revert Hdir. generalize (l_start r) (l_stop r) (l_step r).
  intros a b st Hdir.
  assert (Hq : Z.quot (b - a) st = 0).
  { apply Z.quot_small_iff; [lia|]. lia. }
  pose proof (Z.quot_rem' (b - a) st) as Hqr.
  rewrite Hq in *. repeat case_decide; lia.
Qed.

Lemma slice_short_backward_extent_one_witness :
  exists r,
    visit_SliceSliceNode 4096 [10] [8] [0] [0] (Some 10) (Some 9) (Some 2) 0 0
    = Some r /\
    l_start r = 10 /\ l_new_extent r = 1.
Proof.
  eexists. split; [reflexivity|]. split; [reflexivity|].
  apply (slice_short_backward_extent_one 4096 [10] [8] [0] [0]
           (Some 10) (Some 9) (Some 2) 0 0 10 _ eq_refl eq_refl).
  - rewrite max_signed_eq. lia.
  - simpl. unfold in_range. rewrite min_signed_eq, max_signed_eq. lia.
  - simpl. unfold in_range. rewrite min_signed_eq, max_signed_eq. lia.
  - simpl. unfold in_range. rewrite min_signed_eq, max_signed_eq. lia.
  - left. vm_compute. repeat split; discriminate.
Defined.

Lemma visit_subslices_frame dims : forall s d in_shape v v',
  visit_subslices in_shape (rewrite_slice_loop dims s d).1.1 v = Some v' ->
  length (view_shape v') = length (view_shape v) /\
  length (view_strides v') = length (view_strides v) /\
  length (view_in_strides v') = length (view_in_strides v) /\
  (forall j, ~ d <= j < d + dst_axes dims ->
     ix (view_shape v') j = ix (view_shape v) j /\
     ix (view_strides v') j = ix (view_strides v) j) /\
  (forall j, ~ s <= j < s + src_axes dims ->
     ix (view_in_strides v') j = ix (view_in_strides v) j).
Proof.
  assert (Hsrc : forall dims, 0 <= src_axes dims).
  { induction dims0 as [|[| |] ? IH]; simpl; lia. }
  assert (Hdst : forall dims, 0 <= dst_axes dims).
  { induction dims0 as [|[| |] ? IH]; simpl; lia. }
  induction dims as [|sub rest IH]; intros s d in_shape v v' H.
  - simpl in H. injection H as <-. done.
  - cbn [rewrite_slice_loop] in H.
    specialize (Hsrc rest). specialize (Hdst rest).
    destruct sub as [lo up st| |i]; cbn [create_slice_dim_node] in H.
    + destruct (rewrite_slice_loop rest (s + 1) (d + 1))
        as [[slices s'] d'] eqn:E.
      cbn [fst visit_subslices visit_subslice] in H.
      destruct (visit_SliceSliceNode _ _ _ _ _ _ _ _ _ _) as [r|] eqn:Er;
        [|done].
      cbn [mbind option_bind] in H.
      unfold visit_SliceSliceNode in Er.
      apply body_frame in Er as (L1 & L2 & L3 & F1 & F2).
      specialize (IH (s + 1) (d + 1) in_shape). rewrite E in IH.
      apply IH in H as (M1 & M2 & M3 & G1 & G2).
      cbn [view_shape view_strides view_in_strides src_axes dst_axes] in *.
      split; [congruence|]. split; [congruence|]. split; [congruence|].
      split.
      * intros j Hj. destruct (G1 j ltac:(lia)) as [-> ->].
        apply F1. lia.
      * intros j Hj. rewrite G2 by lia. apply F2. lia.
    + destruct (rewrite_slice_loop rest s (d + 1))
        as [[slices s'] d'] eqn:E.
      cbn [fst visit_subslices visit_subslice visit_SliceDimNode] in H.
      destruct (NewAxis_body _ _ _) as [[sh st]|] eqn:En; [|done].
      cbn [mbind option_bind] in H.
      apply NewAxis_body_frame in En as (L1 & L2 & F1).
      specialize (IH s (d + 1) in_shape). rewrite E in IH.
      apply IH in H as (M1 & M2 & M3 & G1 & G2).
      cbn [view_shape view_strides view_in_strides src_axes dst_axes] in *.
      split; [congruence|]. split; [congruence|]. split; [congruence|].
      split.
      * intros j Hj. destruct (G1 j ltac:(lia)) as [-> ->].
        apply F1. lia.
      * intros j Hj. apply G2. lia.
    + destruct (rewrite_slice_loop rest (s + 1) d)
        as [[slices s'] d'] eqn:E.
      cbn [fst visit_subslices visit_subslice visit_SliceDimNode] in H.
      destruct (IndexAxis_body _ _ _ _ _) as [p|] eqn:Ei; [|done].
      cbn [mbind option_bind] in H.
      specialize (IH (s + 1) d in_shape). rewrite E in IH.
      apply IH in H as (M1 & M2 & M3 & G1 & G2).
      cbn [view_shape view_strides view_in_strides src_axes dst_axes] in *.
      split; [congruence|]. split; [congruence|]. split; [congruence|].
      split.
      * intros j Hj. apply G1. lia.
      * intros j Hj. apply G2. lia.
Qed.

(** The visit of a subscript writes the destination shape and strides
    only at the axes the subscript produces, and the source strides only
    at the axes it consumes: a destination axis at or beyond the number of
    slices and new axes keeps what the fresh stack array happened to hold,
    and no array changes its length. *)
Theorem native_slice_writes_subscript_axes data in_shape in_strides shape
    strides dims v :
  visit_NativeSliceNode data in_shape in_strides shape strides
                        (rewrite_slice dims) = Some v ->
  length (view_shape v) = length shape /\
  length (view_strides v) = length strides /\
  length (view_in_strides v) = length in_strides /\
  (forall j, dst_axes dims <= j ->
     ix (view_shape v) j = ix shape j /\ ix (view_strides v) j = ix strides j) /\
  (forall j, src_axes dims <= j -> ix (view_in_strides v) j = ix in_strides j).
Proof.
  unfold visit_NativeSliceNode, rewrite_slice. intros H.
  apply visit_subslices_frame in H as (L1 & L2 & L3 & F1 & F2).
  cbn [view_shape view_strides view_in_strides] in *.
  repeat split; try done.
  - apply F1. lia.
  - apply F1. lia.
  - intros j Hj. apply F2. lia.
Qed.

Lemma native_slice_writes_subscript_axes_witness :
  exists v,
    visit_NativeSliceNode 4096 [4; 10] [80; 8] [77; 77] [99; 99]
      (rewrite_slice [Slice (Some 1) (Some 3) None]) = Some v /\
    view_shape v = [2; 77] /\
    ix (view_shape v) 1 = Some 77 /\ ix (view_strides v) 1 = Some 99.
Proof.
  eexists. split; [reflexivity|]. split; [reflexivity|].
  destruct (native_slice_writes_subscript_axes 4096 [4; 10] [80; 8] [77; 77]
              [99; 99] [Slice (Some 1) (Some 3) None] _ eq_refl)
    as (_ & _ & _ & Hd & _).
  destruct (Hd 1 ltac:(simpl; lia)) as [H1 H2].
  split; [rewrite H1|rewrite H2]; reflexivity.
Defined.

End SliceExtra.

(** ** Reversing an axis twice *)

Module ReverseFacts.
Import Intp ArraySlicing IntpFacts ArraySlicingFacts SliceFacts SubscriptFacts
       SliceExtra.

Lemma wrap_shift z : exists k, wrap z = z + k * modulus.
Proof.
  exists (- ((z + 2 ^ (bits - 1)) / modulus)). unfold wrap, modulus, bits.
  change (2 ^ (64 - 1)) with 9223372036854775808.
  change (2 ^ 64) with 18446744073709551616.
  Z.div_mod_to_equations. lia.
Qed.

Lemma wrap_opp_opp s : in_range s -> wrap (- wrap (- s)) = s.
Proof.
  unfold in_range. rewrite min_signed_eq, max_signed_eq.
  unfold wrap, modulus, bits.
  change (2 ^ (64 - 1)) with 9223372036854775808.
  change (2 ^ 64) with 18446744073709551616.
  intros Hs. Z.div_mod_to_equations. lia.
Qed.

(** The slice [::-1] of an axis whose extent is not 1. *)
Lemma reverse_slice data in_shape in_strides out_shape out_strides
    src_dim dst_dim extent stride r :
  visit_SliceSliceNode data in_shape in_strides out_shape out_strides
                       None None (Some (-1)) src_dim dst_dim = Some r ->
  ix in_shape src_dim = Some extent ->
  ix in_strides src_dim = Some stride ->
  0 <= extent <= max_signed -> extent ≠ 1 ->
  result r = (data + (extent - 1) * stride) mod modulus /\
  ix (out_shape' r) dst_dim = Some extent /\
  ix (out_strides' r) dst_dim = Some (wrap (- stride)).
Proof.
  intros H Hext Hstr He H1.
  assert (Hm1 : given_in_range (Some (-1))).
  { simpl. unfold in_range. rewrite min_signed_eq, max_signed_eq. lia. }
  destruct (slice_locals _ _ _ _ _ _ _ _ _ _ _ _ H Hext He I I Hm1)
    as (Hst & _ & Ha & Hb & Hn & Hos).
  simpl in Hst. rewrite Hst in Ha, Hb, Hn.
  rewrite bool_decide_eq_true_2 in Ha, Hb by lia. simpl in Ha, Hb.
  rewrite Ha, Hb in Hn. unfold SliceSpec.new_extent_of in Hn.
  replace (-1 - (extent - 1)) with (- extent) in Hn by lia.
  change (Z.quot (- extent) (-1)) with (Z.quot (- extent) (Z.opp 1)) in Hn.
  change (Z.rem (- extent) (-1)) with (Z.rem (- extent) (Z.opp 1)) in Hn.
  rewrite Z.quot_opp_opp, Z.quot_1_r in Hn by lia.
  rewrite Z.rem_opp_opp, Z.rem_1_r in Hn by lia.
  destruct (decide (- 0 ≠ 0)) as [Hx|_] in Hn; [lia|].
  rewrite decide_False in Hn by lia.
  unfold visit_SliceSliceNode in H.
  destruct (SliceClaims.body_pointer_and_stride _ _ _ _ _ _ _ _ _ _ _ _ _
              H Hstr) as [Hp _].
  destruct Hp as (Hres & Hot & _); [lia|].
  rewrite Hres, Hot, Hos, Hn, Ha, Hst. rewrite ptr_add_mul_mod.
  repeat split. unfold Intp.mul. do 2 f_equal. lia.
Qed.

(** Reversing an axis twice gives the view back: the slice [::-1] of the
    slice [::-1] of an axis whose extent is not 1 has the data pointer,
    the extent and the stride of the axis it started from. *)
Theorem reverse_twice_restores data in_shape in_strides out_shape out_strides
    out_shape2 out_strides2 src_dim dst_dim dst_dim2 extent stride r1 r2 :
  visit_SliceSliceNode data in_shape in_strides out_shape out_strides
                       None None (Some (-1)) src_dim dst_dim = Some r1 ->
  visit_SliceSliceNode (result r1) (out_shape' r1) (out_strides' r1)
                       out_shape2 out_strides2
                       None None (Some (-1)) dst_dim dst_dim2 = Some r2 ->
  ix in_shape src_dim = Some extent ->
  ix in_strides src_dim = Some stride ->
  0 <= extent <= max_signed -> extent ≠ 1 ->
  in_range stride -> 0 <= data < modulus ->
  result r2 = data /\
  ix (out_shape' r2) dst_dim2 = Some extent /\
  ix (out_strides' r2) dst_dim2 = Some stride.
Proof.
  intros H1 H2 Hext Hstr He Hne Hs Hdata.
  destruct (reverse_slice _ _ _ _ _ _ _ _ _ _ H1 Hext Hstr He Hne)
    as (Hr1 & Hs1 & Ht1).
  destruct (reverse_slice _ _ _ _ _ _ _ _ _ _ H2 Hs1 Ht1 He Hne)
    as (Hr2 & Hs2 & Ht2).
  rewrite Hs2, Ht2, wrap_opp_opp by done. repeat split.
  rewrite Hr2, Hr1. destruct (wrap_shift (- stride)) as [k ->].
  assert (Hm : 0 < modulus) by (unfold modulus, bits; lia).
  rewrite Z.add_mod_idemp_l by lia.
  replace (data + (extent - 1) * stride
           + (extent - 1) * (- stride + k * modulus))
    with (data + ((extent - 1) * k) * modulus) by lia.
  rewrite Z.mod_add by lia. apply Z.mod_small. done.
Qed.

Lemma reverse_twice_restores_witness :
  match visit_SliceSliceNode 4096 [10] [8] [0] [0] None None (Some (-1)) 0 0
  with
  | Some r1 =>
      match visit_SliceSliceNode (result r1) (out_shape' r1) (out_strides' r1)
                                 [0] [0] None None (Some (-1)) 0 0 with
      | Some r2 =>
          result r2 = 4096 /\
          ix (out_shape' r2) 0 = Some 10 /\ ix (out_strides' r2) 0 = Some 8
      | None => False
      end
  | None => False
  end.
Proof.
  destruct (visit_SliceSliceNode 4096 [10] [8] [0] [0] None None (Some (-1)) 0 0)
    as [r1|] eqn:E1; [|vm_compute in E1; discriminate E1].
  destruct (visit_SliceSliceNode (result r1) (out_shape' r1) (out_strides' r1)
                                 [0] [0] None None (Some (-1)) 0 0)
    as [r2|] eqn:E2.
  - apply (reverse_twice_restores 4096 [10] [8] [0] [0] [0] [0] 0 0 0 10 8
             r1 r2 E1 E2 eq_refl eq_refl).
    + rewrite max_signed_eq. lia.
    + lia.
    + unfold in_range. rewrite min_signed_eq, max_signed_eq. lia.
    + unfold modulus, bits. lia.
  - vm_compute in E1. injection E1 as <-. vm_compute in E2. discriminate E2.
Defined.

End ReverseFacts.

(** ** Broadcasting: where it is defined, and what it does not depend on *)

Module BroadcastExtra.
Import Intp ArraySlicing IntpFacts ArraySlicingFacts BroadcastFacts.

(** A run that has a result met an extent of 1 on every axis that has no
    place in the destination: there the destination is not read. *)
Lemma for_range_unshifted n : forall i off dst src str r,
  for_range n i off dst src str = Some r ->
  forall j, i <= j < i + Z.of_nat n -> j + off < 0 -> ix src j = Some 1.
Proof.
  induction n as [|n IH]; intros i off dst src str r H j Hj Hoff; simpl in H;
    [lia|].
  obind H. case_decide.
  - subst. obind H. destruct (decide (j = i)) as [->|Hne]; [done|].
    eapply IH; [done|lia|done].
  - obind H. apply ix_Some in E0. lia.
Qed.

(** The loop returns whenever the operand's arrays hold the axes it runs
    over and each axis either has a place in the destination or has the
    extent 1. *)
Lemma for_range_total_unit n : forall i off dst src str,
  0 <= i ->
  i + Z.of_nat n <= Z.of_nat (length src) ->
  i + Z.of_nat n <= Z.of_nat (length str) ->
  i + off + Z.of_nat n <= Z.of_nat (length dst) ->
  (forall j, i <= j < i + Z.of_nat n -> j + off < 0 -> ix src j = Some 1) ->
  exists ret dst' str', for_range n i off dst src str = Some (ret, dst', str').
Proof.
  induction n as [|n IH]; intros i off dst src str Hi Hs Ht Hd Hu; simpl.
  - eauto.
  - assert (Hse : exists se, ix src i = Some se).
    { unfold ix. rewrite decide_True by lia.
      apply lookup_lt_is_Some_2. lia. }
    destruct Hse as [se Hse]. rewrite Hse. cbn [mbind option_bind].
    case_decide.
    + destruct (set_ix_is_Some str i 0 ltac:(lia)) as [str1 Hstr1].
      rewrite Hstr1. cbn [mbind option_bind].
      apply IH; try lia.
      * rewrite (set_ix_length _ _ _ _ Hstr1). lia.
      * intros j Hj. apply Hu. lia.
    + assert (Hoff : 0 <= i + off).
      { destruct (decide (0 <= i + off)) as [|Hneg]; [done|].
        specialize (Hu i ltac:(lia) ltac:(lia)). congruence. }
      assert (Hde : exists de, ix dst (i + off) = Some de).
      { unfold ix. rewrite decide_True by lia.
        apply lookup_lt_is_Some_2. lia. }
      destruct Hde as [de ->]. cbn [mbind option_bind].
      repeat case_decide.
      * destruct (set_ix_is_Some dst (i + off) se ltac:(lia)) as [dst1 Hdst1].
        rewrite Hdst1. cbn [mbind option_bind].
        apply IH; try lia.
        rewrite (set_ix_length _ _ _ _ Hdst1). lia.
      * eauto.
      * apply IH; lia.
Qed.

(** The routine reads the destination at the operand's axes shifted by
    [max_ndim - ndim], and only on the axes where the operand's extent is
    not 1: with arrays of the lengths the two dimension counts announce, it
    has a result exactly when every axis the operand has beyond those of
    the destination (its first [ndim - max_ndim] axes) has the extent 1.
    So it always has one when the operand has no more axes than the
    destination. *)
Theorem broadcast_defined_iff dst src str max_ndim ndim :
  0 <= ndim ->
  Z.of_nat (length src) = ndim -> Z.of_nat (length str) = ndim ->
  Z.of_nat (length dst) = max_ndim ->
  (is_Some (Broadcast_body dst src str max_ndim ndim)
   <-> forall j, 0 <= j < ndim - max_ndim -> ix src j = Some 1).
Proof.
  intros Hn Hs Ht Hd. unfold Broadcast_body. split.
  - intros [r Hr] j Hj.
    eapply for_range_unshifted; [exact Hr|lia|lia].
  - intros Hu.
    destruct (for_range_total_unit (Z.to_nat ndim) 0 (max_ndim - ndim)
                dst src str) as (ret & dst' & str' & ->); try lia.
    + intros j Hj Hoff. apply Hu. lia.
    + eauto.
Qed.

Lemma broadcast_defined_iff_witness :
  is_Some (Broadcast_body [1; 1] [3] [8] 2 1) /\
  is_Some (Broadcast_body [5] [1; 5] [40; 8] 1 2) /\
  ~ is_Some (Broadcast_body [1] [4; 3] [24; 8] 1 2).
Proof.
  split; [|split].
  - apply (broadcast_defined_iff [1; 1] [3] [8] 2 1); simpl; lia.
  - apply (broadcast_defined_iff [5] [1; 5] [40; 8] 1 2); simpl; try lia.
    intros j Hj. assert (j = 0) as -> by lia. reflexivity.
  - intros H.
    pose proof (proj1 (broadcast_defined_iff [1] [4; 3] [24; 8] 1 2
                         ltac:(lia) eq_refl eq_refl eq_refl) H 0 ltac:(lia))
      as Hx.
    discriminate Hx.
Defined.

Lemma set_ix_same l i v : ix l i = Some v -> set_ix l i v = Some l.
Proof.
  intros H. pose proof (ix_Some _ _ _ H) as Hr. unfold set_ix, ix in *.
  rewrite decide_True by lia. rewrite decide_True in H by lia.
  rewrite list_insert_id by done. done.
Qed.

(** A run over axes that already follow the rule changes nothing. *)
Lemma for_range_settled n : forall i off dst src str,
  0 <= i ->
  (forall j, i <= j < i + Z.of_nat n ->
     exists e, ix src j = Some e /\
               (e = 1 -> ix str j = Some 0) /\
               (e ≠ 1 -> ix dst (j + off) = Some e)) ->
  for_range n i off dst src str = Some (1, dst, str).
Proof.
  induction n as [|n IH]; intros i off dst src str Hi H; simpl; [done|].
  destruct (H i ltac:(lia)) as (e & -> & H1 & H2).
  cbn [mbind option_bind]. case_decide.
  - rewrite (set_ix_same str i 0) by auto. cbn [mbind option_bind].
    apply IH; [lia|]. intros j Hj. apply H. lia.
  - rewrite (H2 ltac:(done)). cbn [mbind option_bind]. repeat case_decide.
    + done.
    + done.
    + apply IH; [lia|]. intros j Hj. apply H. lia.
Qed.

(** A run that ends with 1 read every axis of the operand. *)
Lemma for_range_reads n : forall i off dst src str ret dst' str',
  for_range n i off dst src str = Some (ret, dst', str') -> ret = 1 ->
  0 <= i ->
  forall j, i <= j < i + Z.of_nat n -> is_Some (ix src j).
Proof.
  induction n as [|n IH]; intros i off dst src str ret dst' str' H Hret Hi j Hj;
    simpl in H; [lia|].
  obind H.
  destruct (decide (j = i)) as [->|Hne]; [eauto|].
  case_decide.
  - obind H. eapply IH; [done|done|lia|lia].
  - obind H. repeat case_decide.
    + obind H. eapply IH; [done|done|lia|lia].
    + injection H as <- <- <-. done.
    + eapply IH; [done|done|lia|lia].
Qed.

(** Broadcasting is idempotent: after a successful call, calling the
    routine again on the arrays it left behind succeeds and changes
    nothing. *)
Theorem broadcast_idempotent dst src str max_ndim ndim dst' str' :
  Broadcast_body dst src str max_ndim ndim = Some (1, dst', str') ->
  Broadcast_body dst' src str' max_ndim ndim = Some (1, dst', str').
Proof.
  unfold Broadcast_body. intros H.
  destruct (for_range_ok _ _ _ _ _ _ _ _ H ltac:(lia)) as (A & _ & _).
  destruct (for_range_ret _ _ _ _ _ _ _ _ _ H) as (_ & Hl & _).
  apply for_range_settled; [lia|]. intros j Hj.
  destruct (for_range_reads _ _ _ _ _ _ _ _ _ H eq_refl ltac:(lia) j Hj)
    as [e He].
  exists e. destruct (A j e Hj He) as [A1 A2]. split; [exact He|]. split.
  - intros He1. apply A1. done.
  - intros Hne. destruct (A2 Hne) as (_ & Hx & _). exact Hx.
Qed.

Lemma broadcast_idempotent_witness :
  Broadcast_body [1; 3] [4; 1] [8; 8] 2 2 = Some (1, [4; 3], [8; 0]) /\
  Broadcast_body [4; 3] [4; 1] [8; 0] 2 2 = Some (1, [4; 3], [8; 0]).
Proof.
  split; [reflexivity|].
  apply (broadcast_idempotent [1; 3] [4; 1] [8; 8] 2 2). reflexivity.
Defined.

(** What a visit comes to: it returns exactly when no two operands
    conflict, and the shape it returns satisfies the invariant. *)
Lemma visit_outcome (n : nat) operands :
  Forall (op_wf (Z.of_nat n)) operands ->
  exists out,
    visit_BroadcastNode n operands = Some out /\
    ((exists shape operands', out = Returned shape operands')
     <-> ~ conflict (Z.of_nat n) operands) /\
    (forall shape operands', out = Returned shape operands' ->
       Inv (Z.of_nat n) shape operands).
Proof.
  intros Hwf. unfold visit_BroadcastNode.
  destruct (broadcast_operands_total _ operands (replicate n 1) Hwf)
    as (shape & ops' & retvals & Hbo); [rewrite length_replicate; done|].
  rewrite Hbo. cbn [mbind option_bind].
  pose proof (broadcast_operands_rets _ _ _ _ _ _ Hbo) as Hrets.
  destruct (broadcast_operands_iff _ _ [] _ _ _ _ Hwf
              (BroadcastClaims.Inv_init n) Hbo)
    as [Hiff Hinv]. rewrite app_nil_l in *.
  destruct (visitlist_check_errors retvals Hrets) as [[Hall ->]|[H0 ->]].
  - eexists. split; [done|]. split.
    + split; [intros _; apply Hiff; done|eauto].
    + intros ? ? [= <- <-]. apply Hinv. done.
  - assert (Hno : ~ Forall (eq 1) retvals).
    { intros Hf. rewrite Forall_forall in Hf. specialize (Hf _ H0). done. }
    eexists. split; [done|]. split.
    + split; [intros (? & ? & ?); done|]. intros Hc. tauto.
    + intros ? ? [=].
Qed.

Lemma conflict_Permutation max_ndim ops ops' :
  ops ≡ₚ ops' -> conflict max_ndim ops -> conflict max_ndim ops'.
Proof.
  intros Hp (p & q & d & e1 & e2 & Hp1 & Hq1 & R).
  exists p, q, d, e1, e2. rewrite <- Hp. done.
Qed.

Lemma Inv_shape_unique max_ndim shape shape' ops ops' :
  ops ≡ₚ ops' ->
  Inv max_ndim shape ops -> Inv max_ndim shape' ops' -> shape = shape'.
Proof.
  intros Hp (Hl & A & B) (Hl' & A' & B').
  apply list_eq. intros k.
  destruct (decide (k < length shape)%nat) as [Hk|Hk].
  2: { rewrite !lookup_ge_None_2; [done|lia|lia]. }
  destruct (lookup_lt_is_Some_2 shape k Hk) as [a Ha].
  destruct (lookup_lt_is_Some_2 shape' k ltac:(lia)) as [b Hb].
  rewrite Ha, Hb. f_equal.
  assert (Ha' : ix shape (Z.of_nat k) = Some a).
  { unfold ix. rewrite decide_True by lia. rewrite Nat2Z.id. done. }
  assert (Hb' : ix shape' (Z.of_nat k) = Some b).
  { unfold ix. rewrite decide_True by lia. rewrite Nat2Z.id. done. }
  destruct (decide (a = 1)) as [->|Hna].
  - destruct (decide (b = 1)) as [->|Hnb]; [done|].
    destruct (B' _ _ Hb' Hnb) as (p & Hp1 & Hp2 & Hp3).
    rewrite <- Hp in Hp1. pose proof (A p _ _ Hp1 Hp2 Hp3 Hnb). congruence.
  - destruct (B _ _ Ha' Hna) as (p & Hp1 & Hp2 & Hp3).
    rewrite Hp in Hp1. pose proof (A' p _ _ Hp1 Hp2 Hp3 Hna). congruence.
Qed.

(** The broadcast shape does not depend on the order of the operands:
    if the visit of a list of operands returns a shape, the visit of any
    permutation of the list returns the same shape. *)
Theorem broadcast_shape_order_independent (n : nat) operands operands'
    shape ops1 :
  operands ≡ₚ operands' ->
  Forall (op_wf (Z.of_nat n)) operands ->
  visit_BroadcastNode n operands = Some (Returned shape ops1) ->
  exists ops2, visit_BroadcastNode n operands' = Some (Returned shape ops2).
Proof.
  intros Hp Hwf Hv.
  assert (Hwf' : Forall (op_wf (Z.of_nat n)) operands')
    by (rewrite <- Hp; done).
  destruct (visit_outcome n operands Hwf) as (out & Ho & Hiff & Hinv).
  destruct (visit_outcome n operands' Hwf') as (out' & Ho' & Hiff' & Hinv').
  rewrite Hv in Ho. injection Ho as <-.
  assert (Hnc : ~ conflict (Z.of_nat n) operands') .
  { intros Hc. apply Hiff; [eauto|].
    eapply conflict_Permutation; [symmetry; exact Hp|exact Hc]. }
  apply Hiff' in Hnc as (shape' & ops2 & ->).
  exists ops2. rewrite Ho'. do 2 f_equal. symmetry.
  eapply Inv_shape_unique; [exact Hp| |].
  - apply (Hinv shape ops1). reflexivity.
  - apply (Hinv' shape' ops2). reflexivity.
Qed.

Lemma broadcast_shape_order_independent_witness :
  exists ops1 ops2,
    visit_BroadcastNode 2 [array_1x3; array_4x1] = Some (Returned [4; 3] ops1) /\
    visit_BroadcastNode 2 [array_4x1; array_1x3] = Some (Returned [4; 3] ops2).
Proof.
  assert (Hv : visit_BroadcastNode 2 [array_1x3; array_4x1]
               = Some (Returned [4; 3]
                  [ {| is_array := true; op_ndim := 2; op_shape := [1; 3];
                       op_strides := [0; 8] |};
                    {| is_array := true; op_ndim := 2; op_shape := [4; 1];
                       op_strides := [8; 0] |} ])) by reflexivity.
  assert (Hwf : Forall (op_wf (Z.of_nat 2)) [array_1x3; array_4x1]).
  { apply Forall_cons_2; [|apply Forall_cons_2; [|apply Forall_nil_2]];
      intros _; simpl; lia. }
  destruct (broadcast_shape_order_independent 2 [array_1x3; array_4x1]
              [array_4x1; array_1x3] [4; 3] _ (perm_swap _ _ _) Hwf Hv)
    as [ops2 H2].
  eexists. exists ops2. split; [exact Hv|exact H2].
Defined.

End BroadcastExtra.

(** ** The strides of a shared-memory array *)

Module CudaStridesFacts.
Import CudaTransform.

Lemma product_app l1 l2 : product (l1 ++ l2) = product l1 * product l2.
Proof.
  unfold product. induction l1 as [|x l1 IH]; simpl; [lia|].
  rewrite IH. lia.
Qed.

Lemma product_reverse l : product (reverse l) = product l.
Proof.
  induction l as [|x l IH]; [done|].
  rewrite reverse_cons, product_app, IH. unfold product. simpl. lia.
Qed.

Lemma tmp_strides_loop_spec extents : forall pre x,
  exists suffix,
    tmp_strides_loop extents (pre ++ [x]) = Some (pre ++ [x] ++ suffix) /\
    length suffix = length extents /\
    forall k, (k < length extents)%nat ->
      suffix !! k = Some (x * product (take (S k) extents)).
Proof.
  induction extents as [|s rest IH]; intros pre x.
  - exists []. simpl. split; [done|]. split; [done|]. intros k Hk. lia.
  - cbn [tmp_strides_loop]. rewrite last_snoc. cbn [mbind option_bind].
    destruct (IH (pre ++ [x]) (x * s)) as (suffix & Hs & Hl & Hk).
    exists ((x * s) :: suffix). split; [|split].
    + rewrite Hs. f_equal. rewrite <- !app_assoc. done.
    + simpl. lia.
    + intros [|k] Hlt.
      * simpl. unfold product. simpl. f_equal. lia.
      * simpl in Hlt. cbn [lookup list_lookup]. rewrite Hk by lia.
        f_equal. cbn [take]. unfold product. cbn [foldr]. lia.
Qed.

(** The strides of a shared-memory array are those of a C-contiguous
    array: one per axis of a shape that has at least one, each the element
    size times the extents of the axes after it; for the empty shape the
    code still makes one stride, the element size. *)
Theorem smem_strides_c_contiguous shape itemsize :
  exists strides,
    smem_strides shape itemsize = Some strides /\
    length strides = Nat.max 1 (length shape) /\
    (shape = [] -> strides = [itemsize]) /\
    forall k, (k < length shape)%nat ->
      strides !! k = Some (itemsize * product (drop (S k) shape)).
Proof.
  unfold smem_strides.
  destruct (tmp_strides_loop_spec (reverse (drop 1 shape)) [] itemsize)
    as (suffix & Hs & Hl & Hk).
  rewrite app_nil_l in Hs. rewrite Hs. cbn [mbind option_bind app].
  rewrite length_reverse, length_drop in Hl, Hk.
  exists (reverse (itemsize :: suffix)). split; [done|]. split; [|split].
  - rewrite length_reverse. simpl. lia.
  - intros ->. simpl in Hl. destruct suffix; [done|simpl in Hl; lia].
  - intros k Hlt.
    rewrite reverse_lookup by (simpl; lia). simpl length.
    destruct (decide (k = length shape - 1)%nat) as [->|Hne].
    + replace (S (length suffix) - S (length shape - 1))%nat with 0%nat by lia.
      simpl. rewrite drop_ge by lia. unfold product. simpl. f_equal. lia.
    + replace (S (length suffix) - S k)%nat
        with (S (length shape - 2 - k)) by lia.
      cbn [lookup list_lookup]. rewrite Hk by lia. do 2 f_equal.
      rewrite take_reverse, product_reverse, length_drop, drop_drop.
      f_equal. f_equal. lia.
Qed.

End CudaStridesFacts.

(** ** Generated code: names and frames *)

Module LLVMFacts.
Import LLVM.

Section Frame.
Context {rt : runtime}.
Implicit Types (m : machine rt) (c : code).

Lemma dsts_in_mono c : forall lo hi lo' hi',
  dsts_in lo hi c -> (lo' <= lo)%nat -> (hi <= hi')%nat -> dsts_in lo' hi' c.
Proof.
  induction c; simpl; intros lo hi lo' hi' H Hlo Hhi; try done.
  - destruct H; split; eauto.
  - lia.
  - destruct H; split; eauto.
Qed.

(** Code only writes the values it names. *)
Lemma exec_regs_frame c : forall lo hi m r,
  dsts_in lo hi c -> (r < lo \/ hi <= r)%nat ->
  regs (exec c m) !! r = regs m !! r.
Proof.
  induction c as [|c1 IH1 c2 IH2|dst rh|v p|cond c1 IH1 c2 IH2];
    simpl; intros lo hi m r H Hr.
  - done.
  - destruct H as [H1 H2]. rewrite (IH2 lo hi), (IH1 lo hi); done.
  - destruct rh; try (simpl; apply lookup_insert_ne; lia).
    destruct (extcall rt fn _ _ _) as [[? ?] ?]. simpl.
    apply lookup_insert_ne. lia.
  - destruct (eval m p); done.
  - destruct H as [H1 H2]. destruct (truthy _); eauto.
Qed.

Lemma exec_eval_frame c lo hi m o :
  dsts_in lo hi c -> op_lt lo o -> eval (exec c m) o = eval m o.
Proof.
  intros H Ho. destruct o as [r| |]; simpl; try done.
  rewrite (exec_regs_frame c lo hi); [done|done|]. simpl in Ho. lia.
Qed.

Lemma op_lt_mono n n' o : op_lt n o -> (n <= n')%nat -> op_lt n' o.
Proof. destruct o; simpl; lia. Qed.

End Frame.

End LLVMFacts.

Module GenFacts.
Import LLVM LLVMFacts PythonAPI.

Lemma bind_Ok {A B} (g : Gen A) (f : A -> Gen B) st b c st' :
  (g ≫= f) st = Ok (b, c, st') ->
  exists a c1 st1 c2,
    g st = Ok (a, c1, st1) /\ f a st1 = Ok (b, c2, st') /\ c = Seq c1 c2.
Proof.
  unfold mbind, gen_bind. destruct (g st) as [[[a c1] st1]|]; [|done].
  destruct (f a st1) as [[[b' c2] st2]|] eqn:E; [|done].
  intros [= <- <- <-]. exists a, c1, st1, c2. done.
Qed.

Lemma ret_Ok {A} (a : A) st b c st' :
  mret (M := Gen) a st = Ok (b, c, st') -> b = a /\ c = Skip /\ st' = st.
Proof. intros [= <- <- <-]. done. Qed.

Lemma emit_Ok r st o c st' :
  emit r st = Ok (o, c, st') ->
  o = Reg (fresh st) /\ c = Let (fresh st) r /\
  st' = {| fresh := S (fresh st); module := module st |}.
Proof. intros [= <- <- <-]. done. Qed.

Lemma ifelse_Ok {A B} cond (g1 : Gen A) (g2 : Gen B) st r c st' :
  ifelse cond g1 g2 st = Ok (r, c, st') ->
  exists a c1 st1 b c2,
    g1 st = Ok (a, c1, st1) /\ g2 st1 = Ok (b, c2, st') /\
    r = (a, b) /\ c = IfElse cond c1 c2.
Proof.
  unfold ifelse. destruct (g1 st) as [[[a c1] st1]|]; [|done].
  destruct (g2 st1) as [[[b c2] st2]|] eqn:E; [|done].
  intros [= <- <- <-]. exists a, c1, st1, b, c2. done.
Qed.

Lemma alloca_once_Ok st o c st' :
  alloca_once st = Ok (o, c, st') ->
  o = Const (VSlot (fresh st)) /\ c = Skip /\
  st' = {| fresh := S (fresh st); module := module st |}.
Proof. intros [= <- <- <-]. done. Qed.

Lemma store_Ok v p st u c st' :
  store v p st = Ok (u, c, st') -> c = Store v p /\ st' = st.
Proof. intros [= <- <- <-]. done. Qed.

Lemma alloca_once_value_Ok v st o c st' :
  alloca_once_value v st = Ok (o, c, st') ->
  o = Const (VSlot (fresh st)) /\
  c = Seq Skip (Seq (Store v (Const (VSlot (fresh st)))) Skip) /\
  st' = {| fresh := S (fresh st); module := module st |}.
Proof. intros [= <- <- <-]. done. Qed.

(** Inverting one generator step in a hypothesis. *)
Ltac gstep H :=
  first
    [ apply ret_Ok in H as (-> & -> & ->)
    | apply emit_Ok in H as (-> & -> & ->)
    | apply alloca_once_value_Ok in H as (-> & -> & ->)
    | apply alloca_once_Ok in H as (-> & -> & ->)
    | apply store_Ok in H as (-> & ->)
    | apply ifelse_Ok in H as (? & ? & ? & ? & ? & ? & H & -> & ->)
    | apply bind_Ok in H as (? & ? & ? & ? & ? & H & ->) ];
  cbn [fresh module] in *.

(** Inverting every step that can be. *)
Ltac ginv :=
  repeat match goal with
         | H : _ = Ok _ |- _ => gstep H
         end.

(** Induction over types, through the element lists of tuples. *)
Lemma type_nested_ind (P : type -> Prop) :
  (forall typ, is_leaf typ -> P typ) ->
  (forall typ, P typ -> P (Optional typ)) ->
  (forall types, Forall P types -> P (Tuple types)) ->
  (forall dtype count, P dtype -> P (UniTuple dtype count)) ->
  forall typ, P typ.
Proof.
  intros Hleaf Hopt Htup Huni. fix IH 1. intros typ.
  destruct typ; try (apply Hleaf; exact I).
  - apply Hopt. apply IH.
  - apply Htup. induction types as [|t ts IHts]; constructor.
    + apply IH.
    + apply IHts.
  - apply Huni. apply IH.
Qed.

Lemma get_serialized_Ok st d c st' :
  get_serialized st = Ok (d, c, st') ->
  d = __serialized (module st) /\ c = Skip /\ st' = st.
Proof. intros [= <- <- <-]. done. Qed.

Lemma set_serialized_Ok d st u c st' :
  set_serialized d st = Ok (u, c, st') ->
  c = Skip /\ fresh st' = fresh st /\
  __serialized (module st') = d /\ globals (module st') = globals (module st).
Proof. intros [= <- <- <-]. done. Qed.

Lemma insert_unique_const_Ok name val st o c st' :
  insert_unique_const name val st = Ok (o, c, st') ->
  o = Global name /\ c = Skip /\ fresh st' = fresh st /\
  __serialized (module st') = __serialized (module st).
Proof. intros [= <- <- <-]. done. Qed.

(** Serializing names no value and emits no instruction. *)
Lemma serialize_object_fresh obj st gv c st' :
  serialize_object obj st = Ok (gv, c, st') ->
  fresh st' = fresh st /\ forall lo hi, dsts_in lo hi c.
Proof.
  unfold serialize_object. intros H.
  gstep H. apply get_serialized_Ok in H0 as (-> & -> & ->).
  destruct (dict_getitem _ obj) as [gv'| |].
  - gstep H. simpl. done.
  - gstep H. unfold pickle_dumps in H0.
    destruct (py_pickle obj) as [data|]; [|done]. gstep H0.
    gstep H. apply insert_unique_const_Ok in H0 as (-> & -> & E1 & _).
    gstep H. apply insert_unique_const_Ok in H0 as (-> & -> & E2 & _).
    gstep H. apply get_serialized_Ok in H0 as (-> & -> & ->).
    gstep H. apply set_serialized_Ok in H0 as (-> & E3 & _).
    gstep H. simpl. split; [congruence|done].
  - done.
Qed.

(** The conversions of the types that contain no other type. *)
Lemma to_native_leaf_wf typ :
  is_leaf typ -> conv_wf (fun obj => to_native_value obj typ).
Proof.
  intros Hl obj [n md] nv c st' H.
  destruct typ; try (exfalso; exact Hl);
    try (cbv in H; discriminate H);
    try (cbv in H; injection H as <- <- <-; simpl;
         repeat split; try lia; try (intros; assumption);
         destruct obj; simpl; lia).
  - destruct signed; cbv in H; injection H as <- <- <-; simpl;
      repeat split; lia.
  - destruct get_pointer as [gp|]; [|cbv in H; discriminate H].
    cbv -[serialize_object] in H.
    destruct (serialize_object gp _) as [[[gv cs] [n1 md1]]|] eqn:E;
      [|discriminate H].
    apply serialize_object_fresh in E as [E1 E2]. simpl in E1. subst n1.
    injection H as <- <- <-. simpl.
    repeat split; try lia; try apply E2.
Qed.

Lemma to_native_optional_wf conv :
  conv_wf conv -> conv_wf (to_native_optional conv).
Proof.
  intros Hconv obj [n md] nv c st' H. unfold to_native_optional in H.
  unfold make_optional_none, make_optional_value in H.
  ginv. apply Hconv in H as (Hle & Hd & _). cbn [fresh] in *.
  simpl. repeat split; try lia.
  eapply dsts_in_mono; [exact Hd|lia|lia].
Qed.

(** The loop of the tuple conversion keeps its accumulators in scope. *)
Lemma to_native_tuple_loop_wf convs : forall obj i values cleanups err st r c st',
  Forall conv_wf convs ->
  to_native_tuple_loop convs obj i values cleanups err st = Ok (r, c, st') ->
  (fresh st <= fresh st')%nat /\
  dsts_in (fresh st) (fresh st') c /\
  (Forall (op_lt (fresh st)) values -> op_lt (fresh st) err ->
   Forall (op_lt (fresh st')) r.1.1 /\ op_lt (fresh st') r.2).
Proof.
  induction convs as [|conv rest IH];
    intros obj i values cleanups err [n md] r c st' Hwf H; simpl in H.
  - ginv. simpl. repeat split; try lia; tauto.
  - apply Forall_cons in Hwf as [Hconv Hrest]. unfold tuple_getitem in H.
    ginv.
    match goal with Hc : conv _ _ = Ok _ |- _ =>
      apply Hconv in Hc as (Hle & Hd & Hb) end.
    match goal with Hl : to_native_tuple_loop _ _ _ _ _ _ _ = Ok _ |- _ =>
      apply IH in Hl as (Hle2 & Hd2 & Hb2); [|done] end.
    cbn [fresh module] in *.
    split; [lia|]. split.
    + simpl. repeat split; try lia.
      * eapply dsts_in_mono; [exact Hd|lia|lia].
      * eapply dsts_in_mono; [exact Hd2|lia|lia].
    + intros Hv He. apply Hb2.
      * apply Forall_app. split.
        -- eapply Forall_impl; [eassumption|].
           intros o Hlt. eapply op_lt_mono; [exact Hlt|lia].
        -- constructor; [|constructor].
           eapply op_lt_mono; [apply Hb; simpl; lia|lia].
      * simpl. lia.
Qed.

Lemma insert_values_wf values : forall agg i st o c st',
  insert_values agg i values st = Ok (o, c, st') ->
  (fresh st <= fresh st')%nat /\ dsts_in (fresh st) (fresh st') c /\
  (op_lt (fresh st) agg -> op_lt (fresh st') o).
Proof.
  induction values as [|v rest IH]; intros agg i [n md] o c st' H; simpl in H.
  - ginv. simpl. repeat split; try lia. tauto.
  - ginv. apply IH in H as (Hle & Hd & Hb). cbn [fresh] in *.
    simpl. repeat split; try lia.
    + eapply dsts_in_mono; [exact Hd|lia|lia].
    + intros _. apply Hb. simpl. lia.
Qed.

Lemma to_native_tuple_wf convs is_unituple :
  Forall conv_wf convs -> conv_wf (to_native_tuple convs is_unituple).
Proof.
  intros Hwf obj [n md] nv c st' H. unfold to_native_tuple in H.
  ginv.
  match goal with Hl : to_native_tuple_loop _ _ _ _ _ _ _ = Ok (?r, _, _) |- _ =>
    destruct r as [[values cleanups] err];
    apply to_native_tuple_loop_wf in Hl as (Hle & Hd & Hb); [|done] end.
  ginv. cbn [fresh module] in *.
  match goal with Hi : _ = Ok (?v, ?cv, ?sv) |- _ =>
    assert (Hins : insert_values (undef_agg (length values)) 0 values _
                   = Ok (v, cv, sv))
      by (destruct is_unituple; [|exact Hi];
          unfold pack_array in Hi; destruct values; [discriminate Hi|exact Hi]);
    clear Hi end.
  apply insert_values_wf in Hins as (Hle3 & Hd3 & Hb3).
  simpl. repeat split; try lia.
  - eapply dsts_in_mono; [exact Hd|lia|lia].
  - eapply dsts_in_mono; [exact Hd3|lia|lia].
  - apply Hb3. simpl. done.
  - eapply op_lt_mono; [apply Hb; simpl; try done; constructor|lia].
Qed.

(** Every conversion of [to_native_value] is well scoped. *)
Lemma to_native_value_wf typ : conv_wf (fun obj => to_native_value obj typ).
Proof.
  induction typ as [typ Hl|typ IH|types IH|dtype count IH]
    using type_nested_ind.
  - apply to_native_leaf_wf. done.
  - simpl. apply to_native_optional_wf. exact IH.
  - simpl. apply to_native_tuple_wf.
    apply Forall_map. eapply Forall_impl; [exact IH|]. done.
  - simpl. apply to_native_tuple_wf.
    apply Forall_replicate. exact IH.
Qed.

End GenFacts.

(** ** Conversions to [Optional(T)] *)

Module OptionalFacts.
Import LLVM LLVMFacts PythonAPI GenFacts.

Section Run.
Context {rt : runtime}.
Implicit Types (m : machine rt).

Lemma exec_Seq c1 c2 m : exec (Seq c1 c2) m = exec c2 (exec c1 m).
Proof. reflexivity. Qed.

Lemma eval_set_reg_eq m r v : eval (set_reg m r v) (Reg r) = v.
Proof. simpl. rewrite lookup_insert_eq. done. Qed.

Lemma eval_set_reg_ne m r v o :
  o ≠ Reg r -> eval (set_reg m r v) o = eval m o.
Proof.
  destruct o as [r'| |]; simpl; try done. intros Hne.
  rewrite lookup_insert_ne; [done|]. congruence.
Qed.

Lemma eval_same_regs m m' n o :
  op_lt n o ->
  (forall r, (r < n)%nat -> regs m' !! r = regs m !! r) ->
  eval m' o = eval m o.
Proof.
  destruct o as [r| |]; simpl; [|done|done]. intros Hr H. rewrite H; done.
Qed.

(** The cleanup of an optional runs the underlying cleanup under the test
    the conversion made. *)
Lemma exec_ifthen_cleanup cond (cl : Gen unit) stc m :
  exec (code_of (ifthen cond cl) stc) m
  = if truthy (eval m cond) then exec (code_of cl stc) m else m.
Proof.
  unfold code_of, ifthen, ifelse, mbind, gen_bind, mret, gen_ret.
  destruct (cl stc) as [[[u c1] st1]|]; simpl.
  - destruct (truthy _); done.
  - destruct (truthy _); done.
Qed.

Lemma exec_Skip m : exec Skip m = m.
Proof. reflexivity. Qed.

Lemma exec_Let_pure d r m :
  match r with Call _ _ => False | _ => True end ->
  exec (Let d r) m = set_reg m d (pure_rhs m r).
Proof. destruct r; simpl; tauto. Qed.

Lemma exec_Store_slot v s m :
  exec (Store v (Const (VSlot s))) m
  = {| regs := regs m; mem := <[s := eval m v]> (mem m);
       state := state m; trace := trace m |}.
Proof. reflexivity. Qed.

Lemma exec_IfElse cond c1 c2 m :
  exec (IfElse cond c1 c2) m
  = if truthy (eval m cond) then exec c1 m else exec c2 m.
Proof. reflexivity. Qed.

(** Running straight-line code one instruction at a time, innermost
    first, so that no machine is ever duplicated. *)
Ltac no_exec m :=
  lazymatch m with
  | context [@exec _ _ _] => fail
  | _ => idtac
  end.

Ltac norm_machine :=
  cbn [set_reg pure_rhs eval load regs mem state trace default from_option id
       icmp false_bit borrow_none get_c_object insert list_insert];
  unfold b2v; cbv iota;
  repeat (rewrite lookup_insert_eq || rewrite lookup_insert_ne by lia);
  cbn [default from_option id].

Ltac run_step :=
  match goal with
  | |- context [exec (Seq ?c1 ?c2) ?m] =>
      no_exec m; rewrite (exec_Seq c1 c2 m)
  | |- context [exec Skip ?m] => no_exec m; rewrite (exec_Skip m)
  | |- context [exec (Let ?d ?r) ?m] =>
      no_exec m; rewrite (exec_Let_pure d r m I); norm_machine
  | |- context [exec (Store ?v (Const (VSlot ?s))) ?m] =>
      no_exec m; rewrite (exec_Store_slot v s m); norm_machine
  end.

(** Converting the none singleton: the test fails, the branch that holds
    the underlying conversion is skipped, and the two slots are read back
    as the absent value and the initial flag. *)
Lemma optional_none_run typ obj st nv c st' m :
  to_native_value obj (Optional typ) st = Ok (nv, c, st') ->
  eval m obj = eval m borrow_none ->
  eval (exec c m) (value nv) = VAgg [VUndef; VInt 1 0] /\
  eval (exec c m) (is_error nv) = VInt 1 0 /\
  eval (exec c m) (Reg (fresh st)) = VInt 1 0 /\
  trace (exec c m) = trace m /\
  state (exec c m) = state m /\
  mem (exec c m) !! S (S (fresh st)) = Some (VInt 1 0) /\
  (cleanup nv = None \/
   exists cl, cleanup nv = Some (ifthen (Reg (fresh st)) cl)).
Proof.
  destruct st as [n md]. simpl to_native_value. intros H Hobj.
  unfold to_native_optional, make_optional_none, make_optional_value in H.
  ginv. simpl in Hobj.
  match goal with Hc : to_native_value _ _ _ = Ok (_, _, ?stT) |- _ =>
    pose proof (to_native_value_wf _ _ _ _ _ _ Hc) as (Hle & _ & _);
    generalize dependent stT; intros stT0 end.
  cbn [fresh] in *.
  match goal with |- context [IfElse _ ?ct _] => generalize ct; intros CT end.
  match goal with |- context [cleanup ?x] =>
    generalize (cleanup x); intros ocl end.
  match goal with |- context [exec ?c m] =>
    assert (Hm : exec c m
                 = {| regs := <[S (S (S (fresh stT0))) := VInt 1 0]>
                                (<[S (S (fresh stT0)) := VAgg [VUndef; VInt 1 0]]>
                                   (<[n := VInt 1 0]> (regs m)));
                      mem := <[S n := VAgg [VUndef; VInt 1 0]]>
                               (<[S n := VUndef]>
                                  (<[S (S n) := VInt 1 0]> (mem m)));
                      state := state m; trace := trace m |});
    [|rewrite Hm; clear Hm]
  end.
  { do 6 run_step. rewrite Hobj. norm_machine.
    rewrite bool_decide_eq_false_2 by (intros Hx; apply Hx; reflexivity).
    norm_machine. repeat run_step.
    rewrite exec_IfElse. norm_machine.
    change (truthy (VInt 1 0)) with false. cbv iota.
    repeat run_step. reflexivity. }
  cbn [mkNativeValue value is_error cleanup].
  repeat split; norm_machine; try done.
  destruct ocl; eauto.
Qed.

(** Converting any other object: the test succeeds, the underlying
    conversion runs on the object, and the two slots are read back as its
    value wrapped as present and its flag. *)
Lemma optional_present_run typ obj st nv c st' m a :
  to_native_value obj (Optional typ) st = Ok (nv, c, st') ->
  op_lt (fresh st) obj ->
  eval m obj = VPtr a -> a ≠ symbol rt "Py_None" ->
  exists native cT stT,
    to_native_value obj typ
      {| fresh := S (S (S (fresh st))); module := module st |}
      = Ok (native, cT, stT) /\
    let m1 := exec (Seq (Let (fresh st) (Icmp NE obj borrow_none))
                        (Store false_bit (Const (VSlot (S (S (fresh st)))))))
                   m in
    let mT := exec cT m1 in
    eval (exec c m) (value nv) = VAgg [eval mT (value native); VInt 1 1] /\
    eval (exec c m) (is_error nv) = eval mT (is_error native) /\
    eval (exec c m) (Reg (fresh st)) = VInt 1 1 /\
    trace (exec c m) = trace mT /\
    state (exec c m) = state mT /\
    cleanup nv = match cleanup native with
                 | Some cl => Some (ifthen (Reg (fresh st)) cl)
                 | None => None
                 end.
Proof.
  destruct st as [n md]. simpl to_native_value. intros H Hlt Hobj Hne.
  unfold to_native_optional, make_optional_none, make_optional_value in H.
  ginv. cbn [fresh module] in *.
  match goal with Hc : to_native_value _ _ _ = Ok (?nat, ?cT, ?stT) |- _ =>
    pose proof (to_native_value_wf _ _ _ _ _ _ Hc) as (Hle & Hd & Hb);
    exists nat, cT, stT; split; [exact Hc|];
    rename nat into native; rename cT into cT0; rename stT into stT0 end.
  cbn [fresh] in *.
  destruct Hb as [Hbv Hbe]; [eapply op_lt_mono; [exact Hlt|lia]|].
  cbv zeta.
  assert (Hm1 : exec (Seq (Let n (Icmp NE obj borrow_none))
                          (Store false_bit (Const (VSlot (S (S n)))))) m
                = {| regs := <[n := VInt 1 1]> (regs m);
                     mem := <[S (S n) := VInt 1 0]> (mem m);
                     state := state m; trace := trace m |}).
  { do 2 run_step. rewrite Hobj. norm_machine.
    rewrite bool_decide_eq_true_2 by congruence.
    norm_machine. run_step. reflexivity. }
  rewrite Hm1.
  match goal with |- context [exec cT0 ?m1] =>
    pose proof (exec_regs_frame cT0 _ _ m1 n Hd ltac:(lia)) as Hfr;
    remember (exec cT0 m1) as mT eqn:HmT end.
  cbn [regs] in Hfr. rewrite lookup_insert_eq in Hfr.
  assert (Hbe' : forall v1 v2 mm,
            eval {| regs := <[S (fresh stT0) := v2]>
                              (<[fresh stT0 := v1]> (regs mT));
                    mem := mm; state := state mT; trace := trace mT |}
                 (is_error native)
            = eval mT (is_error native)).
  { intros v1 v2 mm. destruct (is_error native) as [r| |]; simpl in *; try done.
    repeat rewrite lookup_insert_ne by lia. done. }
  match goal with |- context [exec ?c m] =>
    lazymatch c with
    | context [IfElse] =>
      assert (Hm : exec c m
                   = {| regs := <[S (S (S (fresh stT0))) := eval mT (is_error native)]>
                                  (<[S (S (fresh stT0)) :=
                                       VAgg [eval mT (value native); VInt 1 1]]>
                                     (<[S (fresh stT0) :=
                                          VAgg [eval mT (value native); VInt 1 1]]>
                                        (<[fresh stT0 :=
                                             VAgg [eval mT (value native); VInt 1 0]]>
                                           (regs mT))));
                        mem := <[S (S n) := eval mT (is_error native)]>
                                 (<[S n := VAgg [eval mT (value native); VInt 1 1]]>
                                    (mem mT));
                        state := state mT; trace := trace mT |});
      [|rewrite Hm; clear Hm]
    end
  end.
  { do 6 run_step. rewrite Hobj. norm_machine.
    rewrite bool_decide_eq_true_2 by congruence.
    norm_machine. repeat run_step.
    rewrite exec_IfElse. norm_machine.
    change (truthy (VInt 1 1)) with true. cbv iota.
    run_step. rewrite <- HmT.
    do 4 run_step.
    do 3 run_step.
    match goal with |- context [exec (Store (is_error native) _) ?mm] =>
      rewrite (exec_Store_slot (is_error native) _ mm) end.
    cbn [regs mem state trace]. rewrite Hbe'.
    repeat run_step. reflexivity. }
  cbn [mkNativeValue value is_error cleanup].
  repeat split; norm_machine; try done.
  rewrite Hfr. done.
Qed.

End Run.

End OptionalFacts.

Module OptionalClaims.
Import LLVM LLVMFacts PythonAPI GenFacts OptionalFacts.

(** C7: code generated for a conversion to [Optional(T)], run on any
    machine over any runtime.  If the object is the none singleton, the
    value is the absent optional, no function of the runtime is called and
    the runtime is left as it was (the conversion of [T] is not run), and
    running the cleanup, when there is one, changes nothing (the cleanup of
    [T] is not run).  If the object is any other object, the run is that of
    [T]'s conversion on the object: the value is [T]'s value wrapped as
    present, the flag is [T]'s flag, the calls made and the runtime reached
    are [T]'s; there is a cleanup exactly when [T] has one, and running it
    then runs [T]'s. *)
Theorem optional_branch_exclusive {rt : runtime} typ obj st nv c st'
    (m : machine rt) :
  to_native_value obj (Optional typ) st = Ok (nv, c, st') ->
  op_lt (fresh st) obj ->
  (eval m obj = eval m borrow_none ->
     eval (exec c m) (value nv) = VAgg [VUndef; VInt 1 0] /\
     trace (exec c m) = trace m /\
     state (exec c m) = state m /\
     forall cl stc, cleanup nv = Some cl ->
       exec (code_of cl stc) (exec c m) = exec c m) /\
  (forall a, eval m obj = VPtr a -> a ≠ symbol rt "Py_None" ->
     exists native cT stT,
       to_native_value obj typ
         {| fresh := S (S (S (fresh st))); module := module st |}
         = Ok (native, cT, stT) /\
       let m1 := exec (Seq (Let (fresh st) (Icmp NE obj borrow_none))
                           (Store false_bit
                                  (Const (VSlot (S (S (fresh st))))))) m in
       let mT := exec cT m1 in
       eval (exec c m) (value nv) = VAgg [eval mT (value native); VInt 1 1] /\
       eval (exec c m) (is_error nv) = eval mT (is_error native) /\
       trace (exec c m) = trace mT /\
       state (exec c m) = state mT /\
       (cleanup nv = None <-> cleanup native = None) /\
       forall cl, cleanup native = Some cl ->
         exists cl', cleanup nv = Some cl' /\
           forall stc, exec (code_of cl' stc) (exec c m)
                       = exec (code_of cl stc) (exec c m)).
Proof.
  intros H Hlt. split.
  - intros Hobj.
    destruct (optional_none_run _ _ _ _ _ _ m H Hobj)
      as (Hv & _ & Hr & Ht & Hs & _ & Hcl).
    repeat split; try done. intros cl stc Hc.
    destruct Hcl as [Hn|[cl0 Hcl]]; [congruence|].
    rewrite Hcl in Hc. injection Hc as <-.
    rewrite exec_ifthen_cleanup, Hr. done.
  - intros a Hobj Hne.
    destruct (optional_present_run _ _ _ _ _ _ m a H Hlt Hobj Hne)
      as (native & cT & stT & Hc & Hv & He & Hr & Ht & Hs & Hcl).
    exists native, cT, stT. split; [exact Hc|]. cbv zeta.
    repeat split; try done.
    + rewrite Hcl. destruct (cleanup native); done.
    + rewrite Hcl. intros ->. done.
    + intros cl Hn. rewrite Hcl, Hn. eexists. split; [done|].
      intros stc. rewrite exec_ifthen_cleanup, Hr. done.
Qed.

(** The none singleton and the integer 5, each to an optional integer. *)
Lemma optional_branch_exclusive_witness :
  match CPython.optional_int64_of CPython.none_addr with
  | Ok (nv, c, _) =>
      let m := exec c (CPython.machine_of CPython.interp0) in
      eval m (value nv) = VAgg [VUndef; VInt 1 0] /\ trace m = []
  | Raise _ _ => False
  end /\
  match CPython.optional_int64_of 64 with
  | Ok (nv, c, _) =>
      let m := exec c (CPython.machine_of CPython.interp_with_5) in
      eval m (value nv) = VAgg [VInt 64 5; VInt 1 1]
  | Raise _ _ => False
  end.
Proof.
  split.
  - destruct (CPython.optional_int64_of CPython.none_addr)
      as [[[nv c] st']|] eqn:E; [|vm_compute in E; discriminate E].
    unfold CPython.optional_int64_of in E.
    destruct (optional_branch_exclusive (rt := CPython.rt) _ _ _ _ _ _
                (CPython.machine_of CPython.interp0) E I) as [Hn _].
    destruct (Hn eq_refl) as (Hv & Ht & _). split; [exact Hv|exact Ht].
  - destruct (CPython.optional_int64_of 64)
      as [[[nv c] st']|] eqn:E; [|vm_compute in E; discriminate E].
    unfold CPython.optional_int64_of in E.
    destruct (optional_branch_exclusive (rt := CPython.rt) _ _ _ _ _ _
                (CPython.machine_of CPython.interp_with_5) E I) as [_ Hp].
    destruct (Hp 64 eq_refl ltac:(vm_compute; discriminate))
      as (native & cT & stT & Hc & Hv & _).
    cbv zeta. rewrite Hv. vm_compute in Hc. injection Hc as <- <- <-.
    vm_compute. reflexivity.
Defined.

(** C10: converting the none singleton to [Optional(T)] returns an unset
    error flag, whatever [T] and whatever the runtime: the slot of the flag
    is initialized to false before the branch, and the branch taken does
    not write it. *)
Theorem optional_none_flag_unset {rt : runtime} typ obj st nv c st'
    (m : machine rt) :
  to_native_value obj (Optional typ) st = Ok (nv, c, st') ->
  eval m obj = eval m borrow_none ->
  eval (exec c m) (is_error nv) = VInt 1 0 /\
  mem (exec c m) !! S (S (fresh st)) = Some (VInt 1 0).
Proof.
  intros H Hobj.
  destruct (optional_none_run _ _ _ _ _ _ m H Hobj)
    as (_ & He & _ & _ & _ & Hm & _).
  split; [exact He|exact Hm].
Qed.

(** The none singleton to an optional integer, on the model runtime. *)
Lemma optional_none_flag_unset_witness :
  match CPython.optional_int64_of CPython.none_addr with
  | Ok (nv, c, _) =>
      eval (exec c (CPython.machine_of CPython.interp0)) (is_error nv)
      = VInt 1 0
  | Raise _ _ => False
  end.
Proof.
  destruct (CPython.optional_int64_of CPython.none_addr)
    as [[[nv c] st']|] eqn:E; [|vm_compute in E; discriminate E].
  unfold CPython.optional_int64_of in E.
  exact (proj1 (optional_none_flag_unset (rt := CPython.rt) _ _ _ _ _ _
                  (CPython.machine_of CPython.interp0) E eq_refl)).
Defined.

End OptionalClaims.

(** ** Conversions of tuples *)

Module TupleFacts.
Import LLVM LLVMFacts PythonAPI GenFacts OptionalFacts.

(** Calling the functions of a list runs the code of each, once, in the
    order of the list. *)
Lemma call_all_run funcs : forall st u c st',
  call_all funcs st = Ok (u, c, st') ->
  (forall (rt : runtime) (m : machine rt),
     exec c m = exec_all (codes_of funcs st) m) /\
  length (codes_of funcs st) = length funcs.
Proof.
  induction funcs as [|f rest IH]; intros st u c st' H; simpl in H.
  - ginv. done.
  - gstep H.
    match goal with Hf : f st = Ok _ |- _ => simpl; rewrite Hf end.
    apply IH in H as [Hr Hl]. split.
    + intros rt m. simpl. rewrite Hr. done.
    + simpl. rewrite Hl. done.
Qed.

Lemma take_insert_drop {A} (l : list A) (i k : nat) x xs :
  (i < length l)%nat ->
  take (S i) (<[i := x]> l) ++ xs ++ drop (S i + k) (<[i := x]> l)
  = take i l ++ (x :: xs) ++ drop (i + S k) l.
Proof.
  intros Hi.
  rewrite (take_S_r _ i x) by (apply list_lookup_insert_eq; exact Hi).
  rewrite take_insert_ge by lia. rewrite drop_insert_lt by lia.
  replace (i + S k)%nat with (S i + k)%nat by lia.
  rewrite <- app_assoc. done.
Qed.

Section Run.
Context {rt : runtime}.
Implicit Types (m : machine rt).

(** The values are inserted in order from index [i] on; the fields before
    and after are those of the aggregate the insertion started from. *)
Lemma insert_values_run values : forall agg i st o c st' m fs,
  insert_values agg i values st = Ok (o, c, st') ->
  op_lt (fresh st) agg -> Forall (op_lt (fresh st)) values ->
  eval m agg = VAgg fs -> (i + length values <= length fs)%nat ->
  eval (exec c m) o
  = VAgg (take i fs ++ (eval m <$> values) ++ drop (i + length values) fs) /\
  state (exec c m) = state m.
Proof.
  induction values as [|v rest IH]; intros agg i [n md] o c st' m fs H Hagg Hvs
    Hev Hlen; simpl in H.
  - ginv. simpl. rewrite Nat.add_0_r, take_drop. done.
  - ginv. cbn [fresh] in *. apply Forall_cons in Hvs as [Hv Hrest].
    match goal with Hl : insert_values _ _ _ _ = Ok (_, ?cr, _) |- _ =>
      rename Hl into Hins; rename cr into crest end.
    simpl in Hlen.
    rewrite exec_Seq, (exec_Let_pure n (InsertValue agg v i) m I).
    cbn [pure_rhs]. rewrite Hev.
    set (M := set_reg m n (VAgg (<[i := eval m v]> fs))).
    destruct (IH _ _ _ _ _ _ M (<[i := eval m v]> fs) Hins) as [Hval Hst].
    + simpl. lia.
    + eapply Forall_impl; [exact Hrest|].
      intros o' Ho'. eapply op_lt_mono; [exact Ho'|cbn [fresh]; lia].
    + apply eval_set_reg_eq.
    + rewrite length_insert. lia.
    + rewrite Hval, Hst. split; [|done]. f_equal.
      assert (Hl : eval M <$> rest = eval m <$> rest).
      { apply Forall_fmap_ext_1. eapply Forall_impl; [exact Hrest|].
        intros o' Ho'. eapply eval_same_regs; [exact Ho'|].
        intros r' Hr'. unfold M, set_reg. cbn [regs].
        rewrite lookup_insert_ne by lia. done. }
      rewrite Hl. cbn [length fmap list_fmap].
      apply take_insert_drop. lia.
Qed.

(** Packing values: the aggregate of the values, in order. *)
Lemma pack_values_run values st o c st' m :
  insert_values (undef_agg (length values)) 0 values st = Ok (o, c, st') ->
  Forall (op_lt (fresh st)) values ->
  eval (exec c m) o = VAgg (eval m <$> values) /\ state (exec c m) = state m.
Proof.
  intros H Hvs.
  destruct (insert_values_run _ _ _ _ _ _ _ m (replicate (length values) VUndef)
              H I Hvs eq_refl) as [Hval Hst].
  - rewrite length_replicate. lia.
  - split; [|exact Hst]. rewrite Hval. simpl.
    rewrite drop_ge by (rewrite length_replicate; lia).
    rewrite app_nil_r. done.
Qed.

(** The loop of the tuple conversion: the values and the cleanups of the
    elements are collected in order, and the flag it ends with is the [or]
    of the flag it started with and the flags of the elements. *)
Lemma to_native_tuple_loop_run convs :
  forall obj i values cleanups err st values' cleanups' err' c st',
  Forall conv_wf convs ->
  to_native_tuple_loop convs obj i values cleanups err st
    = Ok ((values', cleanups', err'), c, st') ->
  exists natives,
    tuple_elements obj i st convs natives /\
    values' = values ++ (value <$> natives) /\
    cleanups' = cleanups ++ omap cleanup natives /\
    Forall (fun n => op_lt (fresh st') (is_error n)) natives /\
    forall m, op_lt (fresh st) err ->
      eval (exec c m) err'
      = foldl (bitop orb) (eval m err)
              ((fun n => eval (exec c m) (is_error n)) <$> natives).
Proof.
  induction convs as [|conv rest IH];
    intros obj i values cleanups err [n md] values' cleanups' err' c st' Hwf H;
    simpl in H.
  - injection H as <- <- <- <- <-. exists []. simpl. rewrite !app_nil_r.
    repeat split; try done. constructor.
  - apply Forall_cons in Hwf as [Hconv Hrest]. unfold tuple_getitem in H.
    ginv.
    match goal with Hc : conv _ _ = Ok (?nat, ?cT, ?stT) |- _ =>
      pose proof (Hconv _ _ _ _ _ Hc) as (Hle & Hd & Hb);
      rename nat into native; rename cT into cT0; rename stT into stT0;
      rename Hc into Hcv end.
    cbn [fresh module] in *.
    destruct Hb as [_ Hbe]; [simpl; lia|].
    match goal with Hl : to_native_tuple_loop _ _ _ _ _ _ _ = Ok (_, ?cr, _) |- _ =>
      pose proof (to_native_tuple_loop_wf _ _ _ _ _ _ _ _ _ _ Hrest Hl)
        as (Hle2 & Hd2 & _);
      apply IH in Hl as (natives & Hel & Hv & Hc & Hbn & Hfold); [|done];
      rename cr into crest end.
    cbn [fresh module] in *.
    exists (native :: natives). split; [|split; [|split; [|split]]].
    + econstructor; [exact Hcv|exact Hel].
    + rewrite Hv, <- app_assoc. done.
    + rewrite Hc. simpl. destruct (cleanup native); [|done].
      rewrite <- app_assoc. done.
    + constructor; [|done]. eapply op_lt_mono; [exact Hbe|lia].
    + intros m Herr.
      rewrite !exec_Seq.
      match goal with |- context [exec (Let n ?r) m] =>
        set (m1 := exec (Let n r) m);
        assert (Hm1 : eval m1 err = eval m err)
          by (apply (exec_eval_frame (Let n r) n (S n)); [simpl; lia|done])
      end.
      set (m2 := exec cT0 m1).
      assert (Hm2 : eval m2 err = eval m err).
      { rewrite <- Hm1. apply (exec_eval_frame cT0 (S n) (fresh stT0));
          [done|eapply op_lt_mono; [exact Herr|lia]]. }
      match goal with |- context [exec (Let ?k ?r) m2] =>
        set (m3 := exec (Let k r) m2) end.
      rewrite (Hfold m3) by (simpl; lia).
      rewrite fmap_cons. cbn [foldl]. f_equal.
      subst m3. cbn [exec]. rewrite eval_set_reg_eq. cbn [pure_rhs].
      rewrite Hm2. f_equal.
      rewrite (exec_eval_frame crest (S (fresh stT0)) (fresh st'));
        [|done|eapply op_lt_mono; [exact Hbe|lia]].
      rewrite eval_set_reg_ne; [done|].
      destruct (is_error native) as [r| |]; simpl in *; try done.
      intros [= ->]. lia.
Qed.

(** The conversion of a tuple from its element conversions. *)
Lemma to_native_tuple_run convs is_unituple obj st nv c st' :
  Forall conv_wf convs ->
  to_native_tuple convs is_unituple obj st = Ok (nv, c, st') ->
  exists natives,
    tuple_elements obj 0 st convs natives /\
    (forall m,
       eval (exec c m) (is_error nv)
       = foldl (bitop orb) (VInt 1 0)
               ((fun n => eval (exec c m) (is_error n)) <$> natives)) /\
    (forall m,
       eval (exec c m) (value nv)
       = VAgg ((fun n => eval (exec c m) (value n)) <$> natives)) /\
    cleanup nv = match omap cleanup natives with
                 | [] => None
                 | cs => Some (call_all (reverse cs))
                 end.
Proof.
  intros Hwf H. unfold to_native_tuple in H. ginv.
  match goal with Hl : to_native_tuple_loop _ _ _ _ _ _ _ = Ok (?r, ?cl, ?sl) |- _ =>
    destruct r as [[values cleanups] err];
    pose proof (to_native_tuple_loop_wf _ _ _ _ _ _ _ _ _ _ Hwf Hl)
      as (Hle & Hd & Hb);
    destruct (to_native_tuple_loop_run _ _ _ _ _ _ _ _ _ _ _ _ Hwf Hl)
      as (natives & Hel & Hv & Hc & Hbn & Hfold);
    rename cl into cloop; rename sl into stl end.
  ginv. cbn [fresh module fst snd] in *.
  destruct Hb as [Hbv Hberr]; [constructor|done|].
  match goal with Hi : _ = Ok (?v, ?cv, ?sv) |- _ =>
    assert (Hins : insert_values (undef_agg (length values)) 0 values stl
                   = Ok (v, cv, sv))
      by (destruct is_unituple; [|exact Hi];
          unfold pack_array in Hi; destruct values; [discriminate Hi|exact Hi]);
    clear Hi; rename cv into cins end.
  pose proof (insert_values_wf _ _ _ _ _ _ _ Hins) as (Hle3 & Hd3 & _).
  exists natives. split; [exact Hel|]. split; [|split].
  2: { intros m. cbn [value mkNativeValue]. rewrite !exec_Seq.
       change (exec Skip ?x) with x.
       destruct (pack_values_run _ _ _ _ _ (exec cloop m) Hins Hbv) as [-> _].
       f_equal. subst values. cbn [app] in *. rewrite <- list_fmap_compose.
       apply Forall_fmap_ext_1. rewrite Forall_fmap in Hbv.
       eapply Forall_impl; [exact Hbv|].
       intros n Hn. simpl. symmetry.
       apply (exec_eval_frame cins _ _ _ _ Hd3 Hn). }
  - intros m. cbn [is_error mkNativeValue]. rewrite !exec_Seq.
    change (exec Skip ?x) with x.
    rewrite (exec_eval_frame cins _ _ _ _ Hd3 Hberr).
    rewrite (Hfold m) by done.
    assert (Hext : (fun n => eval (exec cloop m) (is_error n)) <$> natives
                   = (fun n => eval (exec cins (exec cloop m)) (is_error n))
                       <$> natives).
    { apply Forall_fmap_ext. eapply Forall_impl; [exact Hbn|].
      intros n Hn. simpl. symmetry.
      apply (exec_eval_frame cins _ _ _ _ Hd3 Hn). }
    rewrite Hext. done.
  - cbn [cleanup mkNativeValue]. rewrite Hc. simpl.
    destruct (omap cleanup natives); done.
Qed.

End Run.

End TupleFacts.

Module TupleClaims.
Import LLVM LLVMFacts PythonAPI GenFacts OptionalFacts TupleFacts.

Lemma omap_cleanup_nil natives :
  omap cleanup natives = [] <-> Forall (fun n => cleanup n = None) natives.
Proof.
  induction natives as [|n rest IH]; simpl.
  - split; [constructor|done].
  - destruct (cleanup n) eqn:E.
    + split; [done|]. intros Hf. apply Forall_cons in Hf as [? _]. congruence.
    + rewrite IH. split.
      * intros Hf. constructor; done.
      * intros Hf. apply Forall_cons in Hf as [_ ?]. done.
Qed.

(** C6 as worded fails.  A tuple of three records whose last item is the
    none singleton, which is no record: the conversion of element 2 fails
    (the flag is set, the interpreter has an error pending) and its value
    is the NULL pointer that [numba_extract_record_data] returned.  That
    invalid value is not left out: it is packed as field 2 of the result,
    after the addresses of the two records.  The cleanup of the failed
    element is not left out either: its buffer is released first, then
    those of elements 1 and 0. *)
Lemma failed_element_value_is_used :
  match to_native_value (Const (VPtr 80)) CPython.three_records genstate0 with
  | Ok (nv, c, st') =>
      let m := exec c (CPython.machine_of CPython.interp_with_tuple) in
      eval m (is_error nv) = VInt 1 1 /\
      CPython.err (state m) = true /\
      eval m (value nv) = VAgg [VPtr 1000; VPtr 2000; VPtr 0] /\
      (fun cl => drop (length (trace m)) (trace (exec (code_of cl st') m)))
        <$> cleanup nv
      = Some [("numba_release_buffer", [VSlot 13]);
              ("numba_release_buffer", [VSlot 7]);
              ("numba_release_buffer", [VSlot 1])]
  | Raise _ _ => False
  end.
Proof. vm_compute. repeat split; reflexivity. Qed.

(** C6, amended: code generated for the conversion of a tuple, run on any
    machine over any runtime.  The elements are converted one after the
    other (element [i] is fetched with [PyTuple_GetItem], then converted);
    the flag of the result is the [or] of the flags of all the elements;
    the value of the result is the aggregate of the values of all the
    elements in order, with no test of any flag: the value of an element
    whose conversion failed is packed like the others; the result has a
    cleanup exactly when some element has one, and the code that cleanup
    emits is the code of the cleanups of all the elements that have one,
    failed or not, one piece per cleanup, run in the reverse of the order
    of the elements, with no test of any flag before them.  In particular,
    for a tuple of two records and an integer whose last element is no
    integer, the flag is set, the two buffers acquired for the records are
    released, the second first, and the value of the failed element is
    copied, undefined, into the aggregate. *)
Theorem tuple_flag_and_cleanup :
  (forall (rt : runtime) typ obj st nv c st',
     is_tuple typ ->
     to_native_value obj typ st = Ok (nv, c, st') ->
     exists natives,
       tuple_elements obj 0 st
         (List.map (fun eltype obj => to_native_value obj eltype)
                   (iter_types typ)) natives /\
       (forall m : machine rt,
          eval (exec c m) (is_error nv)
          = foldl (bitop orb) (VInt 1 0)
                  ((fun n => eval (exec c m) (is_error n)) <$> natives)) /\
       (forall m : machine rt,
          eval (exec c m) (value nv)
          = VAgg ((fun n => eval (exec c m) (value n)) <$> natives)) /\
       (cleanup nv = None <-> Forall (fun n => cleanup n = None) natives) /\
       (forall cl stc u cc stc',
          cleanup nv = Some cl -> cl stc = Ok (u, cc, stc') ->
          (forall m : machine rt,
             exec cc m
             = exec_all (codes_of (reverse (omap cleanup natives)) stc) m) /\
          length (codes_of (reverse (omap cleanup natives)) stc)
          = length (omap cleanup natives))) /\
  match to_native_value (Const (VPtr 80)) CPython.two_records_and_int64
                        genstate0 with
  | Ok (nv, c, st') =>
      let m := exec c (CPython.machine_of CPython.interp_with_tuple) in
      eval m (is_error nv) = VInt 1 1 /\
      eval m (value nv) = VAgg [VPtr 1000; VPtr 2000; VUndef] /\
      (fun cl => drop (length (trace m)) (trace (exec (code_of cl st') m)))
        <$> cleanup nv
      = Some [("numba_release_buffer", [VSlot 7]);
              ("numba_release_buffer", [VSlot 1])]
  | Raise _ _ => False
  end.
Proof.
  split.
  - intros rt typ obj st nv c st' Ht H.
    assert (Hrun : exists b,
      to_native_tuple
        (List.map (fun eltype obj => to_native_value obj eltype)
                  (iter_types typ)) b obj st = Ok (nv, c, st')).
    { destruct typ; try (exfalso; exact Ht).
      - exists false. exact H.
      - exists true. simpl iter_types.
        match goal with |- context [List.map ?f (replicate ?n ?t)] =>
          change (List.map f (replicate n t)) with (f <$> replicate n t) end.
        rewrite fmap_replicate. exact H. }
    destruct Hrun as [b Hrun].
    apply (to_native_tuple_run (rt := rt)) in Hrun
      as (natives & Hel & Hfold & Hval & Hcl).
    2: { apply Forall_map. apply Forall_forall. intros t _.
         apply to_native_value_wf. }
    exists natives. split; [exact Hel|]. split; [exact Hfold|].
    split; [exact Hval|]. split.
    + rewrite Hcl, <- omap_cleanup_nil.
      destruct (omap cleanup natives); done.
    + intros cl stc u cc stc' Hc Hcc. rewrite Hcl in Hc.
      destruct (omap cleanup natives) as [|c0 cs] eqn:E; [done|].
      injection Hc as <-. apply call_all_run in Hcc as [Hr Hlen].
      split; [exact (Hr rt)|]. rewrite Hlen, length_reverse. done.
  - vm_compute. repeat split; reflexivity.
Qed.

(** A tuple of two records and an integer, through the general
    statement. *)
Lemma tuple_flag_and_cleanup_witness :
  match to_native_value (Const (VPtr 80)) CPython.two_records_and_int64
                        genstate0 with
  | Ok (nv, c, st') =>
      exists natives,
        (forall m : machine CPython.rt,
           eval (exec c m) (is_error nv)
           = foldl (bitop orb) (VInt 1 0)
                   ((fun n => eval (exec c m) (is_error n)) <$> natives)) /\
        (forall m : machine CPython.rt,
           eval (exec c m) (value nv)
           = VAgg ((fun n => eval (exec c m) (value n)) <$> natives)) /\
        (cleanup nv = None <-> Forall (fun n => cleanup n = None) natives)
  | Raise _ _ => False
  end.
Proof.
  destruct (to_native_value (Const (VPtr 80)) CPython.two_records_and_int64
                            genstate0)
    as [[[nv c] st']|] eqn:E; [|vm_compute in E; discriminate E].
  destruct tuple_flag_and_cleanup as [Hgen _].
  destruct (Hgen CPython.rt CPython.two_records_and_int64 _ _ _ _ _ I E)
    as (natives & _ & Hfold & Hval & Hcl & _).
  exists natives. split; [exact Hfold|]. split; [exact Hval|exact Hcl].
Defined.

End TupleClaims.



(** ** The serialization cache *)

Module SerializeClaims.
Import LLVM PythonAPI GenFacts.

Lemma key_matches_self h obj : key_matches h obj obj = true.
Proof. unfold key_matches. rewrite bool_decide_eq_true_2 by done. done. Qed.

Lemma dict_find_app {A} h obj (d1 d2 : list (pyconst * A)) :
  dict_find h obj (d1 ++ d2)
  = match dict_find h obj d1 with
    | KeyError => dict_find h obj d2
    | r => r
    end.
Proof.
  induction d1 as [|[key a] rest IH]; simpl; [done|].
  destruct (key_matches h obj key); done.
Qed.

(** A lookup that raises [KeyError] has met no entry for that identity. *)
Lemma dict_find_KeyError {A} h obj (d : list (pyconst * A)) :
  dict_find h obj d = KeyError ->
  py_id obj ∉ (fun entry : pyconst * A => py_id entry.1) <$> d.
Proof.
  induction d as [|[key a] rest IH]; simpl.
  - intros _. apply not_elem_of_nil.
  - unfold key_matches at 1. case_bool_decide as Hid; [done|]. simpl.
    destruct (_ && _); [done|]. intros Hf. apply not_elem_of_cons.
    split; [congruence|]. apply IH. exact Hf.
Qed.

(** What a call of [serialize_object] does to the module, by the case of
    the lookup. *)
Lemma serialize_object_cases obj st gv c st' :
  serialize_object obj st = Ok (gv, c, st') ->
  (dict_getitem (__serialized (module st)) obj = Found gv /\ st' = st) \/
  (dict_getitem (__serialized (module st)) obj = KeyError /\
   __serialized (module st') = __serialized (module st) ++ [(obj, gv)] /\
   gv = Global (".const.picklebuf." +:+ pretty (py_id obj)) /\
   is_Some (py_pickle obj)).
Proof.
  unfold serialize_object. intros H.
  gstep H. match goal with Hg : get_serialized _ = Ok _ |- _ =>
    apply get_serialized_Ok in Hg as (-> & -> & ->) end.
  destruct (dict_getitem _ obj) as [gv'| |] eqn:Hd.
  - gstep H. left. done.
  - right. split; [done|].
    gstep H. match goal with Hp : pickle_dumps _ _ = Ok _ |- _ =>
      unfold pickle_dumps in Hp; destruct (py_pickle obj) as [data|]; [|done];
      gstep Hp end.
    gstep H. match goal with Hi : insert_unique_const _ _ _ = Ok _ |- _ =>
      apply insert_unique_const_Ok in Hi as (-> & -> & E1 & S1) end.
    gstep H. match goal with Hi : insert_unique_const _ _ _ = Ok _ |- _ =>
      apply insert_unique_const_Ok in Hi as (-> & -> & E2 & S2) end.
    gstep H. match goal with Hg : get_serialized _ = Ok _ |- _ =>
      apply get_serialized_Ok in Hg as (-> & -> & ->) end.
    gstep H. match goal with Hs : set_serialized _ _ = Ok _ |- _ =>
      apply set_serialized_Ok in Hs as (-> & E3 & S3 & _) end.
    gstep H. rewrite S3. unfold dict_setitem_new. rewrite S2, S1.
    split; [done|]. split; [done|]. eauto.
  - done.
Qed.

(** C8: within one module, serializing an object a second time returns the
    constant the first call returned and leaves the module exactly as it
    was, so nothing is encoded again; and every call keeps the identities
    for which an encoding was made distinct, so that, the module of a
    compilation starting with none, no identity is ever encoded twice. *)
Theorem serialize_object_cached obj st gv c st' :
  serialize_object obj st = Ok (gv, c, st') ->
  serialize_object obj st' = Ok (gv, Seq Skip Skip, st') /\
  (NoDup (encoded_ids st) -> NoDup (encoded_ids st')) /\
  (py_id obj ∈ encoded_ids st -> st' = st).
Proof.
  intros H. destruct (serialize_object_cases _ _ _ _ _ H)
    as [[Hd ->]|(Hd & Hs & Hg & Hp)].
  - split; [|split; [done|done]].
    unfold serialize_object, mbind, gen_bind, get_serialized. rewrite Hd. done.
  - unfold dict_getitem in Hd. destruct (py_hash obj) as [h|] eqn:Hh; [|done].
    split; [|split].
    + unfold serialize_object, mbind, gen_bind, get_serialized.
      unfold dict_getitem. rewrite Hh, Hs, dict_find_app, Hd. simpl.
      rewrite key_matches_self. done.
    + unfold encoded_ids. rewrite Hs, fmap_app. simpl. intros Hnd.
      apply NoDup_app. split; [done|]. split; [|apply NoDup_singleton].
      intros x Hx Hx'. apply list_elem_of_singleton in Hx' as ->.
      apply dict_find_KeyError in Hd. done.
    + intros Hin. apply dict_find_KeyError in Hd. done.
Qed.

(** The example callback, serialized twice from the start of a
    compilation. *)
Lemma serialize_object_cached_witness :
  match serialize_object example_callback genstate0 with
  | Ok (gv, _, st') =>
      serialize_object example_callback st' = Ok (gv, Seq Skip Skip, st') /\
      encoded_ids st' = [4242]
  | Raise _ _ => False
  end.
Proof.
  destruct (serialize_object example_callback genstate0)
    as [[[gv c] st']|] eqn:E; [|vm_compute in E; discriminate E].
  split; [exact (proj1 (serialize_object_cached _ _ _ _ _ E))|].
  vm_compute in E. injection E as <- <- <-. reflexivity.
Defined.

End SerializeClaims.

(** ** Scoping of the code that boxes a value *)

Module ScopeExtra.
Import LLVM LLVMFacts PythonAPI GenFacts.

(** The boxing conversions of the types that contain no other type. *)
Lemma from_native_leaf_wf cfg typ :
  is_leaf typ -> box_wf (fun val => from_native_value cfg val typ).
Proof.
  intros Hl val [n md] obj c st' H.
  destruct typ; try (exfalso; exact Hl); cbn [from_native_value] in H;
    try (unfold raise in H; discriminate H).
  - (* pyobject *)
    ginv. simpl. repeat split; try lia. tauto.
  - (* boolean *)
    unfold bool_from_long in H. ginv. simpl. repeat split; lia.
  - (* Integer *)
    destruct (in_unsigned_domain _); [|destruct (in_signed_domain _)];
      [| |unfold raise in H; discriminate H];
      unfold long_from_ulonglong, long_from_longlong, _long_from_native_int,
        ifelse in H;
      destruct (python2 cfg); [destruct signed| |destruct signed|];
      ginv; simpl; repeat split; lia.
  - (* float32 *)
    unfold float_from_double in H. ginv. simpl. repeat split; lia.
  - (* float64 *)
    unfold float_from_double in H. ginv. simpl. repeat split; lia.
  - (* complex64 *)
    unfold complex_from_doubles, Structure, getfield in H. ginv.
    simpl. repeat split; lia.
  - (* complex128 *)
    unfold complex_from_doubles, Structure, getfield in H. ginv.
    simpl. repeat split; lia.
  - (* NPDatetime *)
    unfold create_np_datetime in H. ginv. simpl. repeat split; lia.
  - (* NPTimedelta *)
    unfold create_np_timedelta in H. ginv. simpl. repeat split; lia.
  - (* Record *)
    unfold recreate_record in H. ginv. simpl. repeat split; lia.
  - (* Array *)
    unfold from_native_array, Structure, getfield, incref in H. ginv.
    simpl. repeat split; lia.
  - (* Generator *)
    unfold from_native_generator in H. ginv. simpl. repeat split; lia.
  - (* none *)
    unfold make_none, incref in H. ginv. simpl. repeat split; try lia; done.
  - (* CharSeq *)
    unfold from_native_charseq, bytes_from_string_and_size in H. ginv.
    simpl. repeat split; lia.
Qed.

Lemma from_native_tuple_loop_wf convs : forall val tuple_val i st u c st',
  Forall box_wf convs ->
  from_native_tuple_loop convs val tuple_val i st = Ok (u, c, st') ->
  (fresh st <= fresh st')%nat /\ dsts_in (fresh st) (fresh st') c.
Proof.
  induction convs as [|conv rest IH]; intros val tuple_val i [n md] u c st' Hwf H;
    simpl in H.
  - ginv. simpl. split; [lia|done].
  - apply Forall_cons in Hwf as [Hconv Hrest]. unfold tuple_setitem in H.
    ginv.
    match goal with Hc : conv _ _ = Ok _ |- _ =>
      apply Hconv in Hc as (Hle & Hd & _) end.
    match goal with Hl : from_native_tuple_loop _ _ _ _ _ = Ok _ |- _ =>
      apply IH in Hl as (Hle2 & Hd2); [|done] end.
    cbn [fresh module] in *. split; [lia|].
    simpl. repeat split; try lia.
    + eapply dsts_in_mono; [exact Hd|lia|lia].
    + eapply dsts_in_mono; [exact Hd2|lia|lia].
Qed.

Lemma from_native_tuple_wf convs :
  Forall box_wf convs -> box_wf (from_native_tuple convs).
Proof.
  intros Hwf val [n md] obj c st' H. unfold from_native_tuple, tuple_new in H.
  ginv.
  match goal with Hl : from_native_tuple_loop _ _ _ _ _ = Ok _ |- _ =>
    apply from_native_tuple_loop_wf in Hl as (Hle & Hd); [|done] end.
  cbn [fresh module] in *. simpl. repeat split; try lia.
  eapply dsts_in_mono; [exact Hd|lia|lia].
Qed.

Lemma from_native_value_wf cfg typ :
  box_wf (fun val => from_native_value cfg val typ).
Proof.
  induction typ as [typ Hl|typ IH|types IH|dtype count IH]
    using type_nested_ind.
  - apply from_native_leaf_wf. done.
  - simpl. exact IH.
  - simpl. apply from_native_tuple_wf.
    apply Forall_map. eapply Forall_impl; [exact IH|]. done.
  - simpl. apply from_native_tuple_wf.
    apply Forall_replicate. exact IH.
Qed.

End ScopeExtra.

(** ** The serialization cache: what is kept apart *)

Module SerializeExtra.
Import LLVM PythonAPI GenFacts.

Lemma add_global_NoDup name val gs :
  NoDup gs.*1 -> NoDup (add_global name val gs).*1.
Proof.
  unfold add_global. intros Hnd. case_bool_decide as Hin; [done|].
  rewrite fmap_app. apply NoDup_app. split; [done|].
  split; [|apply NoDup_singleton].
  intros x Hx Hx'. apply list_elem_of_singleton in Hx' as ->. done.
Qed.

Lemma insert_unique_const_inv name val st o c st' :
  insert_unique_const name val st = Ok (o, c, st') ->
  o = Global name /\ c = Skip /\
  st' = {| fresh := fresh st;
           module := {| globals := add_global name val (globals (module st));
                        __serialized := __serialized (module st) |} |}.
Proof. intros [= <- <- <-]. done. Qed.

(** What a call of [serialize_object] does to the module. *)
Lemma serialize_object_inv obj st gv c st' :
  serialize_object obj st = Ok (gv, c, st') ->
  (dict_getitem (__serialized (module st)) obj = Found gv /\ st' = st) \/
  (dict_getitem (__serialized (module st)) obj = KeyError /\
   gv = Global (picklebuf_name obj) /\
   __serialized (module st') = __serialized (module st) ++ [(obj, gv)] /\
   (NoDup (globals (module st)).*1 -> NoDup (globals (module st')).*1)).
Proof.
  unfold serialize_object. intros H.
  gstep H. match goal with Hg : get_serialized _ = Ok _ |- _ =>
    apply get_serialized_Ok in Hg as (-> & -> & ->) end.
  destruct (dict_getitem _ obj) as [gv'| |] eqn:Hd.
  - gstep H. left. done.
  - right. split; [done|].
    gstep H. match goal with Hp : pickle_dumps _ _ = Ok _ |- _ =>
      unfold pickle_dumps in Hp; destruct (py_pickle obj) as [data|]; [|done];
      gstep Hp end.
    gstep H. match goal with Hi : insert_unique_const _ _ _ = Ok _ |- _ =>
      apply insert_unique_const_inv in Hi as (-> & -> & ->) end.
    gstep H. match goal with Hi : insert_unique_const _ _ _ = Ok _ |- _ =>
      apply insert_unique_const_inv in Hi as (-> & -> & ->) end.
    gstep H. match goal with Hg : get_serialized _ = Ok _ |- _ =>
      apply get_serialized_Ok in Hg as (-> & -> & ->) end.
    gstep H. match goal with Hs : set_serialized _ _ = Ok _ |- _ =>
      injection Hs as <- <- end.
    gstep H. subst. cbn [module globals __serialized fresh].
    split; [done|]. split; [done|].
    intros Hnd. do 2 apply add_global_NoDup. exact Hnd.
  - done.
Qed.

Lemma dict_find_Found {A} h obj (d : list (pyconst * A)) a :
  dict_find h obj d = Found a ->
  exists key, (key, a) ∈ d /\ key_matches h obj key = true.
Proof.
  induction d as [|[key a'] rest IH]; simpl; [done|].
  destruct (key_matches h obj key) eqn:E.
  - intros [= ->]. exists key. split; [apply list_elem_of_here|done].
  - intros Hf. destruct (IH Hf) as (k & Hk & Hm).
    exists k. split; [apply list_elem_of_further; done|done].
Qed.

Lemma picklebuf_name_inj o1 o2 :
  Global (picklebuf_name o1) = Global (picklebuf_name o2) ->
  py_id o1 = py_id o2.
Proof.
  intros H. assert (N : picklebuf_name o1 = picklebuf_name o2) by congruence.
  unfold picklebuf_name in N.
  apply (inj (String.append _)) in N. apply (inj pretty) in N. exact N.
Qed.

Lemma entry_id_elem_of (l : list (pyconst * operand)) k gv :
  (k, gv) ∈ l -> py_id k ∈ (fun entry : pyconst * operand => py_id entry.1) <$> l.
Proof.
  intros H.
  apply (list_elem_of_fmap_2 (fun entry : pyconst * operand => py_id entry.1)
           _ _ H).
Qed.

(** In a well-formed module an entry of the cache is determined by the
    constant it holds. *)
Lemma cache_entry_unique st k1 k2 gv :
  module_wf st ->
  (k1, gv) ∈ __serialized (module st) ->
  (k2, gv) ∈ __serialized (module st) -> k1 = k2.
Proof.
  intros (_ & Hnd & Hnames) H1 H2. rewrite Forall_forall in Hnames.
  pose proof (Hnames _ H1) as N1. pose proof (Hnames _ H2) as N2.
  cbn [fst snd] in N1, N2. rewrite N1 in N2. rename N2 into N.
  apply picklebuf_name_inj in N.
  unfold encoded_ids in Hnd.
  assert (Hinj : forall l : list (pyconst * operand),
            NoDup ((fun entry => py_id entry.1) <$> l) ->
            (k1, gv) ∈ l -> (k2, gv) ∈ l -> k1 = k2).
  { clear -N. induction l as [|e l IH]; intros Hn Ha Hb.
    - apply elem_of_nil in Ha. done.
    - rewrite fmap_cons in Hn. apply NoDup_cons in Hn as [Hne Hn].
      apply elem_of_cons in Ha as [Ha|Ha], Hb as [Hb|Hb].
      + congruence.
      + exfalso. apply Hne. subst e. simpl. rewrite N.
        eapply entry_id_elem_of. exact Hb.
      + exfalso. apply Hne. subst e. simpl. rewrite <- N.
        eapply entry_id_elem_of. exact Ha.
      + auto. }
  eauto.
Qed.

Lemma serialize_object_wf obj st gv c st' :
  serialize_object obj st = Ok (gv, c, st') ->
  module_wf st -> module_wf st'.
Proof.
  intros H (Hg & Hnd & Hnames).
  destruct (serialize_object_inv _ _ _ _ _ H)
    as [[_ ->]|(Hd & -> & Hs & Hgl)]; [done|].
  split; [auto|]. unfold encoded_ids. rewrite Hs. split.
  - rewrite fmap_app. simpl. apply NoDup_app. split; [exact Hnd|].
    split; [|apply NoDup_singleton].
    intros x Hx Hx'. apply list_elem_of_singleton in Hx' as ->.
    unfold dict_getitem in Hd. destruct (py_hash obj) as [h|]; [|done].
    apply SerializeClaims.dict_find_KeyError in Hd. done.
  - apply Forall_app. split; [exact Hnames|].
    apply Forall_cons_2; [done|apply Forall_nil_2].
Qed.

(** Serializing keeps the module well formed: no second global of a name,
    no second entry for an object, and every entry named after its
    object. *)
Theorem serialize_object_keeps_module_wf obj st gv c st' :
  serialize_object obj st = Ok (gv, c, st') ->
  module_wf st -> module_wf st'.
Proof. apply serialize_object_wf. Qed.

Lemma serialize_object_keeps_module_wf_witness :
  match serialize_object example_callback genstate0 with
  | Ok (gv, _, st') => module_wf st'
  | Raise _ _ => False
  end.
Proof.
  destruct (serialize_object example_callback genstate0)
    as [[[gv c] st']|] eqn:E; [|vm_compute in E; discriminate E].
  apply (serialize_object_keeps_module_wf _ _ _ _ _ E).
  split; [apply NoDup_nil_2|]. split; [apply NoDup_nil_2|apply Forall_nil_2].
Defined.

(** Two objects get the same constant only when the dictionary takes them
    for the same key: if two calls in a row, in a well-formed module,
    return the same constant, the cache has an entry whose key both
    objects match (by identity, or by hash and equality). *)
Theorem serialize_object_same_constant obj1 obj2 st gv1 c1 st1 gv2 c2 st2 :
  module_wf st ->
  serialize_object obj1 st = Ok (gv1, c1, st1) ->
  serialize_object obj2 st1 = Ok (gv2, c2, st2) ->
  gv1 = gv2 ->
  exists key,
    (key, gv1) ∈ __serialized (module st2) /\
    same_key obj1 key /\ same_key obj2 key.
Proof.
  intros Hwf H1 H2 <-.
  pose proof (serialize_object_wf _ _ _ _ _ H1 Hwf) as Hwf1.
  assert (Hhit : forall obj (s : genstate) gv,
            dict_getitem (__serialized (module s)) obj = Found gv ->
            exists key, (key, gv) ∈ __serialized (module s) /\
                        same_key obj key).
  { intros obj s gv Hd. unfold dict_getitem in Hd.
    destruct (py_hash obj) as [h|] eqn:Hh; [|done].
    apply dict_find_Found in Hd as (key & Hk & Hm).
    exists key. split; [done|]. exists h. done. }
  assert (Hself : forall obj (s : genstate),
            dict_getitem (__serialized (module s)) obj = KeyError ->
            same_key obj obj).
  { intros obj s Hd. unfold dict_getitem in Hd.
    destruct (py_hash obj) as [h|] eqn:Hh; [|done].
    exists h. split; [done|]. apply SerializeClaims.key_matches_self. }
  assert (Hmiss : forall obj (s : genstate) key gv,
            dict_getitem (__serialized (module s)) obj = KeyError ->
            (key, gv) ∈ __serialized (module s) -> py_id key ≠ py_id obj).
  { intros obj s key gv Hd Hk Heq. unfold dict_getitem in Hd.
    destruct (py_hash obj) as [h|]; [|done].
    apply SerializeClaims.dict_find_KeyError in Hd. apply Hd. rewrite <- Heq.
    eapply entry_id_elem_of. exact Hk. }
  pose proof Hwf1 as (Hg1 & Hnd1 & Hn1). rewrite Forall_forall in Hn1.
  destruct (serialize_object_inv _ _ _ _ _ H2)
    as [[Hd2 ->]|(Hd2 & Hgv2 & Hs2 & _)].
  - (* the second call hit the cache *)
    destruct (Hhit _ _ _ Hd2) as (k2 & Hk2 & Hm2).
    destruct (serialize_object_inv _ _ _ _ _ H1)
      as [[Hd1 ->]|(Hd1 & Hgv1 & Hs1 & _)].
    + destruct (Hhit _ _ _ Hd1) as (k1 & Hk1 & Hm1).
      assert (k1 = k2) as -> by (eapply cache_entry_unique; eassumption).
      exists k2. done.
    + assert (Ho : (obj1, gv1) ∈ __serialized (module st1)).
      { rewrite Hs1. apply elem_of_app. right. apply list_elem_of_here. }
      assert (obj1 = k2) as <- by (eapply cache_entry_unique; eassumption).
      exists obj1. split; [done|]. split; [|done]. eapply Hself. exact Hd1.
  - (* the second call added an entry: its constant is new *)
    exfalso.
    destruct (serialize_object_inv _ _ _ _ _ H1)
      as [[Hd1 ->]|(Hd1 & Hgv1 & Hs1 & _)].
    + destruct (Hhit _ _ _ Hd1) as (k1 & Hk1 & _).
      pose proof (Hn1 _ Hk1) as N. cbn [fst snd] in N. rewrite Hgv2 in N.
      apply picklebuf_name_inj in N.
      eapply Hmiss; [exact Hd2|exact Hk1|]. congruence.
    + rewrite Hgv2 in Hgv1. rename Hgv1 into N.
      apply picklebuf_name_inj in N.
      eapply (Hmiss obj2 st1 obj1 gv1); [exact Hd2| |congruence].
      rewrite Hs1. apply elem_of_app. right. apply list_elem_of_here.
Qed.

Lemma serialize_object_same_constant_witness :
  match serialize_object example_callback genstate0 with
  | Ok (gv1, _, st1) =>
      match serialize_object example_callback st1 with
      | Ok (gv2, _, st2) =>
          exists key, (key, gv1) ∈ __serialized (module st2) /\
                      same_key example_callback key
      | Raise _ _ => False
      end
  | Raise _ _ => False
  end.
Proof.
  destruct (serialize_object example_callback genstate0)
    as [[[gv1 c1] st1]|] eqn:E1; [|vm_compute in E1; discriminate E1].
  destruct (serialize_object example_callback st1)
    as [[[gv2 c2] st2]|] eqn:E2.
  - assert (Hwf : module_wf genstate0).
    { split; [apply NoDup_nil_2|].
      split; [apply NoDup_nil_2|apply Forall_nil_2]. }
    assert (Heq : gv1 = gv2).
    { vm_compute in E1. injection E1 as <- <- <-.
      vm_compute in E2. injection E2 as <- <- <-. reflexivity. }
    destruct (serialize_object_same_constant _ _ _ _ _ _ _ _ _ Hwf E1 E2 Heq)
      as (key & Hk & Hs & _).
    exists key. split; [exact Hk|exact Hs].
  - vm_compute in E1. injection E1 as <- <- <-.
    vm_compute in E2. discriminate E2.
Defined.

End SerializeExtra.

(** ** Running the generated code: calls into the runtime *)

Module RunExtra.
Import LLVM LLVMFacts PythonAPI GenFacts OptionalFacts.

Lemma exec_Let_call {rt : runtime} d fn args (m : machine rt) :
  exec (Let d (Call fn args)) m
  = let '(r, w, mem') := extcall rt fn (eval m <$> args) (state m) (mem m) in
    {| regs := <[d := r]> (regs m); mem := mem'; state := w;
       trace := trace m ++ [(fn, eval m <$> args)] |}.
Proof. reflexivity. Qed.

Ltac no_exec m :=
  lazymatch m with
  | context [@exec _ _ _] => fail
  | _ => idtac
  end.

Ltac norm_once :=
  unfold set_reg;
  cbn [set_reg pure_rhs eval load regs mem state trace default from_option id
       icmp false_bit borrow_none get_c_object insert list_insert
       fmap list_fmap is_zero negb intp_const int32_const];
  unfold b2v; cbv iota;
  repeat (rewrite lookup_insert_eq || rewrite lookup_insert_ne by lia);
  repeat match goal with
         | |- context [bool_decide (?a = ?a)] =>
             rewrite (bool_decide_eq_true_2 (a = a)) by reflexivity
         | |- context [bool_decide (?a = 0)] =>
             rewrite (bool_decide_eq_false_2 (a = 0)) by assumption
         | |- context [decide (?a = ?a)] =>
             rewrite (decide_True (P := a = a)) by reflexivity
         end;
  try change (truthy (VInt 1 0)) with false;
  try change (truthy (VInt 1 1)) with true;
  cbn [default from_option id negb]; cbv iota.

Ltac norm_machine := norm_once; norm_once.

(** One instruction at a time, innermost first. *)
Ltac run_pure :=
  match goal with
  | |- context [exec (Seq ?c1 ?c2) ?m] =>
      no_exec m; rewrite (exec_Seq c1 c2 m)
  | |- context [exec Skip ?m] => no_exec m; rewrite (exec_Skip m)
  | |- context [exec (Let ?d ?r) ?m] =>
      no_exec m; rewrite (exec_Let_pure d r m I); norm_machine
  | |- context [exec (Store ?v (Const (VSlot ?s))) ?m] =>
      no_exec m; rewrite (exec_Store_slot v s m); norm_machine
  | |- context [exec (IfElse ?cond ?c1 ?c2) ?m] =>
      no_exec m; rewrite (exec_IfElse cond c1 c2 m); norm_machine;
      lazymatch goal with
      | |- context [truthy _] => fail
      | _ => idtac
      end
  end.

(** A branch whose test is known. *)
Ltac run_if :=
  match goal with
  | |- context [exec (IfElse ?cond ?c1 ?c2) ?m] =>
      no_exec m; rewrite (exec_IfElse cond c1 c2 m); norm_machine
  end.

(** The empty code that follows a piece of code still to be run. *)
Ltac skip_tail :=
  repeat match goal with
         | |- context [exec Skip ?x] => change (exec Skip x) with x
         | |- context [exec (Seq ?c Skip) ?x] =>
             change (exec (Seq c Skip) x) with (exec c x)
         end.

(** A call whose outcome is known. *)
Ltac run_call H :=
  match goal with
  | |- context [exec (Let ?d (Call ?fn ?args)) ?m] =>
      no_exec m; rewrite (exec_Let_call d fn args m); norm_machine;
      rewrite H; cbv beta iota zeta; norm_machine
  end.

(** The machine a piece of code leaves, computed once and substituted. *)
Ltac run_machine tac :=
  match goal with
  | |- context [@exec ?rt ?c ?m] =>
      no_exec m;
      let M := fresh "M" in
      let Hm := fresh "Hm" in
      evar (M : machine rt);
      assert (Hm : @exec rt c m = M);
      [ subst M; tac; reflexivity
      | rewrite Hm; subst M; clear Hm ]
  end.

(** An object that is no number: [PyNumber_Long] returns NULL, the
    extraction, the release of the intermediate object and the store of the
    result are all skipped, and the native value is read from a slot the
    code never wrote; the flag is whether the runtime reports an error. *)
Theorem to_native_int_failed_call {rt : runtime} bitwidth signed obj st nv c
    st' (m : machine rt) w1 mem1 e w2 mem2 :
  to_native_value obj (Integer bitwidth signed) st = Ok (nv, c, st') ->
  extcall rt "PyNumber_Long" [eval m obj] (state m) (mem m)
    = (VPtr 0, w1, mem1) ->
  extcall rt "PyErr_Occurred" [] w1 mem1 = (e, w2, mem2) ->
  trace (exec c m)
    = trace m ++ [("PyNumber_Long", [eval m obj]); ("PyErr_Occurred", [])] /\
  eval (exec c m) (value nv) = default VUndef (mem1 !! fresh st) /\
  eval (exec c m) (is_error nv)
    = from_option (fun b => b2v (negb b)) VUndef (is_zero e) /\
  state (exec c m) = w2.
Proof.
  destruct st as [n md]. cbn [to_native_value]. intros H H1 H2.
  unfold to_native_int, number_long, if_object_ok, is_not_null, if_likely,
    ifthen, c_api_error, err_occurred, is_not_null, long_as_longlong,
    long_as_ulonglong, decref in H.
  destruct signed; ginv; cbn [fresh] in *.
  all: run_machine ltac:(repeat run_pure; run_call H1; repeat run_pure;
                         run_call H2; repeat run_pure).
  all: cbn [mkNativeValue value is_error].
  all: repeat split; norm_machine; try done.
  all: rewrite <- app_assoc; done.
Qed.

Lemma to_native_int_failed_call_witness :
  match to_native_value (Const (VPtr CPython.none_addr)) (Integer 64 true)
          genstate0 with
  | Ok (nv, c, _) =>
      let m := exec c (CPython.machine_of CPython.interp0) in
      trace m = [("PyNumber_Long", [VPtr CPython.none_addr]);
                 ("PyErr_Occurred", [])] /\
      eval m (is_error nv) = VInt 1 1
  | Raise _ _ => False
  end.
Proof.
  destruct (to_native_value (Const (VPtr CPython.none_addr)) (Integer 64 true)
              genstate0) as [[[nv c] st']|] eqn:E;
    [|vm_compute in E; discriminate E].
  destruct (to_native_int_failed_call 64 true _ _ _ _ _
              (CPython.machine_of CPython.interp0)
              (CPython.set_err CPython.interp0) ∅ (VPtr CPython.exc_addr)
              (CPython.set_err CPython.interp0) ∅ E eq_refl eq_refl)
    as (Ht & _ & He & _).
  cbv zeta. split; [exact Ht|exact He].
Defined.

(** A call whose outcome is not known: its three results are named. *)
Ltac run_call_any :=
  match goal with
  | |- context [exec (Let ?d (Call ?fn ?args)) ?m] =>
      no_exec m; rewrite (exec_Let_call d fn args m); norm_machine;
      let r := fresh "r" in
      let w := fresh "w" in
      let mm := fresh "mm" in
      destruct (extcall _ fn _ _ _) as [[r w] mm];
      cbv beta iota zeta; norm_machine
  end.

Section Packing.
Context {rt : runtime}.
Implicit Types (m : machine rt).

Lemma list_pack_loop_run items : forall seq i st u c st' m,
  list_pack_loop seq i items st = Ok (u, c, st') ->
  Forall (op_lt (fresh st)) items -> op_lt (fresh st) seq ->
  (fresh st <= fresh st')%nat /\ dsts_in (fresh st) (fresh st') c /\
  trace (exec c m) = trace m ++ pack_calls (eval m seq) i (eval m <$> items).
Proof.
  induction items as [|item rest IH]; intros seq i [n md] u c st' m H Hit Hseq;
    simpl in H.
  - ginv. simpl. rewrite app_nil_r. repeat split; lia.
  - unfold incref, list_setitem in H. ginv. cbn [fresh] in *.
    apply Forall_cons in Hit as [Hitem Hrest].
    match goal with Hl : list_pack_loop _ _ _ _ = Ok (_, ?cr, _) |- _ =>
      rename Hl into Hloop; rename cr into crest end.
    assert (Hrest' : Forall (op_lt (S (S n))) rest).
    { eapply Forall_impl; [exact Hrest|].
      intros o Ho. eapply op_lt_mono; [exact Ho|lia]. }
    assert (Hseq' : op_lt (S (S n)) seq)
      by (eapply op_lt_mono; [exact Hseq|lia]).
    split; [|split].
    + destruct (IH _ _ _ _ _ _ m Hloop Hrest' Hseq') as (Hle & _). simpl in Hle.
      lia.
    + destruct (IH _ _ _ _ _ _ m Hloop Hrest' Hseq') as (Hle & Hd & _).
      simpl in Hle, Hd. simpl. repeat split; try lia.
      eapply dsts_in_mono; [exact Hd|lia|lia].
    + repeat run_pure. run_call_any. repeat run_pure. run_call_any.
      repeat run_pure.
      match goal with |- context [exec crest ?M] =>
        destruct (IH _ _ _ _ _ _ M Hloop Hrest' Hseq') as (_ & _ & ->)
      end.
      cbn [trace pack_calls fmap list_fmap].
      repeat match goal with
             | |- context [eval ?M ?o] =>
                 lazymatch M with m => fail | _ => idtac end;
                 rewrite (eval_same_regs m M n o)
                   by (try assumption; intros; cbn [regs];
                       rewrite !lookup_insert_ne by lia; done)
             end.
      match goal with
      | |- context [eval ?M <$> rest] =>
          lazymatch M with m => fail | _ => idtac end;
          assert (Hl : eval M <$> rest = eval m <$> rest)
      end.
      { apply Forall_fmap_ext_1. eapply Forall_impl; [exact Hrest|].
        intros o Ho. eapply eval_same_regs; [exact Ho|].
        intros r' Hr'. cbn [regs]. rewrite !lookup_insert_ne by lia. done. }
      rewrite Hl. rewrite <- !app_assoc. done.
Qed.

(** Packing items into a new list: the list is created with the number of
    items; if that fails (NULL) nothing else is called; if it succeeds,
    each item in order has its reference count raised and is then stored
    at its index, nothing more; either way the result is what
    [PyList_New] returned. *)
Theorem list_pack_calls items st seq c st' m r w1 mem1 :
  list_pack items st = Ok (seq, c, st') ->
  Forall (op_lt (fresh st)) items ->
  extcall rt "PyList_New" [VInt 64 (Z.of_nat (length items))]
          (state m) (mem m) = (r, w1, mem1) ->
  eval (exec c m) seq = r /\
  (r = VPtr 0 ->
     trace (exec c m)
     = trace m ++ [("PyList_New", [VInt 64 (Z.of_nat (length items))])] /\
     state (exec c m) = w1) /\
  (forall a, r = VPtr a -> a ≠ 0 ->
     trace (exec c m)
     = trace m ++ ("PyList_New", [VInt 64 (Z.of_nat (length items))])
               :: pack_calls r 0 (eval m <$> items)).
Proof.
  destruct st as [n md]. intros H Hit Hnew.
  unfold list_pack, list_new, if_object_ok, is_not_null, if_likely, ifthen
    in H.
  ginv. cbn [fresh] in *.
  match goal with Hl : list_pack_loop _ _ _ _ = Ok (_, ?cr, _) |- _ =>
    rename Hl into Hloop; rename cr into cloop end.
  assert (Hit' : Forall (op_lt (S (S n))) items).
  { eapply Forall_impl; [exact Hit|].
    intros o Ho. eapply op_lt_mono; [exact Ho|lia]. }
  repeat run_pure. run_call Hnew. repeat run_pure. run_if.
  match goal with |- context [exec cloop ?M] =>
    destruct (list_pack_loop_run _ _ _ _ _ _ _ M Hloop Hit' ltac:(simpl; lia))
      as (Hle & Hd & Htr);
    assert (Hfr : regs (exec cloop M) !! n = regs M !! n)
      by (eapply exec_regs_frame; [exact Hd|cbn [fresh]; lia]);
    assert (Hev : eval M <$> items = eval m <$> items)
  end.
  { apply Forall_fmap_ext_1. eapply Forall_impl; [exact Hit|].
    intros o Ho. eapply eval_same_regs; [exact Ho|].
    intros r' Hr'. cbn [regs].
    rewrite !lookup_insert_ne by lia. done. }
  cbn [fresh regs] in *. rewrite lookup_insert_ne in Hfr by lia.
  rewrite lookup_insert_eq in Hfr.
  split; [|split].
  - destruct (truthy _); repeat run_pure; skip_tail; norm_machine; [|done].
    rewrite Hfr. done.
  - intros ->. norm_machine. repeat run_pure. done.
  - intros a -> Ha.
    match goal with
    | |- context [if truthy ?v then _ else _] =>
        assert (Hc : truthy v = true)
          by (cbn [is_zero from_option];
              rewrite bool_decide_eq_false_2 by done; reflexivity);
        rewrite Hc
    end.
    skip_tail. rewrite Htr. cbn [trace eval regs].
    rewrite lookup_insert_ne by lia. rewrite lookup_insert_eq.
    rewrite Hev. rewrite <- app_assoc. done.
Qed.

End Packing.

Lemma list_pack_calls_witness :
  match list_pack [Const (VPtr 16); Const (VPtr 24)] genstate0 with
  | Ok (seq, c, _) =>
      trace (exec c (Build_machine (CPython.always (VPtr 64)) ∅ ∅ tt []))
      = [("PyList_New", [VInt 64 2]);
         ("Py_IncRef", [VPtr 16]);
         ("PyList_SetItem", [VPtr 64; VInt 64 0; VPtr 16]);
         ("Py_IncRef", [VPtr 24]);
         ("PyList_SetItem", [VPtr 64; VInt 64 1; VPtr 24])]
  | Raise _ _ => False
  end.
Proof.
  destruct (list_pack [Const (VPtr 16); Const (VPtr 24)] genstate0)
    as [[[seq c] st']|] eqn:E; [|vm_compute in E; discriminate E].
  destruct (list_pack_calls (rt := CPython.always (VPtr 64)) _ _ _ _ _
              (Build_machine (CPython.always (VPtr 64)) ∅ ∅ tt [])
              (VPtr 64) tt ∅ E) as (_ & _ & Hok).
  - apply Forall_cons_2; [exact I|]. apply Forall_cons_2; [exact I|].
    apply Forall_nil_2.
  - reflexivity.
  - apply (Hok 64 eq_refl). lia.
Defined.

(** The identity comparisons never ask the objects: [is] and [is not]
    compare the two pointers in native code and box the resulting bit, so
    the only call is the one that makes the boolean, on 1 or 0. *)
Theorem richcompare_identity_calls {rt : runtime} cfg lhs rhs opstr st obj c
    st' (m : machine rt) a b :
  opstr = "is" \/ opstr = "is not" ->
  object_richcompare cfg lhs rhs opstr st = Ok (obj, c, st') ->
  eval m lhs = VPtr a -> eval m rhs = VPtr b ->
  trace (exec c m)
  = trace m ++
    [("PyBool_FromLong",
      [VInt (long_bits cfg)
            (if bool_decide (opstr = "is")
             then (if bool_decide (a = b) then 1 else 0)
             else (if bool_decide (a ≠ b) then 1 else 0))])].
Proof.
  destruct st as [n md]. intros Hop H Ha Hb. unfold object_richcompare in H.
  destruct Hop as [-> | ->].
  - change (index_from 0 "is" richcompare_ops) with (@None nat) in H.
    change (String.eqb "is" "is") with true in H. cbv iota in H.
    cbn [from_native_value] in H. unfold bool_from_long in H. ginv.
    rewrite (bool_decide_eq_true_2 ("is" = "is")) by reflexivity.
    repeat run_pure. rewrite Ha, Hb. norm_machine.
    run_call_any. repeat run_pure. cbn [trace]. done.
  - change (index_from 0 "is not" richcompare_ops) with (@None nat) in H.
    change (String.eqb "is not" "is") with false in H.
    change (String.eqb "is not" "is not") with true in H. cbv iota in H.
    cbn [from_native_value] in H. unfold bool_from_long in H. ginv.
    rewrite (bool_decide_eq_false_2 ("is not" = "is")) by discriminate.
    repeat run_pure. rewrite Ha, Hb. norm_machine.
    run_call_any. repeat run_pure. cbn [trace]. done.
Qed.

Lemma richcompare_identity_calls_witness :
  match object_richcompare {| PYVERSION := (3, 4)%nat; long_bits := 64 |}
          (Const (VPtr 16)) (Const (VPtr 24)) "is" genstate0 with
  | Ok (obj, c, _) =>
      trace (exec c (CPython.machine_of CPython.interp0))
      = [("PyBool_FromLong", [VInt 64 0])]
  | Raise _ _ => False
  end.
Proof.
  destruct (object_richcompare {| PYVERSION := (3, 4)%nat; long_bits := 64 |}
              (Const (VPtr 16)) (Const (VPtr 24)) "is" genstate0)
    as [[[obj c] st']|] eqn:E; [|vm_compute in E; discriminate E].
  apply (richcompare_identity_calls _ _ _ "is" _ _ _ _
           (CPython.machine_of CPython.interp0) 16 24 (or_introl eq_refl) E
           eq_refl eq_refl).
Defined.

End RunExtra.

(** ** Round trips through the model of the interpreter *)

Module RoundTripExtra.
Import LLVM LLVMFacts PythonAPI GenFacts OptionalFacts RunExtra.

Implicit Types (w : CPython.interp) (mem : gmap nat LLVM.value).

(** *** The functions of the model, one equation each *)

Lemma ext_DecRef args w mem :
  extcall CPython.rt "Py_DecRef" args w mem = (VUndef, w, mem).
Proof. reflexivity. Qed.

Lemma ext_ErrOccurred w mem :
  extcall CPython.rt "PyErr_Occurred" [] w mem
  = (VPtr (if CPython.err w then CPython.exc_addr else 0), w, mem).
Proof. reflexivity. Qed.

Lemma ext_FromLongLong bits n w mem :
  extcall CPython.rt "PyLong_FromLongLong" [VInt bits n] w mem
  = (VPtr (CPython.next w),
     {| CPython.heap := <[CPython.next w := CPython.PyLong (to_signed bits n)]>
                          (CPython.heap w);
        CPython.next := CPython.next w + 8;
        CPython.err := CPython.err w |}, mem).
Proof. reflexivity. Qed.

Lemma ext_FromUnsignedLongLong bits n w mem :
  extcall CPython.rt "PyLong_FromUnsignedLongLong" [VInt bits n] w mem
  = (VPtr (CPython.next w),
     {| CPython.heap := <[CPython.next w := CPython.PyLong n]> (CPython.heap w);
        CPython.next := CPython.next w + 8;
        CPython.err := CPython.err w |}, mem).
Proof. reflexivity. Qed.

Lemma ext_Number_Long a z w mem :
  CPython.as_integer (CPython.heap w !! a) = Some z ->
  a ≠ 0 -> CPython.next w ≠ 0 ->
  exists a' w',
    extcall CPython.rt "PyNumber_Long" [VPtr a] w mem = (VPtr a', w', mem) /\
    a' ≠ 0 /\
    CPython.as_integer (CPython.heap w' !! a') = Some z /\
    CPython.err w' = CPython.err w.
Proof.
  intros Hz Ha Hn.
  change (extcall CPython.rt "PyNumber_Long" [VPtr a] w mem)
    with (match CPython.heap w !! a with
          | Some (CPython.PyLong _) => (VPtr a, w, mem)
          | o =>
              match CPython.as_integer o with
              | Some z =>
                  let '(a, w) := CPython.alloc (CPython.PyLong z) w in
                  (VPtr a, w, mem)
              | None => (VPtr 0, CPython.set_err w, mem)
              end
          end).
  destruct (CPython.heap w !! a) as [o|] eqn:E; [|done].
  destruct o; try done; simpl in Hz; injection Hz as <-.
  - eexists _, _. split; [reflexivity|]. cbn [CPython.heap CPython.err].
    rewrite lookup_insert_eq. done.
  - eexists _, _. split; [reflexivity|]. cbn [CPython.heap CPython.err].
    rewrite lookup_insert_eq. done.
  - exists a, w. rewrite E. done.
Qed.

Lemma ext_AsLongLong a z w mem :
  CPython.as_integer (CPython.heap w !! a) = Some z ->
  - 2 ^ 63 <= z < 2 ^ 63 ->
  extcall CPython.rt "PyLong_AsLongLong" [VPtr a] w mem
  = (VInt 64 (z mod 2 ^ 64), w, mem).
Proof.
  intros Hz Hr.
  change (extcall CPython.rt "PyLong_AsLongLong" [VPtr a] w mem)
    with (match CPython.as_integer (CPython.heap w !! a) with
          | Some z =>
              if decide (- 2 ^ 63 <= z < 2 ^ 63)
              then (VInt 64 (z mod 2 ^ 64), w, mem)
              else (CPython.minus_one 64, CPython.set_err w, mem)
          | None => (CPython.minus_one 64, CPython.set_err w, mem)
          end).
  rewrite Hz. rewrite decide_True by done. done.
Qed.

Lemma ext_AsUnsignedLongLong a z w mem :
  CPython.as_integer (CPython.heap w !! a) = Some z ->
  0 <= z < 2 ^ 64 ->
  extcall CPython.rt "PyLong_AsUnsignedLongLong" [VPtr a] w mem
  = (VInt 64 z, w, mem).
Proof.
  intros Hz Hr.
  change (extcall CPython.rt "PyLong_AsUnsignedLongLong" [VPtr a] w mem)
    with (match CPython.as_integer (CPython.heap w !! a) with
          | Some z =>
              if decide (0 <= z < 2 ^ 64)
              then (VInt 64 z, w, mem)
              else (CPython.minus_one 64, CPython.set_err w, mem)
          | None => (CPython.minus_one 64, CPython.set_err w, mem)
          end).
  rewrite Hz. rewrite decide_True by done. done.
Qed.

Lemma ext_IsTrue a o w mem :
  CPython.heap w !! a = Some o ->
  extcall CPython.rt "PyObject_IsTrue" [VPtr a] w mem
  = (VInt 32 (if CPython.istrue o then 1 else 0), w, mem).
Proof.
  intros Ho.
  change (extcall CPython.rt "PyObject_IsTrue" [VPtr a] w mem)
    with (match CPython.heap w !! a with
          | Some o => (VInt 32 (if CPython.istrue o then 1 else 0), w, mem)
          | None => (CPython.minus_one 32, CPython.set_err w, mem)
          end).
  rewrite Ho. done.
Qed.

Lemma ext_BoolFromLong bits n w mem :
  extcall CPython.rt "PyBool_FromLong" [VInt bits n] w mem
  = (VPtr (if decide (n = 0) then CPython.false_addr else CPython.true_addr),
     w, mem).
Proof. reflexivity. Qed.

Lemma mod_mod_pow2 z k : 0 <= k <= 64 -> (z mod 2 ^ 64) mod 2 ^ k = z mod 2 ^ k.
Proof.
  intros Hk. apply Z.mod_mod_divide.
  exists (2 ^ (64 - k)). rewrite <- Z.pow_add_r by lia. f_equal. lia.
Qed.

(** A call, up to the point where the runtime is asked. *)
Ltac open_call :=
  match goal with
  | |- context [exec (Let ?d (Call ?fn ?args)) ?m] =>
      no_exec m; rewrite (exec_Let_call d fn args m); norm_machine
  end.

Ltac close_call H := rewrite H; cbv beta iota zeta; norm_machine.

(** A call whose outcome an equation of the model gives. *)
Ltac run_ext lem :=
  match goal with
  | |- context [exec (Let ?d (Call ?fn ?args)) ?m] =>
      no_exec m; rewrite (exec_Let_call d fn args m); norm_machine;
      rewrite lem; cbv beta iota zeta; norm_machine
  end.

(** Unboxing an integer object. *)
Lemma to_native_int_run bitwidth signed obj st nv c st' (m : machine CPython.rt) a z :
  to_native_value obj (Integer bitwidth signed) st = Ok (nv, c, st') ->
  eval m obj = VPtr a -> a ≠ 0 ->
  CPython.as_integer (CPython.heap (state m) !! a) = Some z ->
  CPython.next (state m) ≠ 0 ->
  CPython.err (state m) = false ->
  0 <= bitwidth <= 64 ->
  (if signed then - 2 ^ 63 <= z < 2 ^ 63 else 0 <= z < 2 ^ 64) ->
  eval (exec c m) (value nv) = VInt bitwidth (z mod 2 ^ bitwidth) /\
  eval (exec c m) (is_error nv) = VInt 1 0 /\
  CPython.err (state (exec c m)) = false.
Proof.
  destruct st as [n md]. cbn [to_native_value].
  intros H Hobj Ha Hz Hnext Herr Hbw Hrange.
  unfold to_native_int, number_long, if_object_ok, is_not_null, if_likely,
    ifthen, c_api_error, err_occurred, is_not_null, long_as_longlong,
    long_as_ulonglong, decref in H.
  destruct (ext_Number_Long a z (state m) (mem m) Hz Ha Hnext)
    as (a' & w' & Hcall & Ha' & Hz' & Herr').
  destruct signed; ginv; cbn [fresh] in *.
  - run_machine ltac:(repeat run_pure; open_call; rewrite Hobj;
                      close_call Hcall; repeat run_pure;
                      run_ext (ext_AsLongLong a' z w' (mem m) Hz' Hrange);
                      repeat run_pure; run_ext ext_DecRef; repeat run_pure;
                      run_ext ext_ErrOccurred; repeat run_pure).
    cbn [mkNativeValue value is_error state]. norm_machine.
    rewrite Herr', Herr. norm_machine.
    rewrite mod_mod_pow2 by done. done.
  - run_machine ltac:(repeat run_pure; open_call; rewrite Hobj;
                      close_call Hcall; repeat run_pure;
                      run_ext (ext_AsUnsignedLongLong a' z w' (mem m) Hz' Hrange);
                      repeat run_pure; run_ext ext_DecRef; repeat run_pure;
                      run_ext ext_ErrOccurred; repeat run_pure).
    cbn [mkNativeValue value is_error state]. norm_machine.
    rewrite Herr', Herr. norm_machine. done.
Qed.

Lemma to_signed_range bw v :
  0 < bw -> 0 <= v < 2 ^ bw ->
  - 2 ^ (bw - 1) <= to_signed bw v < 2 ^ (bw - 1) /\
  to_signed bw v mod 2 ^ bw = v.
Proof.
  intros Hbw Hv. unfold to_signed.
  assert (Hp : 2 ^ bw = 2 * 2 ^ (bw - 1)).
  { rewrite <- Z.pow_succ_r by lia. f_equal. lia. }
  assert (Hpos : 0 < 2 ^ (bw - 1)) by (apply Z.pow_pos_nonneg; lia).
  case_decide.
  - split; [lia|]. apply Z.mod_small. lia.
  - split; [lia|].
    replace (v - 2 ^ bw) with (v + (-1) * 2 ^ bw) by lia.
    rewrite Z.mod_add by lia. apply Z.mod_small. lia.
Qed.

Lemma to_signed_64_mod x :
  - 2 ^ 63 <= x < 2 ^ 63 -> to_signed 64 (x mod 2 ^ 64) = x.
Proof.
  unfold to_signed. change (2 ^ (64 - 1)) with 9223372036854775808.
  change (2 ^ 63) with 9223372036854775808.
  change (2 ^ 64) with 18446744073709551616.
  intros Hx. case_decide; Z.div_mod_to_equations; lia.
Qed.

(** Boxing a native integer under Python 3: one new integer object. *)
Lemma from_native_int_run cfg bitwidth signed val st obj c st'
    (m : machine CPython.rt) v :
  from_native_value cfg val (Integer bitwidth signed) st = Ok (obj, c, st') ->
  python2 cfg = false ->
  eval m val = VInt bitwidth v -> 0 <= v < 2 ^ bitwidth ->
  (bitwidth = 8 \/ bitwidth = 16 \/ bitwidth = 32 \/ bitwidth = 64) /\
  eval (exec c m) obj = VPtr (CPython.next (state m)) /\
  state (exec c m)
  = {| CPython.heap :=
         <[CPython.next (state m) :=
             CPython.PyLong (if signed then to_signed bitwidth v else v)]>
           (CPython.heap (state m));
       CPython.next := CPython.next (state m) + 8;
       CPython.err := CPython.err (state m) |}.
Proof.
  destruct st as [n md]. cbn [from_native_value].
  intros H Hpy Hval Hv. destruct signed.
  - cbn [in_unsigned_domain in_signed_domain] in H.
    case_bool_decide as Hdom; [|unfold raise in H; discriminate H].
    split; [exact Hdom|].
    unfold long_from_longlong, _long_from_native_int in H.
    rewrite Hpy in H. ginv.
    run_machine ltac:(do 3 run_pure; rewrite Hval; norm_machine;
                      repeat run_pure; run_ext ext_FromLongLong;
                      repeat run_pure).
    cbn [state]. norm_machine. split; [done|].
    rewrite to_signed_64_mod; [done|].
    destruct (to_signed_range bitwidth v ltac:(lia) Hv) as [Hr _].
    assert (2 ^ (bitwidth - 1) <= 2 ^ 63)
      by (apply Z.pow_le_mono_r; lia).
    lia.
  - cbn [in_unsigned_domain in_signed_domain] in H.
    case_bool_decide as Hdom; [|unfold raise in H; discriminate H].
    split; [exact Hdom|].
    unfold long_from_ulonglong, _long_from_native_int in H.
    rewrite Hpy in H. ginv.
    run_machine ltac:(do 3 run_pure; rewrite Hval; norm_machine;
                      repeat run_pure; run_ext ext_FromUnsignedLongLong;
                      repeat run_pure).
    cbn [state]. norm_machine. done.
Qed.

(** Unboxing an object that stands for an integer (an int, a long or a
    boolean) which fits in 64 bits: the native value is the integer's
    residue at the bit width, so an integer too large for the width is
    narrowed without an error, and the flag is unset. *)
Theorem to_native_int_narrows bitwidth signed obj st nv c st'
    (m : machine CPython.rt) a z :
  to_native_value obj (Integer bitwidth signed) st = Ok (nv, c, st') ->
  eval m obj = VPtr a -> a ≠ 0 ->
  CPython.as_integer (CPython.heap (state m) !! a) = Some z ->
  CPython.next (state m) ≠ 0 ->
  CPython.err (state m) = false ->
  0 <= bitwidth <= 64 ->
  (if signed then - 2 ^ 63 <= z < 2 ^ 63 else 0 <= z < 2 ^ 64) ->
  eval (exec c m) (value nv) = VInt bitwidth (z mod 2 ^ bitwidth) /\
  eval (exec c m) (is_error nv) = VInt 1 0 /\
  CPython.err (state (exec c m)) = false.
Proof. apply to_native_int_run. Qed.

Lemma to_native_int_narrows_witness :
  match to_native_value (Const (VPtr 64)) (Integer 8 true) genstate0 with
  | Ok (nv, c, _) =>
      let m := exec c (CPython.machine_of
                         (CPython.alloc (CPython.PyLong 300) CPython.interp0).2)
      in
      eval m (value nv) = VInt 8 44 /\ eval m (is_error nv) = VInt 1 0
  | Raise _ _ => False
  end.
Proof.
  destruct (to_native_value (Const (VPtr 64)) (Integer 8 true) genstate0)
    as [[[nv c] st']|] eqn:E; [|vm_compute in E; discriminate E].
  destruct (to_native_int_narrows 8 true _ _ _ _ _
              (CPython.machine_of
                 (CPython.alloc (CPython.PyLong 300) CPython.interp0).2)
              64 300 E eq_refl)
    as (Hv & He & _).
  - lia.
  - vm_compute. reflexivity.
  - vm_compute. discriminate.
  - reflexivity.
  - lia.
  - lia.
  - cbv zeta. split; [exact Hv|exact He].
Defined.

(** Under Python 3, a native integer of one of the supported widths that
    is boxed and unboxed again comes back bit for bit, with the flag
    unset. *)
Theorem integer_round_trip cfg bitwidth signed val st obj c1 st1 nv c2 st2
    (m : machine CPython.rt) v :
  from_native_value cfg val (Integer bitwidth signed) st = Ok (obj, c1, st1) ->
  to_native_value obj (Integer bitwidth signed) st1 = Ok (nv, c2, st2) ->
  python2 cfg = false ->
  eval m val = VInt bitwidth v -> 0 <= v < 2 ^ bitwidth ->
  0 < CPython.next (state m) ->
  CPython.err (state m) = false ->
  eval (exec c2 (exec c1 m)) (value nv) = VInt bitwidth v /\
  eval (exec c2 (exec c1 m)) (is_error nv) = VInt 1 0.
Proof.
  intros H1 H2 Hpy Hval Hv Hnext Herr.
  destruct (from_native_int_run _ _ _ _ _ _ _ _ m v H1 Hpy Hval Hv)
    as (Hdom & Hobj & Hst).
  assert (Hbw : 0 < bitwidth <= 64) by lia.
  destruct (to_signed_range bitwidth v ltac:(lia) Hv) as [Hr Hm].
  assert (Hp : 2 ^ (bitwidth - 1) <= 2 ^ 63) by (apply Z.pow_le_mono_r; lia).
  assert (Hp' : 2 ^ bitwidth <= 2 ^ 64) by (apply Z.pow_le_mono_r; lia).
  destruct (to_native_int_run bitwidth signed obj st1 nv c2 st2 (exec c1 m)
              (CPython.next (state m))
              (if signed then to_signed bitwidth v else v) H2 Hobj)
    as (Hval' & Hflag & _).
  - lia.
  - rewrite Hst. cbn [CPython.heap]. rewrite lookup_insert_eq. done.
  - rewrite Hst. cbn [CPython.next]. lia.
  - rewrite Hst. cbn [CPython.err]. exact Herr.
  - lia.
  - destruct signed; lia.
  - split; [|exact Hflag]. rewrite Hval'. f_equal.
    destruct signed; [exact Hm|apply Z.mod_small; lia].
Qed.

Lemma integer_round_trip_witness :
  match from_native_value {| PYVERSION := (3, 4)%nat; long_bits := 64 |}
          (Const (VInt 16 65535)) (Integer 16 true) genstate0 with
  | Ok (obj, c1, st1) =>
      match to_native_value obj (Integer 16 true) st1 with
      | Ok (nv, c2, _) =>
          let m := exec c2 (exec c1 (CPython.machine_of CPython.interp0)) in
          eval m (value nv) = VInt 16 65535 /\ eval m (is_error nv) = VInt 1 0
      | Raise _ _ => False
      end
  | Raise _ _ => False
  end.
Proof.
  destruct (from_native_value {| PYVERSION := (3, 4)%nat; long_bits := 64 |}
              (Const (VInt 16 65535)) (Integer 16 true) genstate0)
    as [[[obj c1] st1]|] eqn:E1; [|vm_compute in E1; discriminate E1].
  destruct (to_native_value obj (Integer 16 true) st1)
    as [[[nv c2] st2]|] eqn:E2.
  - apply (integer_round_trip _ _ _ _ _ _ _ _ _ _ _
             (CPython.machine_of CPython.interp0) 65535 E1 E2).
    + reflexivity.
    + reflexivity.
    + split; [lia|reflexivity].
    + reflexivity.
    + reflexivity.
  - vm_compute in E1. injection E1 as <- <- <-.
    vm_compute in E2. discriminate E2.
Defined.

(** Unboxing as a boolean is the truth value of the object. *)
Lemma to_native_boolean_run obj st nv c st' (m : machine CPython.rt) a o :
  to_native_value obj boolean st = Ok (nv, c, st') ->
  eval m obj = VPtr a ->
  CPython.heap (state m) !! a = Some o ->
  CPython.err (state m) = false ->
  eval (exec c m) (value nv) = VInt 1 (if CPython.istrue o then 1 else 0) /\
  eval (exec c m) (is_error nv) = VInt 1 0 /\
  state (exec c m) = state m.
Proof.
  destruct st as [n md]. cbn [to_native_value]. intros H Hobj Ho Herr.
  unfold object_istrue, c_api_error, err_occurred, is_not_null in H. ginv.
  run_machine ltac:(repeat run_pure; open_call; rewrite Hobj;
                    close_call (ext_IsTrue a o (state m) (mem m) Ho);
                    repeat run_pure; run_ext ext_ErrOccurred;
                    repeat run_pure).
  cbn [mkNativeValue value is_error state]. norm_machine.
  rewrite Herr. norm_machine. split; [|done].
  destruct (CPython.istrue o).
  - rewrite bool_decide_eq_false_2 by done. done.
  - rewrite bool_decide_eq_true_2 by done. done.
Qed.

(** Boxing a bit gives one of the two boolean singletons. *)
Lemma from_native_boolean_run cfg val st obj c st' (m : machine CPython.rt) v :
  from_native_value cfg val boolean st = Ok (obj, c, st') ->
  eval m val = VInt 1 v ->
  eval (exec c m) obj
  = VPtr (if decide (v = 0) then CPython.false_addr else CPython.true_addr) /\
  state (exec c m) = state m.
Proof.
  destruct st as [n md]. cbn [from_native_value]. intros H Hval.
  unfold bool_from_long in H. ginv.
  run_machine ltac:(do 2 run_pure; rewrite Hval; norm_machine;
                    repeat run_pure; run_ext ext_BoolFromLong;
                    repeat run_pure).
  cbn [state]. norm_machine. done.
Qed.

(** A bit that is boxed and unboxed again comes back as it was, with the
    flag unset, in an interpreter that holds its two boolean singletons. *)
Theorem boolean_round_trip cfg val st obj c1 st1 nv c2 st2
    (m : machine CPython.rt) v :
  from_native_value cfg val boolean st = Ok (obj, c1, st1) ->
  to_native_value obj boolean st1 = Ok (nv, c2, st2) ->
  eval m val = VInt 1 v -> v = 0 \/ v = 1 ->
  CPython.heap (state m) !! CPython.true_addr = Some (CPython.PyBool true) ->
  CPython.heap (state m) !! CPython.false_addr = Some (CPython.PyBool false) ->
  CPython.err (state m) = false ->
  eval (exec c2 (exec c1 m)) (value nv) = VInt 1 v /\
  eval (exec c2 (exec c1 m)) (is_error nv) = VInt 1 0.
Proof.
  intros H1 H2 Hval Hv Ht Hf Herr.
  destruct (from_native_boolean_run _ _ _ _ _ _ m v H1 Hval) as [Hobj Hst].
  destruct Hv as [-> | ->].
  - rewrite decide_True in Hobj by done.
    destruct (to_native_boolean_run _ _ _ _ _ (exec c1 m) _
                (CPython.PyBool false) H2 Hobj) as (Hv & He & _).
    + rewrite Hst. exact Hf.
    + rewrite Hst. exact Herr.
    + split; [exact Hv|exact He].
  - rewrite decide_False in Hobj by done.
    destruct (to_native_boolean_run _ _ _ _ _ (exec c1 m) _
                (CPython.PyBool true) H2 Hobj) as (Hv & He & _).
    + rewrite Hst. exact Ht.
    + rewrite Hst. exact Herr.
    + split; [exact Hv|exact He].
Qed.

Lemma boolean_round_trip_witness :
  match from_native_value {| PYVERSION := (2, 7)%nat; long_bits := 64 |}
          (Const (VInt 1 1)) boolean genstate0 with
  | Ok (obj, c1, st1) =>
      match to_native_value obj boolean st1 with
      | Ok (nv, c2, _) =>
          let m := exec c2 (exec c1 (CPython.machine_of CPython.interp0)) in
          eval m (value nv) = VInt 1 1 /\ eval m (is_error nv) = VInt 1 0
      | Raise _ _ => False
      end
  | Raise _ _ => False
  end.
Proof.
  destruct (from_native_value {| PYVERSION := (2, 7)%nat; long_bits := 64 |}
              (Const (VInt 1 1)) boolean genstate0)
    as [[[obj c1] st1]|] eqn:E1; [|vm_compute in E1; discriminate E1].
  destruct (to_native_value obj boolean st1)
    as [[[nv c2] st2]|] eqn:E2.
  - apply (boolean_round_trip _ _ _ _ _ _ _ _ _
             (CPython.machine_of CPython.interp0) 1 E1 E2).
    + reflexivity.
    + right. reflexivity.
    + vm_compute. reflexivity.
    + vm_compute. reflexivity.
    + reflexivity.
  - vm_compute in E1. injection E1 as <- <- <-.
    vm_compute in E2. discriminate E2.
Defined.

Lemma ext_PyInt_FromLong bits n w mem :
  extcall CPython.rt "PyInt_FromLong" [VInt bits n] w mem
  = (VPtr (CPython.next w),
     {| CPython.heap := <[CPython.next w := CPython.PyInt (to_signed bits n)]>
                          (CPython.heap w);
        CPython.next := CPython.next w + 8;
        CPython.err := CPython.err w |}, mem).
Proof. reflexivity. Qed.

(** Boxing a native integer under Python 2, where a C long has 64 bits. *)
Lemma from_native_int_run_py2 cfg bitwidth signed val st obj c st'
    (m : machine CPython.rt) v :
  from_native_value cfg val (Integer bitwidth signed) st = Ok (obj, c, st') ->
  python2 cfg = true -> long_bits cfg = 64 ->
  eval m val = VInt bitwidth v -> 0 <= v < 2 ^ bitwidth ->
  (bitwidth = 8 \/ bitwidth = 16 \/ bitwidth = 32 \/ bitwidth = 64) /\
  eval (exec c m) obj = VPtr (CPython.next (state m)) /\
  state (exec c m)
  = {| CPython.heap :=
         <[CPython.next (state m) :=
             if signed then CPython.PyInt (to_signed bitwidth v)
             else if decide (v < 2 ^ 63) then CPython.PyInt v
                  else CPython.PyLong v]>
           (CPython.heap (state m));
       CPython.next := CPython.next (state m) + 8;
       CPython.err := CPython.err (state m) |}.
Proof.
  destruct st as [n md]. cbn [from_native_value].
  intros H Hpy Hlb Hval Hv. destruct signed.
  - cbn [in_unsigned_domain in_signed_domain] in H.
    case_bool_decide as Hdom; [|unfold raise in H; discriminate H].
    split; [exact Hdom|].
    unfold long_from_longlong, _long_from_native_int in H.
    rewrite Hpy in H. unfold const_int, long_min, long_max in H.
    rewrite Hlb in H. ginv.
    destruct (to_signed_range bitwidth v ltac:(lia) Hv) as [Hr _].
    assert (Hp : 2 ^ (bitwidth - 1) <= 2 ^ 63)
      by (apply Z.pow_le_mono_r; lia).
    assert (Hz : to_signed 64 (to_signed bitwidth v mod 2 ^ 64)
                 = to_signed bitwidth v)
      by (apply to_signed_64_mod; lia).
    assert (E1 : bool_decide (to_signed 64 (to_signed bitwidth v mod 2 ^ 64)
                              >= to_signed 64 ((- 2 ^ (64 - 1)) mod 2 ^ 64))
                 = true).
    { apply bool_decide_eq_true_2. rewrite Hz.
      change (to_signed 64 ((- 2 ^ (64 - 1)) mod 2 ^ 64)) with (- 2 ^ 63).
      lia. }
    assert (E2 : bool_decide (to_signed 64 (to_signed bitwidth v mod 2 ^ 64)
                              <= to_signed 64 ((2 ^ (64 - 1) - 1) mod 2 ^ 64))
                 = true).
    { apply bool_decide_eq_true_2. rewrite Hz.
      change (to_signed 64 ((2 ^ (64 - 1) - 1) mod 2 ^ 64)) with (2 ^ 63 - 1).
      lia. }
    run_machine ltac:(do 3 run_pure; rewrite Hval; norm_machine;
                      repeat run_pure; run_if; rewrite E1, E2;
                      change (bitop andb (VInt 1 1) (VInt 1 1))
                        with (VInt 1 1);
                      norm_machine; repeat run_pure;
                      run_ext ext_PyInt_FromLong; repeat run_pure).
    cbn [state]. norm_machine. split; [done|].
    rewrite Z.mod_mod by lia. rewrite Hz. done.
  - cbn [in_unsigned_domain in_signed_domain] in H.
    case_bool_decide as Hdom; [|unfold raise in H; discriminate H].
    split; [exact Hdom|].
    unfold long_from_ulonglong, _long_from_native_int in H.
    rewrite Hpy in H. unfold const_int, long_min, long_max in H.
    rewrite Hlb in H. ginv.
    assert (Hc : (2 ^ (64 - 1) - 1) mod 2 ^ 64 = 2 ^ 63 - 1) by reflexivity.
    destruct (decide (v < 2 ^ 63)) as [Hlt|Hge].
    + assert (E1 : bool_decide (v <= (2 ^ (64 - 1) - 1) mod 2 ^ 64) = true)
        by (apply bool_decide_eq_true_2; rewrite Hc; lia).
      run_machine ltac:(do 3 run_pure; rewrite Hval; norm_machine;
                        repeat run_pure; run_if; rewrite E1; norm_machine;
                        repeat run_pure;
                        run_ext ext_PyInt_FromLong; repeat run_pure).
      cbn [state]. norm_machine. split; [done|].
      rewrite to_signed_64_mod by lia. done.
    + assert (E1 : bool_decide (v <= (2 ^ (64 - 1) - 1) mod 2 ^ 64) = false)
        by (apply bool_decide_eq_false_2; rewrite Hc; lia).
      run_machine ltac:(do 3 run_pure; rewrite Hval; norm_machine;
                        repeat run_pure; run_if; rewrite E1; norm_machine;
                        repeat run_pure;
                        run_ext ext_FromUnsignedLongLong; repeat run_pure).
      cbn [state]. norm_machine. done.
Qed.

(** Under Python 2 with a 64-bit C long, a native integer is boxed as a
    machine-word [int] whenever it fits in a C long (always for a signed
    one, below 2^63 for an unsigned one) and as a [long] otherwise; either
    way, unboxing the object gives the native integer back bit for bit,
    with the flag unset. *)
Theorem integer_round_trip_python2 cfg bitwidth signed val st obj c1 st1 nv
    c2 st2 (m : machine CPython.rt) v :
  from_native_value cfg val (Integer bitwidth signed) st = Ok (obj, c1, st1) ->
  to_native_value obj (Integer bitwidth signed) st1 = Ok (nv, c2, st2) ->
  python2 cfg = true -> long_bits cfg = 64 ->
  eval m val = VInt bitwidth v -> 0 <= v < 2 ^ bitwidth ->
  0 < CPython.next (state m) ->
  CPython.err (state m) = false ->
  CPython.heap (state (exec c1 m)) !! CPython.next (state m)
  = Some (if signed then CPython.PyInt (to_signed bitwidth v)
          else if decide (v < 2 ^ 63) then CPython.PyInt v
               else CPython.PyLong v) /\
  eval (exec c2 (exec c1 m)) (value nv) = VInt bitwidth v /\
  eval (exec c2 (exec c1 m)) (is_error nv) = VInt 1 0.
Proof.
  intros H1 H2 Hpy Hlb Hval Hv Hnext Herr.
  destruct (from_native_int_run_py2 _ _ _ _ _ _ _ _ m v H1 Hpy Hlb Hval Hv)
    as (Hdom & Hobj & Hst).
  assert (Hbw : 0 < bitwidth <= 64) by lia.
  destruct (to_signed_range bitwidth v ltac:(lia) Hv) as [Hr Hm].
  assert (Hp : 2 ^ (bitwidth - 1) <= 2 ^ 63) by (apply Z.pow_le_mono_r; lia).
  assert (Hp' : 2 ^ bitwidth <= 2 ^ 64) by (apply Z.pow_le_mono_r; lia).
  split.
  { rewrite Hst. cbn [CPython.heap]. rewrite lookup_insert_eq. done. }
  destruct (to_native_int_run bitwidth signed obj st1 nv c2 st2 (exec c1 m)
              (CPython.next (state m))
              (if signed then to_signed bitwidth v else v) H2 Hobj)
    as (Hval' & Hflag & _).
  - lia.
  - rewrite Hst. cbn [CPython.heap]. rewrite lookup_insert_eq.
    destruct signed; [done|]. case_decide; done.
  - rewrite Hst. cbn [CPython.next]. lia.
  - rewrite Hst. cbn [CPython.err]. exact Herr.
  - lia.
  - destruct signed; lia.
  - split; [|exact Hflag]. rewrite Hval'. f_equal.
    destruct signed; [exact Hm|apply Z.mod_small; lia].
Qed.

Lemma integer_round_trip_python2_witness :
  match from_native_value {| PYVERSION := (2, 7)%nat; long_bits := 64 |}
          (Const (VInt 64 (2 ^ 64 - 1))) (Integer 64 false) genstate0 with
  | Ok (obj, c1, st1) =>
      match to_native_value obj (Integer 64 false) st1 with
      | Ok (nv, c2, _) =>
          let m1 := exec c1 (CPython.machine_of CPython.interp0) in
          CPython.heap (state m1) !! 64 = Some (CPython.PyLong (2 ^ 64 - 1)) /\
          eval (exec c2 m1) (value nv) = VInt 64 (2 ^ 64 - 1) /\
          eval (exec c2 m1) (is_error nv) = VInt 1 0
      | Raise _ _ => False
      end
  | Raise _ _ => False
  end.
Proof.
  destruct (from_native_value {| PYVERSION := (2, 7)%nat; long_bits := 64 |}
              (Const (VInt 64 (2 ^ 64 - 1))) (Integer 64 false) genstate0)
    as [[[obj c1] st1]|] eqn:E1; [|vm_compute in E1; discriminate E1].
  destruct (to_native_value obj (Integer 64 false) st1)
    as [[[nv c2] st2]|] eqn:E2.
  - apply (integer_round_trip_python2 _ _ _ _ _ _ _ _ _ _ _
             (CPython.machine_of CPython.interp0) (2 ^ 64 - 1) E1 E2).
    + reflexivity.
    + reflexivity.
    + reflexivity.
    + split; [discriminate|reflexivity].
    + reflexivity.
    + reflexivity.
  - vm_compute in E1. injection E1 as <- <- <-.
    vm_compute in E2. discriminate E2.
Defined.

End RoundTripExtra.

(** ** Tuples of objects through the model of the interpreter *)

Module TupleExtra.
Import LLVM LLVMFacts PythonAPI GenFacts OptionalFacts TupleFacts RunExtra
  RoundTripExtra.

Implicit Types (w : CPython.interp) (mem : gmap nat LLVM.value).

(** *** Lists *)

Lemma map_replicate {A B} (f : A -> B) n x :
  List.map f (replicate n x) = replicate n (f x).
Proof. induction n as [|n IH]; simpl; [done|]. rewrite IH. done. Qed.

Lemma fmap_seq_lookup (ps : list Z) :
  CPython.item_or_null ps <$> seq 0 (length ps) = VPtr <$> ps.
Proof.
  apply list_eq. intros i. rewrite !list_lookup_fmap.
  destruct (ps !! i) as [p|] eqn:E.
  - rewrite lookup_seq_lt by (eapply lookup_lt_Some; exact E). simpl.
    unfold CPython.item_or_null. rewrite E. done.
  - apply lookup_ge_None in E.
    rewrite (proj2 (lookup_ge_None (seq 0 (length ps)) i))
      by (rewrite length_seq; lia).
    done.
Qed.

(** *** The functions of the model, one equation each *)

Lemma ext_TupleNew bits n w mem :
  n ≠ 0 ->
  extcall CPython.rt "PyTuple_New" [VInt bits n] w mem
  = (VPtr (CPython.next w),
     {| CPython.heap :=
          <[CPython.next w := CPython.PyTuple (replicate (Z.to_nat n) 0)]>
            (CPython.heap w);
        CPython.next := CPython.next w + 8;
        CPython.err := CPython.err w |}, mem).
Proof.
  intros Hn.
  change (extcall CPython.rt "PyTuple_New" [VInt bits n] w mem)
    with (if decide (n = 0) then (VPtr CPython.empty_tuple_addr, w, mem)
          else
            let '(a, w') :=
              CPython.alloc (CPython.PyTuple (replicate (Z.to_nat n) 0)) w in
            (VPtr a, w', mem)).
  rewrite decide_False by done. reflexivity.
Qed.

Lemma ext_TupleNew_empty bits w mem :
  extcall CPython.rt "PyTuple_New" [VInt bits 0] w mem
  = (VPtr CPython.empty_tuple_addr, w, mem).
Proof. reflexivity. Qed.

Lemma ext_TupleSetItem t bits i o items w mem :
  CPython.heap w !! t = Some (CPython.PyTuple items) ->
  0 <= i < Z.of_nat (length items) ->
  extcall CPython.rt "PyTuple_SetItem" [VPtr t; VInt bits i; VPtr o] w mem
  = (VInt 32 0,
     {| CPython.heap :=
          <[t := CPython.PyTuple (<[Z.to_nat i := o]> items)]> (CPython.heap w);
        CPython.next := CPython.next w;
        CPython.err := CPython.err w |}, mem).
Proof.
  intros Ht Hi.
  change (extcall CPython.rt "PyTuple_SetItem" [VPtr t; VInt bits i; VPtr o]
            w mem)
    with (match CPython.heap w !! t with
          | Some (CPython.PyTuple items) =>
              if decide (0 <= i < Z.of_nat (length items)) then
                (VInt 32 0,
                 {| CPython.heap :=
                      <[t := CPython.PyTuple (<[Z.to_nat i := o]> items)]>
                        (CPython.heap w);
                    CPython.next := CPython.next w;
                    CPython.err := CPython.err w |}, mem)
              else (CPython.minus_one 32, CPython.set_err w, mem)
          | _ => (CPython.minus_one 32, CPython.set_err w, mem)
          end).
  rewrite Ht. rewrite decide_True by done. done.
Qed.

Lemma ext_TupleGetItem t bits i items w mem :
  CPython.heap w !! t = Some (CPython.PyTuple items) ->
  extcall CPython.rt "PyTuple_GetItem" [VPtr t; VInt bits i] w mem
  = (CPython.item_or_null items (Z.to_nat i),
     if items !! Z.to_nat i is Some _ then w else CPython.set_err w, mem).
Proof.
  intros Ht.
  change (extcall CPython.rt "PyTuple_GetItem" [VPtr t; VInt bits i] w mem)
    with (match CPython.heap w !! t with
          | Some (CPython.PyTuple items) =>
              match items !! Z.to_nat i with
              | Some o => (VPtr o, w, mem)
              | None => (VPtr 0, CPython.set_err w, mem)
              end
          | _ => (VPtr 0, CPython.set_err w, mem)
          end).
  rewrite Ht. unfold CPython.item_or_null.
  destruct (items !! Z.to_nat i); done.
Qed.

(** *** Boxing *)

Section Boxing.
Implicit Types (m : machine CPython.rt).

(** The loop of [from_native_tuple] over [k] object pointers from index
    [i] on: slot [i + j] of the tuple receives field [i + j] of the
    aggregate; nothing else of the interpreter changes. *)
Lemma from_native_tuple_loop_objs cfg k :
  forall i val tuple_val st u c st' m ps t items,
  from_native_tuple_loop
    (replicate k (fun item => from_native_value cfg item pyobject))
    val tuple_val i st = Ok (u, c, st') ->
  op_lt (fresh st) val -> op_lt (fresh st) tuple_val ->
  eval m val = VAgg (VPtr <$> ps) ->
  eval m tuple_val = VPtr t ->
  CPython.heap (state m) !! t = Some (CPython.PyTuple items) ->
  (i + k <= length ps)%nat -> length items = length ps ->
  CPython.heap (state (exec c m))
  = <[t := CPython.PyTuple
             (take i items ++ take k (drop i ps) ++ drop (i + k) items)]>
      (CPython.heap (state m)) /\
  CPython.next (state (exec c m)) = CPython.next (state m) /\
  CPython.err (state (exec c m)) = CPython.err (state m).
Proof.
  induction k as [|k IH];
    intros i val tuple_val [n md] u c st' m ps t items H Hval Htup Hev Het Hheap
      Hik Hlen; simpl in H.
  - ginv. simpl. rewrite Nat.add_0_r, take_drop.
    rewrite insert_id by exact Hheap. done.
  - unfold tuple_setitem in H. ginv. cbn [fresh] in *.
    match goal with Hl : from_native_tuple_loop _ _ _ _ _ = Ok (_, ?cr, _) |- _ =>
      rename Hl into Hloop; rename cr into crest end.
    destruct (ps !! i) as [p|] eqn:Ep;
      [|apply lookup_ge_None in Ep; lia].
    repeat run_pure. rewrite Hev. cbv iota.
    rewrite list_lookup_fmap, Ep. cbn [fmap option_fmap option_map default].
    open_call.
    match goal with
    | |- context [eval ?M tuple_val] =>
        rewrite (eval_same_regs m M n tuple_val)
          by (try assumption; intros; cbn [regs];
              rewrite !lookup_insert_ne by lia; done)
    end.
    rewrite Het.
    rewrite (ext_TupleSetItem t 32 (Z.of_nat i) p items _ _ Hheap) by lia.
    cbv beta iota zeta. norm_machine. repeat run_pure. rewrite Nat2Z.id.
    match goal with |- context [exec crest ?M] =>
      destruct (IH (S i) val tuple_val _ _ _ _ M ps t (<[i := p]> items) Hloop)
        as (Hh & Hn & He)
    end.
    + eapply op_lt_mono; [exact Hval|cbn [fresh]; lia].
    + eapply op_lt_mono; [exact Htup|cbn [fresh]; lia].
    + rewrite <- Hev. eapply eval_same_regs; [exact Hval|].
      intros r' Hr'. cbn [regs]. rewrite !lookup_insert_ne by lia. done.
    + rewrite <- Het. eapply eval_same_regs; [exact Htup|].
      intros r' Hr'. cbn [regs]. rewrite !lookup_insert_ne by lia. done.
    + cbn [state CPython.heap]. rewrite lookup_insert_eq. done.
    + lia.
    + rewrite length_insert. done.
    + rewrite Hh, Hn, He. cbn [state CPython.heap CPython.next CPython.err].
      rewrite insert_insert_eq. split; [|done]. do 2 f_equal.
      rewrite (drop_S ps p i Ep). cbn [take].
      apply take_insert_drop. lia.
Qed.

Lemma from_native_tuple_objs cfg count val st obj c st' m ps :
  from_native_tuple
    (replicate count (fun item => from_native_value cfg item pyobject)) val st
  = Ok (obj, c, st') ->
  op_lt (fresh st) val ->
  eval m val = VAgg (VPtr <$> ps) -> length ps = count -> (0 < count)%nat ->
  eval (exec c m) obj = VPtr (CPython.next (state m)) /\
  CPython.heap (state (exec c m))
  = <[CPython.next (state m) := CPython.PyTuple ps]> (CPython.heap (state m)) /\
  CPython.next (state (exec c m)) = CPython.next (state m) + 8 /\
  CPython.err (state (exec c m)) = CPython.err (state m).
Proof.
  destruct st as [n md]. intros H Hval Hev <- Hpos.
  unfold from_native_tuple, tuple_new in H. ginv. cbn [fresh] in *.
  match goal with Hl : from_native_tuple_loop _ _ _ _ _ = Ok (_, ?cr, _) |- _ =>
    rename Hl into Hloop; rename cr into cloop end.
  rewrite length_replicate in *.
  assert (Hwf : Forall box_wf
                  (replicate (length ps)
                     (fun item => from_native_value cfg item pyobject)))
    by (apply Forall_replicate; apply (ScopeExtra.from_native_value_wf cfg pyobject)).
  destruct (ScopeExtra.from_native_tuple_loop_wf _ _ _ _ _ _ _ _ Hwf Hloop)
    as (Hle & Hd).
  cbn [fresh] in *.
  repeat run_pure. open_call. rewrite ext_TupleNew by lia.
  cbv beta iota zeta. norm_machine. repeat run_pure. skip_tail.
  rewrite Nat2Z.id.
  match goal with |- context [exec cloop ?M] =>
    destruct (from_native_tuple_loop_objs cfg _ _ _ _ _ _ _ _ M ps
                (CPython.next (state m)) (replicate (length ps) 0) Hloop)
      as (Hh & Hn & He);
    [ eapply op_lt_mono; [exact Hval|cbn [fresh]; lia]
    | cbn [fresh op_lt]; lia
    | rewrite <- Hev; eapply eval_same_regs; [exact Hval|];
      intros r' Hr'; cbn [regs]; rewrite !lookup_insert_ne by lia; done
    | norm_machine; done
    | cbn [state CPython.heap]; rewrite lookup_insert_eq; done
    | lia
    | rewrite length_replicate; done
    | assert (Hfr : regs (exec cloop M) !! n = regs M !! n)
        by (eapply exec_regs_frame; [exact Hd|cbn [fresh]; lia]) ]
  end.
  cbn [eval]. rewrite Hfr, Hh, Hn, He.
  cbn [regs state CPython.heap CPython.next CPython.err].
  rewrite lookup_insert_eq, insert_insert_eq.
  unfold id. rewrite take_0, drop_0, drop_replicate, Nat.sub_diag.
  rewrite (take_ge ps (length ps)) by lia.
  cbn [replicate app]. rewrite app_nil_r. done.
Qed.

Lemma from_native_tuple_empty (convs : list (operand -> Gen operand)) val st
    obj c st' m :
  convs = [] ->
  from_native_tuple convs val st = Ok (obj, c, st') ->
  eval (exec c m) obj = VPtr CPython.empty_tuple_addr /\
  state (exec c m) = state m.
Proof.
  destruct st as [n md]. intros -> H.
  unfold from_native_tuple, tuple_new in H. cbn [length from_native_tuple_loop] in H.
  change (Z.of_nat 0) with 0 in H. ginv. cbn [fresh] in *.
  repeat run_pure. run_ext ext_TupleNew_empty. repeat run_pure.
  norm_machine. done.
Qed.

(** Boxing a native tuple of object pointers.  With elements, it makes
    one new tuple object, at the next free address, that holds the
    pointers in order; no other object changes and the error indicator is
    left as it was.  Without elements nothing is made: the object is the
    interpreter's one empty tuple, and the interpreter is left as it
    was. *)
Theorem object_tuple_boxed cfg typ count val st obj c st' m ps :
  typ = UniTuple pyobject count \/ typ = Tuple (replicate count pyobject) ->
  from_native_value cfg val typ st = Ok (obj, c, st') ->
  op_lt (fresh st) val ->
  eval m val = VAgg (VPtr <$> ps) -> length ps = count ->
  if decide (count = 0%nat) then
    eval (exec c m) obj = VPtr CPython.empty_tuple_addr /\
    state (exec c m) = state m
  else
    eval (exec c m) obj = VPtr (CPython.next (state m)) /\
    CPython.heap (state (exec c m))
    = <[CPython.next (state m) := CPython.PyTuple ps]>
        (CPython.heap (state m)) /\
    CPython.next (state (exec c m)) = CPython.next (state m) + 8 /\
    CPython.err (state (exec c m)) = CPython.err (state m).
Proof.
  intros Htyp H Hval Hev Hlen.
  assert (Hgen : from_native_tuple
            (replicate count (fun item => from_native_value cfg item pyobject))
            val st = Ok (obj, c, st')).
  { destruct Htyp as [-> | ->]; cbn [from_native_value] in H; [exact H|].
    rewrite map_replicate in H. exact H. }
  case_decide as Hc.
  - rewrite Hc in Hgen.
    eapply from_native_tuple_empty; [|exact Hgen]. reflexivity.
  - apply (from_native_tuple_objs cfg _ _ _ _ _ _ m ps Hgen Hval Hev Hlen). lia.
Qed.

Lemma object_tuple_boxed_witness :
  match from_native_value {| PYVERSION := (3, 4)%nat; long_bits := 64 |}
          (Const (VAgg [VPtr 16; VPtr 24])) (UniTuple pyobject 2)
          genstate0 with
  | Ok (obj, c, _) =>
      let m' := exec c (CPython.machine_of CPython.interp0) in
      eval m' obj = VPtr 64 /\
      CPython.heap (state m') !! 64 = Some (CPython.PyTuple [16; 24])
  | Raise _ _ => False
  end /\
  match from_native_value {| PYVERSION := (3, 4)%nat; long_bits := 64 |}
          (Const (VAgg [])) (UniTuple pyobject 0) genstate0 with
  | Ok (obj, c, _) =>
      let m' := exec c (CPython.machine_of CPython.interp0) in
      eval m' obj = VPtr 40 /\ state m' = CPython.interp0
  | Raise _ _ => False
  end.
Proof.
  split.
  - destruct (from_native_value {| PYVERSION := (3, 4)%nat; long_bits := 64 |}
                (Const (VAgg [VPtr 16; VPtr 24])) (UniTuple pyobject 2)
                genstate0) as [[[obj c] st']|] eqn:E;
      [|vm_compute in E; discriminate E].
    destruct (object_tuple_boxed _ _ 2%nat _ _ _ _ _
                (CPython.machine_of CPython.interp0) [16; 24]
                (or_introl eq_refl) E I eq_refl eq_refl) as (Ho & Hh & _).
    cbv zeta. split; [exact Ho|].
    rewrite Hh. apply lookup_insert_eq.
  - destruct (from_native_value {| PYVERSION := (3, 4)%nat; long_bits := 64 |}
                (Const (VAgg [])) (UniTuple pyobject 0) genstate0)
      as [[[obj c] st']|] eqn:E; [|vm_compute in E; discriminate E].
    exact (object_tuple_boxed _ _ 0%nat _ _ _ _ _
             (CPython.machine_of CPython.interp0) []
             (or_introl eq_refl) E I eq_refl eq_refl).
Defined.

End Boxing.

(** *** Unboxing *)

Section Unboxing.
Implicit Types (m : machine CPython.rt).

(** The loop of [to_native_tuple] over [k] objects from index [i] on. *)
Lemma to_native_tuple_loop_objs k :
  forall i obj values cleanups e st vs cls e' c st' m t ps,
  to_native_tuple_loop (replicate k (fun o => to_native_value o pyobject))
    obj i values cleanups e st = Ok ((vs, cls, e'), c, st') ->
  op_lt (fresh st) obj -> Forall (op_lt (fresh st)) values ->
  op_lt (fresh st) e ->
  eval m obj = VPtr t ->
  CPython.heap (state m) !! t = Some (CPython.PyTuple ps) ->
  eval m e = VInt 1 0 ->
  cls = cleanups /\
  eval (exec c m) <$> vs
  = (eval m <$> values) ++ (CPython.item_or_null ps <$> seq i k) /\
  eval (exec c m) e' = VInt 1 0 /\
  state (exec c m)
  = (if decide (k = 0%nat) then state m
     else CPython.after_getitems (i + k) ps (state m)).
Proof.
  induction k as [|k IH];
    intros i obj values cleanups e [n md] vs cls e' c st' m t ps H Hobj Hvs He
      Hev Hheap Hee; simpl in H.
  - injection H as <- <- <- <- <-. simpl. rewrite app_nil_r. done.
  - unfold tuple_getitem in H. ginv. cbn [fresh] in *.
    match goal with
    | Hl : to_native_tuple_loop _ _ _ _ _ _ _ = Ok (_, ?cr, _) |- _ =>
        rename Hl into Hloop; rename cr into crest
    end.
    cbn [mkNativeValue value is_error cleanup] in Hloop.
    repeat run_pure. open_call. rewrite Hev.
    rewrite (ext_TupleGetItem t 64 (Z.of_nat i) ps _ _ Hheap), Nat2Z.id.
    set (w1 := if ps !! i is Some _ then state m else CPython.set_err (state m)).
    cbv beta iota zeta. norm_machine.
    repeat run_pure.
    match goal with
    | |- context [eval ?M e] =>
        rewrite (eval_same_regs m M n e)
          by (try assumption; intros; cbn [regs];
              rewrite !lookup_insert_ne by lia; done)
    end.
    rewrite Hee. change (bitop orb (VInt 1 0) (VInt 1 0)) with (VInt 1 0).
    match goal with |- context [exec crest ?M] =>
      destruct (IH (S i) obj (values ++ [Reg n]) cleanups (Reg (S n)) _ _ _ _ _
                  _ M t ps Hloop) as (Hc & Hv & Hf & Hs);
      [ eapply op_lt_mono; [exact Hobj|cbn [fresh]; lia]
      | apply Forall_app; split;
        [ eapply Forall_impl; [exact Hvs|];
          intros o' Ho'; eapply op_lt_mono; [exact Ho'|cbn [fresh]; lia]
        | apply Forall_cons_2; [cbn [fresh op_lt]; lia|apply Forall_nil_2] ]
      | cbn [fresh op_lt]; lia
      | rewrite <- Hev; eapply eval_same_regs; [exact Hobj|];
        intros r' Hr'; cbn [regs]; rewrite !lookup_insert_ne by lia; done
      | cbn [state]; unfold w1; destruct (ps !! i); exact Hheap
      | norm_machine; done
      | assert (Hvals : eval M <$> values = eval m <$> values) ]
    end.
    { apply Forall_fmap_ext_1. eapply Forall_impl; [exact Hvs|].
      intros o' Ho'. eapply eval_same_regs; [exact Ho'|].
      intros r' Hr'. cbn [regs]. rewrite !lookup_insert_ne by lia. done. }
    split; [exact Hc|]. split; [|split; [exact Hf|]].
    + rewrite Hv, fmap_app, Hvals. cbn [fmap list_fmap seq].
      norm_machine. rewrite <- app_assoc. done.
    + rewrite Hs. cbn [state]. unfold CPython.after_getitems, w1.
      destruct (ps !! i) as [p|] eqn:Ep.
      * apply lookup_lt_Some in Ep.
        destruct (decide (k = 0%nat)) as [->|Hk].
        -- rewrite decide_False by lia. rewrite decide_True by lia. done.
        -- rewrite (decide_False (P := S k = 0%nat)) by lia.
           replace (i + S k)%nat with (S i + k)%nat by lia. done.
      * apply lookup_ge_None in Ep.
        rewrite (decide_False (P := S k = 0%nat)) by lia.
        rewrite (decide_False (P := (i + S k <= length ps)%nat)) by lia.
        destruct (decide (k = 0%nat)); [done|].
        destruct (decide (S i + k <= length ps)%nat); done.
Qed.

Lemma to_native_tuple_objs count is_unituple obj st nv c st' m t ps :
  to_native_tuple (replicate count (fun o => to_native_value o pyobject))
    is_unituple obj st = Ok (nv, c, st') ->
  op_lt (fresh st) obj ->
  eval m obj = VPtr t ->
  CPython.heap (state m) !! t = Some (CPython.PyTuple ps) ->
  eval (exec c m) (value nv) = VAgg (CPython.item_or_null ps <$> seq 0 count) /\
  eval (exec c m) (is_error nv) = VInt 1 0 /\
  cleanup nv = None /\
  state (exec c m) = CPython.after_getitems count ps (state m).
Proof.
  intros H Hobj Hev Hheap. unfold to_native_tuple in H. ginv.
  assert (Hwf : Forall conv_wf
                  (replicate count (fun o => to_native_value o pyobject)))
    by (apply Forall_replicate; apply (to_native_value_wf pyobject)).
  match goal with
  | Hl : to_native_tuple_loop _ _ _ _ _ _ _ = Ok (?r, ?cl, ?sl) |- _ =>
      destruct r as [[values cleanups] e];
      pose proof (to_native_tuple_loop_wf _ _ _ _ _ _ _ _ _ _ Hwf Hl)
        as (Hle & Hd & Hb);
      destruct (to_native_tuple_loop_objs _ _ _ _ _ _ _ _ _ _ _ _ m t ps Hl
                  Hobj (Forall_nil_2 _) I Hev Hheap eq_refl)
        as (Hc & Hv & Hf & Hs);
      rename cl into cloop; rename sl into stl
  end.
  ginv. cbn [fresh module fst snd] in *.
  destruct Hb as [Hbv Hbe]; [constructor|done|].
  match goal with Hi : _ = Ok (?v, ?cv, ?sv) |- _ =>
    assert (Hins : insert_values (undef_agg (length values)) 0 values stl
                   = Ok (v, cv, sv))
      by (destruct is_unituple; [|exact Hi];
          unfold pack_array in Hi; destruct values; [discriminate Hi|exact Hi]);
    clear Hi; rename cv into cins end.
  pose proof (insert_values_wf _ _ _ _ _ _ _ Hins) as (Hle3 & Hd3 & _).
  destruct (pack_values_run _ _ _ _ _ (exec cloop m) Hins Hbv) as [Hval Hst].
  subst cleanups. cbn [mkNativeValue value is_error cleanup].
  rewrite !exec_Seq. change (exec Skip ?x) with x.
  split; [|split; [|split]].
  - rewrite Hval, Hv. done.
  - rewrite (exec_eval_frame cins _ _ _ _ Hd3 Hbe). exact Hf.
  - done.
  - rewrite Hst, Hs. unfold CPython.after_getitems.
    destruct (decide (count = 0%nat)) as [->|Hk]; [|done].
    rewrite decide_True by lia. done.
Qed.

Lemma to_native_tuple_empty (convs : list (operand -> Gen NativeValue))
    is_unituple obj st nv c st' m :
  convs = [] ->
  to_native_tuple convs is_unituple obj st = Ok (nv, c, st') ->
  eval (exec c m) (value nv) = VAgg [] /\
  eval (exec c m) (is_error nv) = VInt 1 0 /\
  state (exec c m) = state m.
Proof.
  destruct st as [n md]. intros -> H.
  unfold to_native_tuple in H. cbn [to_native_tuple_loop] in H.
  unfold pack_array, make_anonymous_struct in H. cbn [length insert_values] in H.
  destruct is_unituple; ginv; [discriminate|].
  ginv. cbn [mkNativeValue value is_error].
  repeat run_pure. norm_machine. done.
Qed.

(** Unboxing a tuple of objects: the native value holds the item pointers
    in order and there is nothing to clean up.  No result of
    [PyTuple_GetItem] is examined: for a tuple with fewer items than the
    type has elements, the missing elements are NULL and the interpreter's
    error indicator is set, but the error flag of the native value is
    unset all the same. *)
Theorem object_tuple_unboxed typ count obj st nv c st' m t ps :
  typ = UniTuple pyobject count \/ typ = Tuple (replicate count pyobject) ->
  to_native_value obj typ st = Ok (nv, c, st') ->
  op_lt (fresh st) obj ->
  eval m obj = VPtr t ->
  CPython.heap (state m) !! t = Some (CPython.PyTuple ps) ->
  eval (exec c m) (value nv) = VAgg (CPython.item_or_null ps <$> seq 0 count) /\
  eval (exec c m) (is_error nv) = VInt 1 0 /\
  cleanup nv = None /\
  state (exec c m) = CPython.after_getitems count ps (state m).
Proof.
  intros [-> | ->] H Hobj Hev Hheap; cbn [to_native_value] in H.
  - exact (to_native_tuple_objs _ _ _ _ _ _ _ m t ps H Hobj Hev Hheap).
  - rewrite map_replicate in H.
    exact (to_native_tuple_objs _ _ _ _ _ _ _ m t ps H Hobj Hev Hheap).
Qed.

Lemma object_tuple_unboxed_witness :
  match to_native_value (Const (VPtr 80)) (UniTuple pyobject 4) genstate0 with
  | Ok (nv, c, _) =>
      let m' := exec c (CPython.machine_of CPython.interp_with_tuple) in
      eval m' (value nv) = VAgg [VPtr 64; VPtr 72; VPtr 8; VPtr 0] /\
      eval m' (is_error nv) = VInt 1 0 /\
      CPython.err (state m') = true
  | Raise _ _ => False
  end.
Proof.
  destruct (to_native_value (Const (VPtr 80)) (UniTuple pyobject 4) genstate0)
    as [[[nv c] st']|] eqn:E; [|vm_compute in E; discriminate E].
  destruct (object_tuple_unboxed _ 4%nat _ _ _ _ _
              (CPython.machine_of CPython.interp_with_tuple) 80 [64; 72; 8]
              (or_introl eq_refl) E I eq_refl)
    as (Hv & Hf & _ & Hs).
  - vm_compute. reflexivity.
  - cbv zeta. split; [exact Hv|]. split; [exact Hf|].
    rewrite Hs. reflexivity.
Defined.

End Unboxing.

(** *** Round trips *)

Section RoundTrip.
Implicit Types (m : machine CPython.rt).

(** A native tuple of object pointers that is boxed and unboxed again is
    the aggregate it was, with the error flag unset and the interpreter's
    error indicator as it was. *)
Theorem object_tuple_round_trip cfg count val st obj c1 st1 nv c2 st2 m ps :
  from_native_value cfg val (UniTuple pyobject count) st = Ok (obj, c1, st1) ->
  to_native_value obj (UniTuple pyobject count) st1 = Ok (nv, c2, st2) ->
  op_lt (fresh st) val ->
  eval m val = VAgg (VPtr <$> ps) -> length ps = count ->
  eval (exec c2 (exec c1 m)) (value nv) = eval m val /\
  eval (exec c2 (exec c1 m)) (is_error nv) = VInt 1 0 /\
  CPython.err (state (exec c2 (exec c1 m))) = CPython.err (state m).
Proof.
  intros H1 H2 Hval Hev Hlen.
  destruct (ScopeExtra.from_native_value_wf cfg _ _ _ _ _ _ H1) as (_ & _ & Hobj).
  specialize (Hobj Hval).
  cbn [from_native_value] in H1. cbn [to_native_value] in H2.
  destruct count as [|count'].
  { destruct ps; [|discriminate Hlen].
    destruct (from_native_tuple_empty _ _ _ _ _ _ m eq_refl H1) as [_ Hs1].
    destruct (to_native_tuple_empty _ _ _ _ _ _ _ (exec c1 m) eq_refl H2)
      as (Hv & Hf & Hs2).
    rewrite Hv, Hf, Hs2, Hs1, Hev. done. }
  destruct (from_native_tuple_objs cfg _ _ _ _ _ _ m ps H1 Hval Hev Hlen
              ltac:(lia))
    as (Ho & Hh & _ & He).
  destruct (to_native_tuple_objs _ _ _ _ _ _ _ (exec c1 m)
              (CPython.next (state m)) ps H2 Hobj Ho)
    as (Hv & Hf & _ & Hs).
  { rewrite Hh. apply lookup_insert_eq. }
  split; [|split; [exact Hf|]].
  - rewrite Hv, Hev, <- Hlen, fmap_seq_lookup. done.
  - rewrite Hs. unfold CPython.after_getitems.
    rewrite decide_True by lia. exact He.
Qed.

(** A tuple of objects that has items and is unboxed and boxed again
    comes back as a new object, at the next free address, with the same
    items; the tuple it came from is still there. *)
Theorem object_tuple_reboxed cfg count obj st nv c1 st1 obj' c2 st2 m t ps :
  to_native_value obj (UniTuple pyobject count) st = Ok (nv, c1, st1) ->
  from_native_value cfg (value nv) (UniTuple pyobject count) st1
    = Ok (obj', c2, st2) ->
  op_lt (fresh st) obj ->
  eval m obj = VPtr t ->
  CPython.heap (state m) !! t = Some (CPython.PyTuple ps) ->
  length ps = count -> (0 < count)%nat -> t ≠ CPython.next (state m) ->
  let m' := exec c2 (exec c1 m) in
  eval m' obj' = VPtr (CPython.next (state m)) /\
  CPython.heap (state m') !! CPython.next (state m)
    = Some (CPython.PyTuple ps) /\
  CPython.heap (state m') !! t = Some (CPython.PyTuple ps) /\
  CPython.err (state m') = CPython.err (state m).
Proof.
  intros H1 H2 Hobj Hev Hheap Hlen Hpos Hne m'. subst m'.
  destruct (to_native_value_wf _ _ _ _ _ _ H1) as (_ & _ & Hnv).
  destruct (Hnv Hobj) as [Hvalue _].
  cbn [to_native_value] in H1. cbn [from_native_value] in H2.
  destruct (to_native_tuple_objs _ _ _ _ _ _ _ m t ps H1 Hobj Hev Hheap)
    as (Hv & _ & _ & Hs).
  assert (Hs' : state (exec c1 m) = state m)
    by (rewrite Hs; unfold CPython.after_getitems;
        rewrite decide_True by lia; done).
  subst count. rewrite fmap_seq_lookup in Hv.
  destruct (from_native_tuple_objs cfg _ _ _ _ _ _ (exec c1 m) ps H2 Hvalue Hv
              eq_refl Hpos) as (Ho & Hh & _ & He).
  rewrite Hs' in Ho, Hh, He.
  split; [exact Ho|]. rewrite Hh.
  split; [apply lookup_insert_eq|].
  split; [|exact He].
  rewrite lookup_insert_ne by done. exact Hheap.
Qed.

Lemma object_tuple_round_trip_witness :
  match from_native_value {| PYVERSION := (3, 4)%nat; long_bits := 64 |}
          (Const (VAgg [VPtr 16; VPtr 24])) (UniTuple pyobject 2)
          genstate0 with
  | Ok (obj, c1, st1) =>
      match to_native_value obj (UniTuple pyobject 2) st1 with
      | Ok (nv, c2, _) =>
          let m' := exec c2 (exec c1 (CPython.machine_of CPython.interp0)) in
          eval m' (value nv) = VAgg [VPtr 16; VPtr 24] /\
          eval m' (is_error nv) = VInt 1 0
      | Raise _ _ => False
      end
  | Raise _ _ => False
  end.
Proof.
  destruct (from_native_value {| PYVERSION := (3, 4)%nat; long_bits := 64 |}
              (Const (VAgg [VPtr 16; VPtr 24])) (UniTuple pyobject 2)
              genstate0) as [[[obj c1] st1]|] eqn:E1;
    [|vm_compute in E1; discriminate E1].
  destruct (to_native_value obj (UniTuple pyobject 2) st1)
    as [[[nv c2] st2]|] eqn:E2.
  - destruct (object_tuple_round_trip _ 2%nat _ _ _ _ _ _ _ _
                (CPython.machine_of CPython.interp0) [16; 24] E1 E2 I eq_refl
                eq_refl) as (Hv & Hf & _).
    cbv zeta. split; [exact Hv|exact Hf].
  - vm_compute in E1. injection E1 as <- <- <-.
    vm_compute in E2. discriminate E2.
Defined.

Lemma object_tuple_reboxed_witness :
  match to_native_value (Const (VPtr 80)) (UniTuple pyobject 3) genstate0 with
  | Ok (nv, c1, st1) =>
      match from_native_value {| PYVERSION := (3, 4)%nat; long_bits := 64 |}
              (value nv) (UniTuple pyobject 3) st1 with
      | Ok (obj', c2, _) =>
          let m' :=
            exec c2 (exec c1 (CPython.machine_of CPython.interp_with_tuple)) in
          eval m' obj' = VPtr 88 /\
          CPython.heap (state m') !! 88 = Some (CPython.PyTuple [64; 72; 8]) /\
          CPython.heap (state m') !! 80 = Some (CPython.PyTuple [64; 72; 8])
      | Raise _ _ => False
      end
  | Raise _ _ => False
  end.
Proof.
  destruct (to_native_value (Const (VPtr 80)) (UniTuple pyobject 3) genstate0)
    as [[[nv c1] st1]|] eqn:E1; [|vm_compute in E1; discriminate E1].
  destruct (from_native_value {| PYVERSION := (3, 4)%nat; long_bits := 64 |}
              (value nv) (UniTuple pyobject 3) st1)
    as [[[obj' c2] st2]|] eqn:E2.
  - assert (Hheap : CPython.heap
                      (state (CPython.machine_of CPython.interp_with_tuple))
                    !! 80 = Some (CPython.PyTuple [64; 72; 8]))
      by (vm_compute; reflexivity).
    assert (Hne : 80 ≠ CPython.next
                         (state (CPython.machine_of CPython.interp_with_tuple)))
      by (vm_compute; discriminate).
    destruct (object_tuple_reboxed _ 3%nat _ _ _ _ _ _ _ _
                (CPython.machine_of CPython.interp_with_tuple) 80 [64; 72; 8]
                E1 E2 I eq_refl Hheap eq_refl ltac:(lia) Hne)
      as (Ho & Hn & Ht & _).
    cbv zeta. split; [exact Ho|]. split; [exact Hn|exact Ht].
  - vm_compute in E1. injection E1 as <- <- <-.
    vm_compute in E2. discriminate E2.
Defined.

End RoundTrip.

End TupleExtra.

(** ** The types a conversion exists for *)

Module RaiseExtra.
Import LLVM LLVMFacts PythonAPI GenFacts.

Lemma bind_run {A B} (g : Gen A) (f : A -> Gen B) st :
  (g ≫= f) st
  = match g st with
    | Ok (a, c1, st1) =>
        match f a st1 with
        | Ok (b, c2, st2) => Ok (b, Seq c1 c2, st2)
        | Raise e msg => Raise e msg
        end
    | Raise e msg => Raise e msg
    end.
Proof. reflexivity. Qed.

Section Outcome.
Context (other : string -> Prop).

Lemma outcome_ret {A} (a : A) : outcome other true (mret a).
Proof. intros st. done. Qed.

Lemma outcome_emit r : outcome other true (emit r).
Proof. intros st. done. Qed.

Lemma outcome_store v p : outcome other true (store v p).
Proof. intros st. done. Qed.

Lemma outcome_alloca_once : outcome other true alloca_once.
Proof. intros st. done. Qed.

Lemma outcome_raise {A} msg :
  outcome other false (raise (A := A) "NotImplementedError" msg).
Proof. intros st. left. done. Qed.

Lemma outcome_bind {A B} b1 b2 (g : Gen A) (f : A -> Gen B) :
  outcome other b1 g -> (forall a, outcome other b2 (f a)) ->
  outcome other (b1 && b2) (g ≫= f).
Proof.
  intros Hg Hf st. rewrite bind_run. specialize (Hg st).
  destruct (g st) as [[[a c1] st1]|e msg].
  - subst b1. specialize (Hf a st1).
    destruct (f a st1) as [[[b c2] st2]|e msg]; [exact Hf|].
    destruct Hf as [[-> ->]|Ho]; [left; done|right; exact Ho].
  - destruct Hg as [[-> ->]|Ho]; [left; done|right; exact Ho].
Qed.

Lemma outcome_bind_true {A B} (g : Gen A) (f : A -> Gen B) :
  outcome other true g -> (forall a, outcome other true (f a)) ->
  outcome other true (g ≫= f).
Proof. apply (outcome_bind true true). Qed.

Lemma outcome_bind_left {A B} b (g : Gen A) (f : A -> Gen B) :
  outcome other b g -> (forall a, outcome other true (f a)) ->
  outcome other b (g ≫= f).
Proof.
  intros Hg Hf. rewrite <- (andb_true_r b). apply outcome_bind; assumption.
Qed.

Lemma outcome_ifelse {A B} b1 b2 cond (g1 : Gen A) (g2 : Gen B) :
  outcome other b1 g1 -> outcome other b2 g2 ->
  outcome other (b1 && b2) (ifelse cond g1 g2).
Proof.
  intros H1 H2 st. unfold ifelse. specialize (H1 st).
  destruct (g1 st) as [[[a c1] st1]|e msg].
  - subst b1. specialize (H2 st1).
    destruct (g2 st1) as [[[b c2] st2]|e msg]; [exact H2|].
    destruct H2 as [[-> ->]|Ho]; [left; done|right; exact Ho].
  - destruct H1 as [[-> ->]|Ho]; [left; done|right; exact Ho].
Qed.

Lemma outcome_ifelse_true {A B} cond (g1 : Gen A) (g2 : Gen B) :
  outcome other true g1 -> outcome other true g2 ->
  outcome other true (ifelse cond g1 g2).
Proof. apply (outcome_ifelse true true). Qed.

Lemma outcome_ifelse_left {A B} b cond (g1 : Gen A) (g2 : Gen B) :
  outcome other b g1 -> outcome other true g2 ->
  outcome other b (ifelse cond g1 g2).
Proof.
  intros H1 H2. rewrite <- (andb_true_r b). apply outcome_ifelse; assumption.
Qed.

End Outcome.

(** Code that is generated by builder calls alone never raises. *)
Ltac never_raises :=
  repeat first
    [ apply outcome_ret
    | apply outcome_emit
    | apply outcome_store
    | apply outcome_alloca_once
    | apply outcome_ifelse_true
    | apply outcome_bind_true; [|intros]
    | match goal with
      | |- outcome _ true (fun _ => _) => intros ?st; exact (eq_refl true)
      | x : (_ * _)%type |- _ => destruct x
      | |- outcome _ _ (if ?b then _ else _) => destruct b
      | |- outcome _ _ (match ?o with Some _ => _ | None => _ end) =>
          destruct o
      | |- outcome _ _ ?g =>
          let h := lazymatch g with
                   | ?h _ _ _ _ _ _ => h | ?h _ _ _ _ _ => h | ?h _ _ _ _ => h
                   | ?h _ _ _ => h | ?h _ _ => h
                   | ?h _ => h | ?h => h
                   end in
          unfold h
      end ].

Lemma forallb_replicate {A} (f : A -> bool) n x :
  forallb f (replicate n x) = match n with O => true | S _ => f x end.
Proof.
  destruct n as [|n]; [done|]. simpl. induction n as [|n IH]; simpl.
  - apply andb_true_r.
  - rewrite IH. destruct (f x); done.
Qed.

(** *** Boxing *)

Lemma from_native_leaf_outcome cfg typ val :
  is_leaf typ ->
  outcome no_other (can_box typ) (from_native_value cfg val typ).
Proof.
  intros Hl.
  destruct typ; try (exfalso; exact Hl); cbn [from_native_value can_box];
    try apply outcome_raise; try (never_raises; fail).
  (* Integer *)
  destruct (in_unsigned_domain _); [never_raises; fail|].
  destruct (in_signed_domain _); [never_raises; fail|].
  apply outcome_raise.
Qed.

Lemma from_native_tuple_loop_outcome cfg types :
  Forall (fun t => forall val,
            outcome no_other (can_box t) (from_native_value cfg val t)) types ->
  forall val tuple_val i,
    outcome no_other (forallb can_box types)
      (from_native_tuple_loop
         (List.map (fun dtype item => from_native_value cfg item dtype) types)
         val tuple_val i).
Proof.
  induction 1 as [|t ts Ht Hts IH]; intros val tuple_val i;
    cbn [List.map from_native_tuple_loop forallb].
  - apply outcome_ret.
  - apply (outcome_bind no_other true (can_box t && forallb can_box ts));
      [apply outcome_emit|intros item].
    apply outcome_bind; [apply Ht|intros obj].
    apply (outcome_bind no_other true (forallb can_box ts));
      [never_raises|intros _; apply IH].
Qed.

Lemma from_native_tuple_outcome cfg types val :
  Forall (fun t => forall val,
            outcome no_other (can_box t) (from_native_value cfg val t)) types ->
  outcome no_other (forallb can_box types)
    (from_native_tuple
       (List.map (fun dtype item => from_native_value cfg item dtype) types)
       val).
Proof.
  intros H. unfold from_native_tuple.
  apply (outcome_bind no_other true (forallb can_box types));
    [never_raises|intros tuple_val].
  apply outcome_bind_left; [|intros; apply outcome_ret].
  apply from_native_tuple_loop_outcome. exact H.
Qed.

Lemma from_native_value_outcome cfg typ :
  forall val, outcome no_other (can_box typ) (from_native_value cfg val typ).
Proof.
  induction typ as [typ Hl|typ IH|types IH|dtype count IH]
    using type_nested_ind; intros val.
  - apply from_native_leaf_outcome. exact Hl.
  - cbn [from_native_value can_box]. apply IH.
  - cbn [from_native_value can_box]. apply from_native_tuple_outcome.
    exact IH.
  - cbn [from_native_value can_box].
    rewrite <- (forallb_replicate can_box count dtype).
    rewrite <- (TupleExtra.map_replicate
                  (fun dtype item => from_native_value cfg item dtype)).
    apply from_native_tuple_outcome. apply Forall_replicate. exact IH.
Qed.

(** Boxing is refused when the code is generated, never later, and for
    exactly the types [can_box] rejects: an object of a given class, a
    buffer, a function pointer or an integer outside the two domains, on
    its own, in an optional or in a tuple that has elements; the exception
    is [NotImplementedError] whatever was generated before. *)
Theorem from_native_value_raises cfg typ val st :
  match from_native_value cfg val typ st with
  | Ok _ => can_box typ = true
  | Raise e _ => can_box typ = false /\ e = "NotImplementedError"
  end.
Proof.
  pose proof (from_native_value_outcome cfg typ val st) as H.
  destruct (from_native_value cfg val typ st) as [r|e msg]; [exact H|].
  destruct H as [H|[]]. exact H.
Qed.

(** *** Unboxing *)

Lemma serialize_object_outcome obj :
  outcome any_other true (serialize_object obj).
Proof.
  intros st. destruct (serialize_object obj st); [done|right; exact I].
Qed.

Lemma to_native_leaf_outcome typ obj :
  is_leaf typ ->
  outcome any_other (can_unbox typ) (to_native_value obj typ).
Proof.
  intros Hl.
  destruct typ; try (exfalso; exact Hl); cbn [to_native_value can_unbox];
    try apply outcome_raise; try (never_raises; fail).
  (* ExternalFunctionPointer *)
  destruct get_pointer as [get_pointer|]; [|apply outcome_raise].
  apply outcome_bind_true; [never_raises|intros ret].
  apply outcome_bind_true; [apply serialize_object_outcome|intros ser].
  never_raises.
Qed.

Lemma to_native_optional_outcome other b conv obj :
  (forall obj, outcome other b (conv obj)) ->
  outcome other b (to_native_optional conv obj).
Proof.
  intros H. unfold to_native_optional.
  apply (outcome_bind other true b); [never_raises|intros noneval].
  apply (outcome_bind other true b); [never_raises|intros nn].
  apply (outcome_bind other true b); [never_raises|intros retptr].
  apply (outcome_bind other true b); [never_raises|intros errptr].
  apply outcome_bind_left; [|intros [native u]; never_raises].
  apply outcome_ifelse_left; [|never_raises].
  apply outcome_bind_left; [apply H|intros native; never_raises].
Qed.

Lemma to_native_tuple_loop_outcome types :
  Forall (fun t => forall obj,
            outcome any_other (can_unbox t) (to_native_value obj t))
         types ->
  forall obj i values cleanups err,
    outcome any_other (forallb can_unbox types)
      (to_native_tuple_loop
         (List.map (fun eltype obj => to_native_value obj eltype) types)
         obj i values cleanups err).
Proof.
  induction 1 as [|t ts Ht Hts IH]; intros obj i values cleanups err;
    cbn [List.map to_native_tuple_loop forallb].
  - apply outcome_ret.
  - apply (outcome_bind any_other true
             (can_unbox t && forallb can_unbox ts));
      [never_raises|intros elem].
    apply outcome_bind; [apply Ht|intros native].
    apply (outcome_bind any_other true (forallb can_unbox ts));
      [never_raises|intros e; apply IH].
Qed.

Lemma to_native_tuple_outcome types is_unituple obj :
  Forall (fun t => forall obj,
            outcome any_other (can_unbox t) (to_native_value obj t))
         types ->
  outcome any_other (forallb can_unbox types)
    (to_native_tuple
       (List.map (fun eltype obj => to_native_value obj eltype) types)
       is_unituple obj).
Proof.
  intros H. unfold to_native_tuple.
  apply outcome_bind_left;
    [apply to_native_tuple_loop_outcome; exact H|intros [[values cleanups] e]].
  apply outcome_bind_true; [|intros; apply outcome_ret].
  assert (Hins : forall vs agg i,
            outcome any_other true (insert_values agg i vs)).
  { induction vs as [|v vs IHvs]; intros agg i; cbn [insert_values].
    - apply outcome_ret.
    - apply outcome_bind_true; [apply outcome_emit|intros; apply IHvs]. }
  destruct is_unituple; [|apply Hins].
  unfold pack_array. destruct values; [|apply Hins].
  intros st. right. exact I.
Qed.

Lemma to_native_value_outcome typ :
  forall obj,
    outcome any_other (can_unbox typ) (to_native_value obj typ).
Proof.
  induction typ as [typ Hl|typ IH|types IH|dtype count IH]
    using type_nested_ind; intros obj.
  - apply to_native_leaf_outcome. exact Hl.
  - cbn [to_native_value can_unbox]. apply to_native_optional_outcome.
    exact IH.
  - cbn [to_native_value can_unbox]. apply to_native_tuple_outcome. exact IH.
  - cbn [to_native_value can_unbox]. destruct count as [|count].
    { intros [n md].
      unfold to_native_tuple, pack_array. cbn. right. exact I. }
    change (can_unbox dtype)
      with (match S count with O => true | S _ => can_unbox dtype end).
    rewrite <- (forallb_replicate can_unbox (S count) dtype).
    rewrite <- (TupleExtra.map_replicate
                  (fun eltype obj => to_native_value obj eltype)).
    apply to_native_tuple_outcome. apply Forall_replicate. exact IH.
Qed.

(** Unboxing never succeeds for a type [can_unbox] rejects: for [none], a
    character sequence, a function pointer without a getter or a
    homogeneous tuple of no elements, on its own, in an optional or as an
    element of a tuple, generating the code raises, whatever the object
    and whatever was generated before. *)
Theorem to_native_value_raises typ obj st :
  can_unbox typ = false ->
  exists e msg, to_native_value obj typ st = Raise e msg.
Proof.
  intros Hno. pose proof (to_native_value_outcome typ obj st) as H.
  destruct (to_native_value obj typ st) as [r|e msg]; [congruence|eauto].
Qed.

Lemma to_native_value_raises_witness :
  exists e msg,
    to_native_value (Const (VPtr 80))
      (Tuple [pyobject; Optional (UniTuple none 2)]) genstate0 = Raise e msg.
Proof.
  apply (to_native_value_raises
           (Tuple [pyobject; Optional (UniTuple none 2)])).
  reflexivity.
Defined.

End RaiseExtra.

(** ** Round trips: boxing, then unboxing *)

Module RoundTripClaims.
Import LLVM LLVMFacts PythonAPI GenFacts OptionalFacts TupleFacts RunExtra
  RoundTripExtra TupleExtra RaiseExtra.


Section Core.
Implicit Types (m : machine CPython.rt).

(** Boxing a value of one of the kinds followed gives the address of an
    object from which any later unboxing at the same type, on a machine
    that holds the same interpreter and the same object, gets the value
    back. *)
Lemma round_trip_core cfg typ val st obj c1 st1 m v :
  python2 cfg = false ->
  CPython.round_trip_value typ v ->
  eval m val = v -> op_lt (fresh st) val ->
  CPython.interp_ready (state m) ->
  from_native_value cfg val typ st = Ok (obj, c1, st1) ->
  exists a,
    eval (exec c1 m) obj = VPtr a /\
    (v ≠ VPtr CPython.none_addr -> a ≠ CPython.none_addr) /\
    forall m1 stX native cT stT,
      state m1 = state (exec c1 m) -> eval m1 obj = VPtr a ->
      op_lt (fresh stX) obj ->
      to_native_value obj typ stX = Ok (native, cT, stT) ->
      eval (exec cT m1) (value native) = v /\
      eval (exec cT m1) (is_error native) = VInt 1 0.
Proof.
  intros Hpy Hrt Hval Hlt (Htrue & Hfalse & Hnext & Herr) H1.
  unfold CPython.empty_tuple_addr in Hnext.
  destruct typ; try (exfalso; exact Hrt).
  - (* pyobject *)
    destruct Hrt as [a ->]. cbn [from_native_value] in H1. ginv.
    exists a. split; [exact Hval|]. split; [congruence|].
    intros m1 stX native cT stT _ Hobj _ H2. cbn [to_native_value] in H2.
    ginv. cbn [mkNativeValue value is_error]. split; [exact Hobj|done].
  - (* boolean *)
    assert (Hv : exists n, v = VInt 1 n /\ (n = 0 \/ n = 1)).
    { destruct Hrt as [-> | ->]; eauto. }
    destruct Hv as (n & -> & Hn).
    destruct (from_native_boolean_run _ _ _ _ _ _ m n H1 Hval) as [Hobj Hst].
    eexists. split; [exact Hobj|]. split.
    { intros _. case_decide; unfold CPython.false_addr, CPython.true_addr,
        CPython.none_addr; lia. }
    intros m1 stX native cT stT Hs1 Hobj1 _ H2.
    destruct Hn as [-> | ->].
    + rewrite decide_True in Hobj1 by done.
      destruct (to_native_boolean_run _ _ _ _ _ m1 _ (CPython.PyBool false)
                  H2 Hobj1) as (Hv & He & _).
      * rewrite Hs1, Hst. exact Hfalse.
      * rewrite Hs1, Hst. exact Herr.
      * split; [exact Hv|exact He].
    + rewrite decide_False in Hobj1 by done.
      destruct (to_native_boolean_run _ _ _ _ _ m1 _ (CPython.PyBool true)
                  H2 Hobj1) as (Hv & He & _).
      * rewrite Hs1, Hst. exact Htrue.
      * rewrite Hs1, Hst. exact Herr.
      * split; [exact Hv|exact He].
  - (* Integer *)
    destruct Hrt as (Hdom & n & -> & Hn).
    destruct (from_native_int_run _ _ _ _ _ _ _ _ m n H1 Hpy Hval Hn)
      as (_ & Hobj & Hst).
    exists (CPython.next (state m)). split; [exact Hobj|]. split.
    { intros _. unfold CPython.none_addr. lia. }
    intros m1 stX native cT stT Hs1 Hobj1 _ H2.
    assert (Hbw : 0 < bitwidth <= 64) by lia.
    destruct (to_signed_range bitwidth n ltac:(lia) Hn) as [Hr Hm].
    assert (Hp : 2 ^ (bitwidth - 1) <= 2 ^ 63) by (apply Z.pow_le_mono_r; lia).
    assert (Hp' : 2 ^ bitwidth <= 2 ^ 64) by (apply Z.pow_le_mono_r; lia).
    destruct (to_native_int_run bitwidth signed obj stX native cT stT m1
                (CPython.next (state m))
                (if signed then to_signed bitwidth n else n) H2 Hobj1)
      as (Hval' & Hflag & _).
    + lia.
    + rewrite Hs1, Hst. cbn [CPython.heap]. rewrite lookup_insert_eq. done.
    + rewrite Hs1, Hst. cbn [CPython.next]. lia.
    + rewrite Hs1, Hst. cbn [CPython.err]. exact Herr.
    + lia.
    + destruct signed; lia.
    + split; [|exact Hflag]. rewrite Hval'. f_equal.
      destruct signed; [exact Hm|apply Z.mod_small; lia].
  - (* UniTuple pyobject *)
    destruct typ; try (exfalso; exact Hrt).
    destruct Hrt as (ps & -> & Hlen & Hpos).
    cbn [from_native_value] in H1.
    destruct count as [|count'].
    + lia.
    + destruct (from_native_tuple_objs cfg _ _ _ _ _ _ m ps H1 Hlt Hval Hlen
                  ltac:(lia)) as (Hobj & Hh & _ & He).
      exists (CPython.next (state m)). split; [exact Hobj|]. split.
      { intros _. unfold CPython.none_addr. lia. }
      intros m1 stX native cT stT Hs1 Hobj1 Hlt1 H2.
      cbn [to_native_value] in H2.
      destruct (to_native_tuple_objs _ _ _ _ _ _ _ m1
                  (CPython.next (state m)) ps H2 Hlt1 Hobj1)
        as (Hv & Hf & _ & _).
      { rewrite Hs1, Hh. apply lookup_insert_eq. }
      split; [|exact Hf]. rewrite Hv, <- Hlen, fmap_seq_lookup. done.
Qed.

End Core.

(** Generating the code of the two conversions succeeds for the kinds
    followed. *)
Lemma from_native_value_succeeds cfg typ v val st :
  CPython.round_trip_value typ v ->
  exists obj c st', from_native_value cfg val typ st = Ok (obj, c, st').
Proof.
  intros Hrt.
  pose proof (from_native_value_outcome cfg typ val st) as H.
  destruct (from_native_value cfg val typ st) as [[[obj c] st']|e msg];
    [eauto|].
  exfalso. destruct H as [[Hc _]|[]].
  destruct typ; try (exact Hrt); try discriminate Hc.
  - destruct Hrt as (Hw & _).
    destruct Hw as [->|[->|[->| ->]]]; destruct signed; discriminate Hc.
  - destruct typ; try (exact Hrt).
    destruct Hrt as (_ & _ & _ & Hpos).
    destruct count; [lia|discriminate Hc].
Qed.

Lemma to_native_tuple_loop_succeeds convs :
  Forall (fun conv => forall obj, outcome no_other true (conv obj)) convs ->
  forall obj i values cleanups err st,
  exists vs cl e c st',
    to_native_tuple_loop convs obj i values cleanups err st
    = Ok ((vs, cl, e), c, st') /\
    length vs = (length values + length convs)%nat.
Proof.
  induction 1 as [|conv rest Hconv _ IH];
    intros obj i values cleanups err st; cbn [to_native_tuple_loop].
  - do 5 eexists. split; [reflexivity|]. cbn [length]. lia.
  - unfold tuple_getitem. rewrite bind_run. cbn [emit].
    rewrite bind_run.
    match goal with |- context [conv ?o ?s] =>
      specialize (Hconv o s);
      destruct (conv o s) as [[[native cT] stT]|e msg];
        [|destruct Hconv as [[Hc _]|[]]; discriminate Hc]
    end.
    rewrite bind_run. cbn [emit].
    match goal with |- context [to_native_tuple_loop rest ?o ?j ?vs ?cl ?e ?s] =>
      destruct (IH o j vs cl e s) as (vs' & cl' & e' & c & st' & -> & Hlen)
    end.
    do 5 eexists. split; [reflexivity|].
    rewrite Hlen, length_app. cbn [length]. lia.
Qed.

Lemma insert_values_succeeds values :
  forall agg i st, exists r, insert_values agg i values st = Ok r.
Proof.
  induction values as [|v rest IH]; intros agg i st; cbn [insert_values].
  - eexists. reflexivity.
  - rewrite bind_run. cbn [emit].
    match goal with |- context [insert_values ?a ?j rest ?s] =>
      destruct (IH a j s) as [[[r c] st'] ->]
    end.
    eexists. reflexivity.
Qed.

Lemma to_native_value_succeeds typ v obj st :
  CPython.round_trip_value typ v ->
  exists nv c st', to_native_value obj typ st = Ok (nv, c, st').
Proof.
  intros Hrt.
  assert (Hleaf : forall typ obj,
            match typ with
            | pyobject | boolean | Integer _ _ => True
            | _ => False
            end -> outcome no_other true (to_native_value obj typ)).
  { intros [] o Hk; try (exfalso; exact Hk); cbn [to_native_value];
      never_raises. }
  assert (Hok : forall typ, outcome no_other true (to_native_value obj typ) ->
            exists nv c st', to_native_value obj typ st = Ok (nv, c, st')).
  { intros t Ht. specialize (Ht st).
    destruct (to_native_value obj t st) as [[[nv c] st']|e msg]; [eauto|].
    destruct Ht as [[Hc _]|[]]. discriminate Hc. }
  destruct typ; try (exfalso; exact Hrt); try (apply Hok, Hleaf; exact I).
  destruct typ; try (exfalso; exact Hrt).
  destruct Hrt as (_ & _ & _ & Hpos).
  change (to_native_value obj (UniTuple pyobject count))
    with (to_native_tuple
            (replicate count (fun obj => to_native_value obj pyobject))
            true obj).
  unfold to_native_tuple. rewrite bind_run.
  destruct (to_native_tuple_loop_succeeds
              (replicate count (fun obj => to_native_value obj pyobject))
              ltac:(apply Forall_replicate; intros o; apply Hleaf; exact I)
              obj 0%nat [] [] false_bit st)
    as (vs & cl & e & c & st' & -> & Hlen).
  rewrite length_replicate in Hlen. cbn [length] in Hlen.
  rewrite bind_run. unfold pack_array.
  destruct vs as [|v0 vs]; [cbn [length] in Hlen; lia|].
  destruct (insert_values_succeeds (v0 :: vs)
              (undef_agg (length (v0 :: vs))) 0%nat st') as [[[r cr] sr] ->].
  do 3 eexists. reflexivity.
Qed.

Lemma to_native_optional_succeeds typ v obj st :
  CPython.round_trip_value typ v ->
  exists nv c st', to_native_value obj (Optional typ) st = Ok (nv, c, st').
Proof.
  intros Hrt. cbn [to_native_value].
  assert (H : outcome no_other true
                (to_native_optional (fun obj => to_native_value obj typ) obj)).
  { apply to_native_optional_outcome. intros o s.
    destruct (to_native_value_succeeds typ v o s Hrt)
      as (nv & c & st' & ->). reflexivity. }
  specialize (H st).
  destruct (to_native_optional _ obj st) as [[[nv c] st']|e msg]; [eauto|].
  destruct H as [[Hc _]|[]]. discriminate Hc.
Qed.

Lemma round_trip_after_boxing cfg typ val st obj c1 st1
    (m : machine CPython.rt) v :
  python2 cfg = false ->
  CPython.round_trip_value typ v ->
  eval m val = v -> op_lt (fresh st) val ->
  CPython.interp_ready (state m) ->
  from_native_value cfg val typ st = Ok (obj, c1, st1) ->
  (forall nv c2 st2,
     to_native_value obj typ st1 = Ok (nv, c2, st2) ->
     eval (exec c2 (exec c1 m)) (value nv) = v /\
     eval (exec c2 (exec c1 m)) (is_error nv) = VInt 1 0) /\
  (forall nv c2 st2,
     v ≠ VPtr CPython.none_addr ->
     to_native_value obj (Optional typ) st1 = Ok (nv, c2, st2) ->
     eval (exec c2 (exec c1 m)) (value nv) = VAgg [v; VInt 1 1] /\
     eval (exec c2 (exec c1 m)) (is_error nv) = VInt 1 0).
Proof.
  intros Hpy Hrt Hval Hlt Hready H1.
  destruct (ScopeExtra.from_native_value_wf cfg _ _ _ _ _ _ H1)
    as (_ & _ & Hobj).
  specialize (Hobj Hlt).
  destruct (round_trip_core _ _ _ _ _ _ _ m v Hpy Hrt Hval Hlt Hready H1)
    as (a & Ha & Hne & Hback).
  split.
  - intros nv c2 st2 H2.
    exact (Hback (exec c1 m) st1 nv c2 st2 eq_refl Ha Hobj H2).
  - intros nv c2 st2 Hnone H2.
    destruct (optional_present_run _ _ _ _ _ _ (exec c1 m) a H2 Hobj Ha
                (Hne Hnone))
      as (native & cT & stT & Hc & Hv & He & _).
    cbv zeta in Hv, He. rewrite Hv, He.
    match type of Hv with
    | context [exec cT ?M1] =>
        match type of Hc with
        | to_native_value _ _ ?sx = _ =>
            destruct (Hback M1 sx native cT stT) as [Hv' He']
        end
    end.
    + reflexivity.
    + rewrite <- Ha. eapply eval_same_regs; [exact Hobj|].
      intros r Hr. cbn [exec pure_rhs set_reg regs eval].
      rewrite lookup_insert_ne by lia. done.
    + eapply op_lt_mono; [exact Hobj|cbn [fresh]; lia].
    + exact Hc.
    + rewrite Hv', He'. done.
Qed.



End RoundTripClaims.
